(** * TapDictionary: the resumable dictionary builders

    A shallow embedding of the two batch builders of the repository,
    [google_translate_dictionary_builder.py] and
    [glosbe_dictionary_builder.py]: the word-list loader, the progress
    store ([save_progress] / [load_progress] on [progress.json]), the
    batch loop [process_words] and the driver [main].

    Python dictionaries are finite maps ([gmap]), Python sets are finite
    sets ([gset]); files, the connector and the thread pool are explicit
    arguments; the side effects that the properties talk about (task
    submission, checkpoint writes, the final writers) are recorded in an
    event trace. *)

From Stdlib Require Import ZArith Ascii String.
From stdpp Require Import base ssreflect gmap sets list strings sorting.

#[local] Set Warnings "-register-all,-rewrite-rw,-clear-no-such-hyp".

(** ** Python strings *)

(** [str.isspace] on code points below 256: TAB..CR, FS..US, space,
    NEL (0x85) and NBSP (0xA0). A character of the model is one code
    point of that range. *)
Definition is_space (c : ascii) : bool :=
  let n := nat_of_ascii c in
  (Nat.leb 9 n && Nat.leb n 13) || (Nat.leb 28 n && Nat.leb n 32)
  || Nat.eqb n 133 || Nat.eqb n 160.

Fixpoint lstrip (s : string) : string :=
  match s with
  | String c r => if is_space c then lstrip r else s
  | EmptyString => EmptyString
  end.

Fixpoint rstrip (s : string) : string :=
  match s with
  | String c r =>
      match rstrip r with
      | EmptyString => if is_space c then EmptyString else String c EmptyString
      | r' => String c r'
      end
  | EmptyString => EmptyString
  end.

(** [s.strip()] *)
Definition strip (s : string) : string := rstrip (lstrip s).

(** [s.startswith(c)] for a one-character prefix *)
Definition startswith (c : ascii) (s : string) : bool :=
  match s with
  | String d _ => bool_decide (c = d)
  | EmptyString => false
  end.

(** [s.split(sep, 1)] when [sep in s]: the text before the first [sep]
    and the text after it; [None] when [sep] does not occur. *)
Fixpoint split_first (sep : ascii) (s : string) : option (string * string) :=
  match s with
  | EmptyString => None
  | String c r =>
      if bool_decide (c = sep) then Some (EmptyString, r)
      else match split_first sep r with
           | Some (a, b) => Some (String c a, b)
           | None => None
           end
  end.

(** [sep in s] *)
Definition contains (sep : ascii) (s : string) : bool :=
  bool_decide (is_Some (split_first sep s)).

(** ** Results of a call *)

Inductive exn :=
| JSONDecodeError
| AttributeError
| TypeError
| ValueError.

(** A call returns, leaves the process through [sys.exit], or raises.
    [Unmodelled] marks a call that goes on with a value the embedding
    has no type for (a progress file whose fields hold other JSON types
    than the ones [save_progress] writes); nothing is proved about it. *)
Inductive outcome (A : Type) :=
| Returned (a : A)
| SysExit (code : Z)
| Raises (e : exn)
| Unmodelled.
Arguments Returned {A} a.
Arguments SysExit {A} code.
Arguments Raises {A} e.
Arguments Unmodelled {A}.

(** What a worker or a connector call hands back: a value, or an
    exception derived from [Exception]. *)
Inductive reply (A : Type) :=
| Reply (a : A)
| Throws (e : exn).
Arguments Reply {A} a.
Arguments Throws {A} e.

(** ** [DictionaryBuilder.load_word_list]

    The same function in both builders. The input file is the list of
    its lines, [None] when the path does not exist. *)

Definition sep : ascii := "|"%char.
Definition comment_marker : ascii := "#"%char.

(** The body of the first loop for one line: the pair appended to
    [word_flag_pairs], if any. *)
Definition parse_line (raw : string) : option (string * string) :=
  let line := strip raw in
  if bool_decide (line ≠ EmptyString) && negb (startswith comment_marker line) then
    if contains sep line then
      match split_first sep line with
      | Some (word, flags) => Some (strip word, strip flags)
      | None => None
      end
    else Some (strip line, EmptyString)
  else None.

Definition word_flag_pairs (lines : list string) : list (string * string) :=
  omap parse_line lines.

(** The second loop: [seen] is the set of words already appended. *)
Fixpoint unique_pairs (seen : gset string) (pairs : list (string * string))
  : list (string * string) :=
  match pairs with
  | [] => []
  | (word, flags) :: rest =>
      if decide (word ∈ seen) then unique_pairs seen rest
      else (word, flags) :: unique_pairs ({[word]} ∪ seen) rest
  end.

Definition load_word_list (file : option (list string))
  : outcome (list (string * string)) :=
  match file with
  | Some lines => Returned (unique_pairs ∅ (word_flag_pairs lines))
  | None => SysExit 1
  end.

(** ** Python dictionaries built from key/value pairs

    A [dict] filled pair by pair: a later pair overwrites an earlier one
    with the same key. *)
Definition py_dict {V : Type} (pairs : list (string * V)) : gmap string V :=
  foldl (λ m p, <[p.1 := p.2]> m) ∅ pairs.

(** ** The text of [progress.json]

    [json.dump(obj, f)] writes the document chunk by chunk
    ([for chunk in iterencode(obj): f.write(chunk)]); the file is
    modelled as the sequence of the JSON tokens written so far, white
    space left out. The progress layout uses objects, arrays, strings
    and integers only. *)

Inductive json :=
| JNum (n : Z)
| JStr (s : string)
| JArr (items : list json)
| JObj (fields : list (string * json)).

Inductive token :=
| TLBrace | TRBrace | TLBracket | TRBracket | TColon | TComma
| TString (s : string)
| TNumber (n : Z).

Global Instance token_eq_dec : EqDecision token.
Proof. solve_decision. Defined.

(** [json.dumps]: the chunks of a document, in the order written. *)
Fixpoint dumps (j : json) : list token :=
  match j with
  | JNum n => [TNumber n]
  | JStr s => [TString s]
  | JArr items =>
      TLBracket ::
      (fix dump_items (l : list json) : list token :=
         match l with
         | [] => [TRBracket]
         | x :: r =>
             dumps x ++ match r with
                        | [] => dump_items r
                        | _ :: _ => TComma :: dump_items r
                        end
         end) items
  | JObj fields =>
      TLBrace ::
      (fix dump_fields (l : list (string * json)) : list token :=
         match l with
         | [] => [TRBrace]
         | (k, v) :: r =>
             TString k :: TColon :: dumps v ++
             match r with
             | [] => dump_fields r
             | _ :: _ => TComma :: dump_fields r
             end
         end) fields
  end.

(** The two inner loops of [dumps], by name. *)
Definition dump_items : list json → list token :=
  fix dump_items (l : list json) : list token :=
    match l with
    | [] => [TRBracket]
    | x :: r =>
        dumps x ++ match r with
                   | [] => dump_items r
                   | _ :: _ => TComma :: dump_items r
                   end
    end.

Definition dump_fields : list (string * json) → list token :=
  fix dump_fields (l : list (string * json)) : list token :=
    match l with
    | [] => [TRBrace]
    | (k, v) :: r =>
        TString k :: TColon :: dumps v ++
        match r with
        | [] => dump_fields r
        | _ :: _ => TComma :: dump_fields r
        end
    end.

(** The number of parser calls a document needs. *)
Fixpoint json_size (j : json) : nat :=
  match j with
  | JNum _ => 1
  | JStr _ => 1
  | JArr items => S (foldr (λ x n, S (json_size x + n)) 0 items)
  | JObj fields => S (foldr (λ kv n, S (json_size kv.2 + n)) 0 fields)
  end.

(** [json.loads], a recursive-descent parser; [fuel] bounds the nesting
    of calls. [parse_items] and [parse_fields] read a non-empty sequence
    up to and including the closing bracket. *)
Fixpoint parse_value (fuel : nat) (ts : list token) : option (json * list token) :=
  match fuel with
  | 0 => None
  | S fuel =>
      match ts with
      | TNumber n :: r => Some (JNum n, r)
      | TString s :: r => Some (JStr s, r)
      | TLBracket :: TRBracket :: r => Some (JArr [], r)
      | TLBracket :: r =>
          match parse_items fuel r with
          | Some (l, r') => Some (JArr l, r')
          | None => None
          end
      | TLBrace :: TRBrace :: r => Some (JObj [], r)
      | TLBrace :: r =>
          match parse_fields fuel r with
          | Some (l, r') => Some (JObj l, r')
          | None => None
          end
      | _ => None
      end
  end
with parse_items (fuel : nat) (ts : list token) : option (list json * list token) :=
  match fuel with
  | 0 => None
  | S fuel =>
      match parse_value fuel ts with
      | Some (x, TComma :: r) =>
          match parse_items fuel r with
          | Some (l, r') => Some (x :: l, r')
          | None => None
          end
      | Some (x, TRBracket :: r) => Some ([x], r)
      | _ => None
      end
  end
with parse_fields (fuel : nat) (ts : list token)
  : option (list (string * json) * list token) :=
  match fuel with
  | 0 => None
  | S fuel =>
      match ts with
      | TString k :: TColon :: r =>
          match parse_value fuel r with
          | Some (v, TComma :: r1) =>
              match parse_fields fuel r1 with
              | Some (l, r2) => Some ((k, v) :: l, r2)
              | None => None
              end
          | Some (v, TRBrace :: r1) => Some ([(k, v)], r1)
          | _ => None
          end
      | _ => None
      end
  end.

(** One document and nothing after it; [None] is [JSONDecodeError]. *)
Definition loads (ts : list token) : option json :=
  match parse_value (2 * length ts) ts with
  | Some (j, []) => Some j
  | _ => None
  end.

(** [data.get(key)] on a loaded object: [json.load] builds a [dict], so
    the last field of a given name is the one kept. *)
Definition json_get (key : string) (data : json) : outcome (option json) :=
  match data with
  | JObj fields => Returned (py_dict fields !! key)
  | _ => Raises AttributeError
  end.

(** The values [save_progress] writes, read back at their types. *)
Definition as_string (j : json) : option string :=
  match j with JStr s => Some s | _ => None end.

Definition as_string_list (j : json) : option (list string) :=
  match j with JArr items => mapM as_string items | _ => None end.

Definition as_string_dict (j : json) : option (gmap string string) :=
  match j with
  | JObj fields =>
      py_dict <$> mapM (λ kv, pair kv.1 <$> as_string kv.2) fields
  | _ => None
  end.

Definition as_string_list_dict (j : json) : option (gmap string (list string)) :=
  match j with
  | JObj fields =>
      py_dict <$> mapM (λ kv, pair kv.1 <$> as_string_list kv.2) fields
  | _ => None
  end.

Definition json_of_string_list (l : list string) : json := JArr (JStr <$> l).

Definition json_of_string_dict (m : gmap string string) : json :=
  JObj (prod_map id JStr <$> map_to_list m).

Definition json_of_string_list_dict (m : gmap string (list string)) : json :=
  JObj (prod_map id json_of_string_list <$> map_to_list m).

(** ** The file [progress.json] *)

(** The content of the file, [None] while it does not exist. *)
Definition disk := option (list token).

(** What [with open(path, 'w') as f: json.dump(data, f)] does to the
    file, one operation at a time: [open] creates or truncates it, each
    chunk is appended, the file is closed. *)
Inductive file_op :=
| OpenTruncate
| WriteChunk (t : token)
| Close.

Definition apply_op (d : disk) (op : file_op) : disk :=
  match op with
  | OpenTruncate => Some []
  | WriteChunk t => Some (default [] d ++ [t])
  | Close => d
  end.

Definition write_json_ops (data : json) : list file_op :=
  OpenTruncate :: (WriteChunk <$> dumps data) ++ [Close].

Definition run_ops (ops : list file_op) (d : disk) : disk := foldl apply_op d ops.

(** The process is killed after the first [k] operations of the write. *)
Definition crash_after (k : nat) (ops : list file_op) (d : disk) : disk :=
  run_ops (take k ops) d.

(** ** Batches and completion order *)

(** [range(0, n, batch_size)] for a positive step. *)
Definition batch_starts (n batch_size : nat) : list nat :=
  (λ k, k * batch_size) <$> seq 0 ((n + batch_size - 1) `div` batch_size).

(** [as_completed(future_to_word)]: the submitted items in the order in
    which their futures finish. [finish word] is the time at which the
    task of [word] finishes; it is a parameter of a run. *)
Definition finishes_before (finish : string → nat) : relation (string * string) :=
  λ p q, finish p.1 ≤ finish q.1.

Global Instance finishes_before_dec finish : RelDecision (finishes_before finish).
Proof. intros p q. unfold finishes_before. apply _. Defined.

Definition as_completed (finish : string → nat) (submitted : list (string * string))
  : list (string * string) :=
  merge_sort (finishes_before finish) submitted.

(** * The Google Translate builder *)

Module Google.

Record builder := Builder {
  translations : gmap string string;
  processed_words : gset string;
  problematic_words : gset string
}.

(** [DictionaryBuilder.__init__] *)
Definition init : builder := Builder ∅ ∅ ∅.

(** [results]: word -> (translation, flags) *)
Abbreviation results := (gmap string (string * string)).

Inductive event :=
| Submit (batch_num : nat) (word flags : string)
| SaveProgress (snapshot : builder) (results_count : nat)
| Sleep
| SaveProblematicWords (words : gset string)
| SaveYomichan (entries : results).

Record world := World {
  self : builder;
  progress_json : disk;
  trace : list event
}.

(** [process_word]: every exception of the connector is caught. *)
Definition process_word (get_translation : string → reply (option string))
    (spanish_word flags : string) : reply (option string) :=
  match get_translation spanish_word with
  | Reply (Some translation) =>
      if decide (strip translation = "") then Reply None
      else Reply (Some (strip translation))
  | Reply None => Reply None
  | Throws _ => Reply None
  end.

(** The body of the [as_completed] loop for one finished future. *)
Definition record (get_translation : string → reply (option string))
    (st : builder * results) (item : string * string) : builder * results :=
  let '(b, res) := st in
  let '(word, flags) := item in
  let '(b1, res1) :=
    match process_word get_translation word flags with
    | Reply (Some translation) =>
        if decide (translation ≠ "") then
          (Builder (<[word := translation]> (translations b))
                   (processed_words b)
                   (problematic_words b ∖ {[word]}),
           <[word := (translation, flags)]> res)
        else
          (Builder (translations b) (processed_words b)
                   ({[word]} ∪ problematic_words b), res)
    | Reply None =>
        (Builder (translations b) (processed_words b)
                 ({[word]} ∪ problematic_words b), res)
    | Throws _ =>
        (Builder (translations b) (processed_words b)
                 ({[word]} ∪ problematic_words b), res)
    end in
  (Builder (translations b1) ({[word]} ∪ processed_words b1) (problematic_words b1),
   res1).

(** The document [save_progress] dumps. *)
Definition progress_data (b : builder) (res : results) : json :=
  JObj [ ("translations", json_of_string_dict (translations b));
         ("processed_words", json_of_string_list (elements (processed_words b)));
         ("problematic_words", json_of_string_list (elements (problematic_words b)));
         ("results_count", JNum (Z.of_nat (size res))) ].

Definition save_progress (res : results) (w : world) : world :=
  World (self w)
        (run_ops (write_json_ops (progress_data (self w) res)) (progress_json w))
        (trace w ++ [SaveProgress (self w) (size res)]).

(** [save_progress] when the process is killed after the first [k]
    file operations of the write. *)
Definition save_progress_killed (k : nat) (res : results) (w : world) : world :=
  World (self w)
        (crash_after k (write_json_ops (progress_data (self w) res))
                     (progress_json w))
        (trace w).

(** The body of the [for i in range(...)] loop of [process_words]. *)
Definition process_batch (get_translation : string → reply (option string))
    (finish : string → nat) (word_flag_pairs : list (string * string))
    (batch_size : nat) (st : world * results) (i : nat) : world * results :=
  let '(w, res) := st in
  let batch := take batch_size (drop i word_flag_pairs) in
  let batch_num := i `div` batch_size + 1 in
  let words_to_process :=
    filter (λ p, p.1 ∉ processed_words (self w)) batch in
  let '(w1, res1) :=
    if decide (words_to_process ≠ []) then
      let submitted :=
        trace w ++ ((λ p, Submit batch_num p.1 p.2) <$> words_to_process) in
      let '(b, r) := foldl (record get_translation) (self w, res)
                           (as_completed finish words_to_process) in
      (World b (progress_json w) submitted, r)
    else (w, res) in
  let w2 := save_progress res1 w1 in
  let w3 :=
    if decide (i + batch_size < length word_flag_pairs)
    then World (self w2) (progress_json w2) (trace w2 ++ [Sleep])
    else w2 in
  (w3, res1).

Definition process_words (get_translation : string → reply (option string))
    (finish : string → nat) (word_flag_pairs : list (string * string))
    (batch_size : nat) (w : world) : outcome (world * results) :=
  if decide (batch_size = 0) then Raises ValueError
  else Returned
         (foldl (process_batch get_translation finish word_flag_pairs batch_size)
                (w, ∅) (batch_starts (length word_flag_pairs) batch_size)).

(** [load_progress] *)
Definition load_progress (w : world) : outcome world :=
  match progress_json w with
  | None => Returned w
  | Some text =>
      match loads text with
      | None => Raises JSONDecodeError
      | Some data =>
          match json_get "translations" data,
                json_get "processed_words" data,
                json_get "problematic_words" data with
          | Returned t, Returned pr, Returned pb =>
              match from_option as_string_dict (Some ∅) t,
                    from_option as_string_list (Some []) pr,
                    from_option as_string_list (Some []) pb with
              | Some t', Some pr', Some pb' =>
                  Returned (World (Builder t' (list_to_set pr') (list_to_set pb'))
                                  (progress_json w) (trace w))
              | _, _, _ => Unmodelled
              end
          | _, _, _ => Raises AttributeError
          end
      end
  end.

Definition save_problematic_words (w : world) : world :=
  World (self w) (progress_json w)
        (trace w ++ [SaveProblematicWords (problematic_words (self w))]).

Definition save_yomichan (res : results) (w : world) : world :=
  World (self w) (progress_json w) (trace w ++ [SaveYomichan res]).

(** The work list [main] builds: problematic words first. *)
Definition words_to_process (b : builder) (word_flag_pairs : list (string * string))
  : list (string * string) :=
  let word_to_flags := py_dict word_flag_pairs in
  let problematic_to_retry :=
    omap (λ word, pair word <$> word_to_flags !! word)
         (elements (problematic_words b)) in
  let regular_words_to_process :=
    filter (λ p, (p.1 ∉ processed_words b) ∧ (p.1 ∉ problematic_words b))
           word_flag_pairs in
  problematic_to_retry ++ regular_words_to_process.

(** [main]: the progress file and the word list are the inputs; the
    defaults [batch_size = 100] and [max_workers = 30] apply. *)
Definition main (get_translation : string → reply (option string))
    (finish : string → nat) (progress : disk) (word_list : option (list string))
  : outcome world :=
  match load_progress (World init progress []) with
  | Returned w0 =>
      match load_word_list word_list with
      | Returned word_flag_pairs =>
          let word_to_flags := py_dict word_flag_pairs in
          let todo := words_to_process (self w0) word_flag_pairs in
          let run :=
            if decide (todo ≠ []) then
              process_words get_translation finish todo 100 w0
            else
              Returned
                (w0,
                 map_imap (λ word translation,
                             if decide (is_Some (word_to_flags !! word))
                             then Some (translation, default "" (word_to_flags !! word))
                             else None)
                          (translations (self w0))) in
          match run with
          | Returned (w1, res) =>
              Returned (save_yomichan res (save_problematic_words w1))
          | SysExit c => SysExit c
          | Raises e => Raises e
          | Unmodelled => Unmodelled
          end
      | SysExit c => SysExit c
      | Raises e => Raises e
      | Unmodelled => Unmodelled
      end
  | SysExit c => SysExit c
  | Raises e => Raises e
  | Unmodelled => Unmodelled
  end.

End Google.

(** * The Glosbe builder *)

Module Glosbe.

Record builder := Builder {
  translations : gmap string string;
  examples : gmap string (list string);
  processed_words : gset string;
  problematic_words : gset string
}.

(** [DictionaryBuilder.__init__] *)
Definition init : builder := Builder ∅ ∅ ∅ ∅.

(** [results]: word -> (translation, flags, examples) *)
Abbreviation results := (gmap string (string * string * list string)).

Inductive event :=
| Submit (batch_num : nat) (word flags : string)
| SaveProgress (snapshot : builder) (results_count : nat)
| Sleep
| SaveProblematicWords (words : gset string)
| SaveYomichan (entries : results).

Record world := World {
  self : builder;
  progress_json : disk;
  trace : list event
}.

(** [process_word], run by a worker: it adds the word to
    [problematic_words] itself when the translation is missing or
    blank; an exception of the connector is not caught here. *)
Definition process_word (get_translation : string → reply (option string))
    (get_similar_phrases : string → reply (list string))
    (spanish_word flags : string) (problematic : gset string)
  : reply (option string * list string) * gset string :=
  match get_translation spanish_word with
  | Throws e => (Throws e, problematic)
  | Reply translation =>
      match get_similar_phrases spanish_word with
      | Throws e => (Throws e, problematic)
      | Reply phrases =>
          match translation with
          | Some t =>
              if decide (strip t = "")
              then (Reply (None, phrases), {[spanish_word]} ∪ problematic)
              else (Reply (Some (strip t), phrases), problematic)
          | None => (Reply (None, phrases), {[spanish_word]} ∪ problematic)
          end
      end
  end.

(** The task of one item followed by the body of the [as_completed]
    loop for its future. *)
Definition record (get_translation : string → reply (option string))
    (get_similar_phrases : string → reply (list string))
    (st : builder * results) (item : string * string) : builder * results :=
  let '(b, res) := st in
  let '(word, flags) := item in
  let '(r, problematic) :=
    process_word get_translation get_similar_phrases word flags
                 (problematic_words b) in
  let '(b1, res1) :=
    match r with
    | Reply (Some translation, phrases) =>
        if decide (translation ≠ "") then
          (Builder (<[word := translation]> (translations b))
                   (<[word := phrases]> (examples b))
                   (processed_words b) problematic,
           <[word := (translation, flags, phrases)]> res)
        else
          (Builder (translations b) (examples b) (processed_words b) problematic,
           res)
    | Reply (None, _) =>
        (Builder (translations b) (examples b) (processed_words b) problematic,
         res)
    | Throws _ =>
        (Builder (translations b) (examples b) (processed_words b)
                 ({[word]} ∪ problematic), res)
    end in
  (Builder (translations b1) (examples b1) ({[word]} ∪ processed_words b1)
           (problematic_words b1),
   res1).

(** The document [save_progress] dumps. *)
Definition progress_data (b : builder) (res : results) : json :=
  JObj [ ("translations", json_of_string_dict (translations b));
         ("examples", json_of_string_list_dict (examples b));
         ("processed_words", json_of_string_list (elements (processed_words b)));
         ("problematic_words", json_of_string_list (elements (problematic_words b)));
         ("results_count", JNum (Z.of_nat (size res))) ].

Definition save_progress (res : results) (w : world) : world :=
  World (self w)
        (run_ops (write_json_ops (progress_data (self w) res)) (progress_json w))
        (trace w ++ [SaveProgress (self w) (size res)]).

(** [save_progress] when the process is killed after the first [k]
    file operations of the write. *)
Definition save_progress_killed (k : nat) (res : results) (w : world) : world :=
  World (self w)
        (crash_after k (write_json_ops (progress_data (self w) res))
                     (progress_json w))
        (trace w).

(** The body of the [for i in range(...)] loop of [process_words]. *)
Definition process_batch (get_translation : string → reply (option string))
    (get_similar_phrases : string → reply (list string))
    (finish : string → nat) (word_flag_pairs : list (string * string))
    (batch_size : nat) (st : world * results) (i : nat) : world * results :=
  let '(w, res) := st in
  let batch := take batch_size (drop i word_flag_pairs) in
  let batch_num := i `div` batch_size + 1 in
  let words_to_process :=
    filter (λ p, p.1 ∉ processed_words (self w)) batch in
  let '(w1, res1) :=
    if decide (words_to_process ≠ []) then
      let submitted :=
        trace w ++ ((λ p, Submit batch_num p.1 p.2) <$> words_to_process) in
      let '(b, r) := foldl (record get_translation get_similar_phrases)
                           (self w, res)
                           (as_completed finish words_to_process) in
      (World b (progress_json w) submitted, r)
    else (w, res) in
  let w2 := save_progress res1 w1 in
  let w3 :=
    if decide (i + batch_size < length word_flag_pairs)
    then World (self w2) (progress_json w2) (trace w2 ++ [Sleep])
    else w2 in
  (w3, res1).

Definition process_words (get_translation : string → reply (option string))
    (get_similar_phrases : string → reply (list string))
    (finish : string → nat) (word_flag_pairs : list (string * string))
    (batch_size : nat) (w : world) : outcome (world * results) :=
  if decide (batch_size = 0) then Raises ValueError
  else Returned
         (foldl (process_batch get_translation get_similar_phrases finish
                               word_flag_pairs batch_size)
                (w, ∅) (batch_starts (length word_flag_pairs) batch_size)).

(** [load_progress] *)
Definition load_progress (w : world) : outcome world :=
  match progress_json w with
  | None => Returned w
  | Some text =>
      match loads text with
      | None => Raises JSONDecodeError
      | Some data =>
          match json_get "translations" data,
                json_get "examples" data,
                json_get "processed_words" data,
                json_get "problematic_words" data with
          | Returned t, Returned ex, Returned pr, Returned pb =>
              match from_option as_string_dict (Some ∅) t,
                    from_option as_string_list_dict (Some ∅) ex,
                    from_option as_string_list (Some []) pr,
                    from_option as_string_list (Some []) pb with
              | Some t', Some ex', Some pr', Some pb' =>
                  Returned (World (Builder t' ex' (list_to_set pr') (list_to_set pb'))
                                  (progress_json w) (trace w))
              | _, _, _, _ => Unmodelled
              end
          | _, _, _, _ => Raises AttributeError
          end
      end
  end.

Definition save_problematic_words (w : world) : world :=
  World (self w) (progress_json w)
        (trace w ++ [SaveProblematicWords (problematic_words (self w))]).

Definition save_yomichan (res : results) (w : world) : world :=
  World (self w) (progress_json w) (trace w ++ [SaveYomichan res]).

(** The work list [main] builds: the words not processed yet. *)
Definition words_to_process (b : builder) (word_flag_pairs : list (string * string))
  : list (string * string) :=
  filter (λ p, p.1 ∉ processed_words b) word_flag_pairs.

(** [main], called with [batch_size = 25] and [max_workers = 1]; the
    two writers are called twice in a row. *)
Definition main (get_translation : string → reply (option string))
    (get_similar_phrases : string → reply (list string))
    (finish : string → nat) (progress : disk) (word_list : option (list string))
  : outcome world :=
  match load_progress (World init progress []) with
  | Returned w0 =>
      match load_word_list word_list with
      | Returned word_flag_pairs =>
          let todo := words_to_process (self w0) word_flag_pairs in
          let run :=
            if decide (todo = []) then Returned (w0, ∅)
            else process_words get_translation get_similar_phrases finish
                               todo 25 w0 in
          match run with
          | Returned (w1, res) =>
              let w2 := save_yomichan res (save_problematic_words w1) in
              Returned (save_yomichan res (save_problematic_words w2))
          | SysExit c => SysExit c
          | Raises e => Raises e
          | Unmodelled => Unmodelled
          end
      | SysExit c => SysExit c
      | Raises e => Raises e
      | Unmodelled => Unmodelled
      end
  | SysExit c => SysExit c
  | Raises e => Raises e
  | Unmodelled => Unmodelled
  end.

End Glosbe.

(** * Vocabulary of the properties *)

(** A record of the persisted layout in which any field may be
    missing. *)
Record persisted := Persisted {
  p_translations : option (gmap string string);
  p_examples : option (gmap string (list string));
  p_processed_words : option (list string);
  p_problematic_words : option (list string);
  p_results_count : option Z
}.

Definition persisted_json (p : persisted) : json :=
  JObj (omap id
    [ pair "translations" ∘ json_of_string_dict <$> p_translations p;
      pair "examples" ∘ json_of_string_list_dict <$> p_examples p;
      pair "processed_words" ∘ json_of_string_list <$> p_processed_words p;
      pair "problematic_words" ∘ json_of_string_list <$> p_problematic_words p;
      pair "results_count" ∘ JNum <$> p_results_count p ]).

(** What the word list says a line stands for, in the words of the
    format: a line whose stripped text is empty or starts with the
    comment marker yields nothing; otherwise the stripped text is cut
    at its first separator, the word being the stripped text before it
    and the flags the stripped text after it; without a separator the
    stripped text is the word and the flags are empty. *)
Definition line_yields (raw word flags : string) : Prop :=
  let line := strip raw in
  line ≠ EmptyString ∧
  startswith comment_marker line = false ∧
  ((∃ a b, line = a +:+ String sep b ∧
           ¬ In sep (list_ascii_of_string a) ∧
           word = strip a ∧ flags = strip b) ∨
   (¬ In sep (list_ascii_of_string line) ∧
    word = line ∧ flags = EmptyString)).

(** [(word, flags)] is what the first line of the file that stands for
    [word] yields. *)
Definition first_yield (lines : list string) (word flags : string) : Prop :=
  ∃ before line after,
    lines = before ++ line :: after ∧
    line_yields line word flags ∧
    ∀ l f, l ∈ before → ¬ line_yields l word f.

(** A document never starts with a closing bracket, a colon or a comma. *)
Definition opens_value (t : token) : Prop :=
  match t with
  | TNumber _ | TString _ | TLBracket | TLBrace => True
  | _ => False
  end.

Definition items_size (items : list json) : nat :=
  foldr (λ x n, S (json_size x + n)) 0 items.

Definition fields_size (fields : list (string * json)) : nat :=
  foldr (λ kv n, S (json_size kv.2 + n)) 0 fields.

(** The state persisted by the first checkpoint of the end-to-end
    scenario, and the one a second batch would persist. *)
Definition checkpoint_one : Google.builder :=
  Google.Builder {[ "casa" := "jib" ]} {[ "casa" ]} ∅.

Definition checkpoint_two : Google.builder :=
  Google.Builder {[ "casa" := "jib"; "agua" := "mul" ]} {[ "casa"; "agua" ]} ∅.

(** The translation [process_word] accepts for a word: the connector's
    answer, stripped, unless it is missing, blank or an exception. *)
Definition valid_translation (get_translation : string → reply (option string))
    (word : string) : option string :=
  match get_translation word with
  | Reply (Some t) => if decide (strip t = "") then None else Some (strip t)
  | _ => None
  end.

(** The words of the [Submit] events of a trace, in order. *)
Definition google_submitted (tr : list Google.event) : list string :=
  omap (λ e, match e with Google.Submit _ word _ => Some word | _ => None end) tr.

Definition glosbe_submitted (tr : list Glosbe.event) : list string :=
  omap (λ e, match e with Glosbe.Submit _ word _ => Some word | _ => None end) tr.

(** The snapshots of the [SaveProgress] events of a trace, in order. *)
Definition google_checkpoints (tr : list Google.event) : list Google.builder :=
  omap (λ e, match e with Google.SaveProgress b _ => Some b | _ => None end) tr.

Definition glosbe_checkpoints (tr : list Glosbe.event) : list Glosbe.builder :=
  omap (λ e, match e with Glosbe.SaveProgress b _ => Some b | _ => None end) tr.

(** [b] is [b0] after the outcomes of the words [attempted] have been
    recorded by the Google builder: all of them are processed; one with
    a valid translation is in [translations] and not problematic; one
    without keeps its entry and is problematic; the other words are
    as before. *)
Definition google_recorded (get_translation : string → reply (option string))
    (b0 b : Google.builder) (attempted : gset string) : Prop :=
  Google.processed_words b = attempted ∪ Google.processed_words b0 ∧
  ∀ k,
    (k ∈ attempted →
       match valid_translation get_translation k with
       | Some t => Google.translations b !! k = Some t ∧
                   k ∉ Google.problematic_words b
       | None => Google.translations b !! k = Google.translations b0 !! k ∧
                 k ∈ Google.problematic_words b
       end) ∧
    (k ∉ attempted →
       Google.translations b !! k = Google.translations b0 !! k ∧
       (k ∈ Google.problematic_words b ↔ k ∈ Google.problematic_words b0)).

(** What the Glosbe [process_word] task yields for a word when neither
    connector call raises and the translation is valid: the stripped
    translation and the example phrases. *)
Definition glosbe_translation (get_translation : string → reply (option string))
    (get_similar_phrases : string → reply (list string))
    (word : string) : option (string * list string) :=
  match get_translation word, get_similar_phrases word with
  | Reply (Some t), Reply phrases =>
      if decide (strip t = "") then None else Some (strip t, phrases)
  | _, _ => None
  end.

(** [b] is [b0] after the outcomes of the words [attempted] have been
    recorded by the Glosbe builder: all of them are processed; one with
    a valid translation is in [translations] and [examples] and keeps
    its problematic status; one without keeps its entries and is
    problematic; the other words are as before. *)
Definition glosbe_recorded (get_translation : string → reply (option string))
    (get_similar_phrases : string → reply (list string))
    (b0 b : Glosbe.builder) (attempted : gset string) : Prop :=
  Glosbe.processed_words b = attempted ∪ Glosbe.processed_words b0 ∧
  ∀ k,
    (k ∈ attempted →
       match glosbe_translation get_translation get_similar_phrases k with
       | Some (t, phrases) =>
           Glosbe.translations b !! k = Some t ∧
           Glosbe.examples b !! k = Some phrases ∧
           (k ∈ Glosbe.problematic_words b ↔ k ∈ Glosbe.problematic_words b0)
       | None =>
           Glosbe.translations b !! k = Glosbe.translations b0 !! k ∧
           Glosbe.examples b !! k = Glosbe.examples b0 !! k ∧
           k ∈ Glosbe.problematic_words b
       end) ∧
    (k ∉ attempted →
       Glosbe.translations b !! k = Glosbe.translations b0 !! k ∧
       Glosbe.examples b !! k = Glosbe.examples b0 !! k ∧
       (k ∈ Glosbe.problematic_words b ↔ k ∈ Glosbe.problematic_words b0)).

(** The end-to-end scenario: the word list, a connector that knows
    [casa] and [agua] only, phrases for the Glosbe builder, and tasks
    that all finish at the same time. *)
Definition scenario_words : list string :=
  ["casa|n"; "xyz123"; "#comment"; "agua|n"].

Definition scenario_connector (word : string) : reply (option string) :=
  if decide (word = "casa") then Reply (Some "jib")
  else if decide (word = "agua") then Reply (Some "mul")
  else Reply None.

Definition scenario_phrases (word : string) : reply (list string) := Reply [].

Definition scenario_finish (word : string) : nat := 0.

(** A trace made of one block per batch start, in order: the [Submit]
    events of the items of the batch that were not processed before
    (the set [before]), then one [SaveProgress] whose snapshot has the
    whole batch processed on top of [before], then at most a [Sleep];
    the next block starts from the snapshot. *)
Inductive google_checkpointed (pairs : list (string * string)) (batch_size : nat)
  : gset string → list nat → list Google.event → Prop :=
| google_checkpointed_nil before :
    google_checkpointed pairs batch_size before [] []
| google_checkpointed_batch before i starts snapshot count tail rest :
    Google.processed_words snapshot
      = list_to_set (take batch_size (drop i pairs)).*1 ∪ before →
    Forall (λ e, e = Google.Sleep) tail →
    google_checkpointed pairs batch_size (Google.processed_words snapshot)
                        starts rest →
    google_checkpointed pairs batch_size before (i :: starts)
      (((λ p, Google.Submit (i `div` batch_size + 1) p.1 p.2)
          <$> filter (λ p, p.1 ∉ before) (take batch_size (drop i pairs)))
       ++ Google.SaveProgress snapshot count :: tail ++ rest).

Inductive glosbe_checkpointed (pairs : list (string * string)) (batch_size : nat)
  : gset string → list nat → list Glosbe.event → Prop :=
| glosbe_checkpointed_nil before :
    glosbe_checkpointed pairs batch_size before [] []
| glosbe_checkpointed_batch before i starts snapshot count tail rest :
    Glosbe.processed_words snapshot
      = list_to_set (take batch_size (drop i pairs)).*1 ∪ before →
    Forall (λ e, e = Glosbe.Sleep) tail →
    glosbe_checkpointed pairs batch_size (Glosbe.processed_words snapshot)
                        starts rest →
    glosbe_checkpointed pairs batch_size before (i :: starts)
      (((λ p, Glosbe.Submit (i `div` batch_size + 1) p.1 p.2)
          <$> filter (λ p, p.1 ∉ before) (take batch_size (drop i pairs)))
       ++ Glosbe.SaveProgress snapshot count :: tail ++ rest).

(** The state of [process_words] when the loop has run its first [k]
    iterations: the world (builder, progress file, trace) and the
    [results] so far. *)
Definition google_after_batches (get_translation : string → reply (option string))
    (finish : string → nat) (pairs : list (string * string)) (batch_size : nat)
    (w : Google.world) (k : nat) : Google.world * Google.results :=
  foldl (Google.process_batch get_translation finish pairs batch_size) (w, ∅)
        (take k (batch_starts (length pairs) batch_size)).

Definition glosbe_after_batches (get_translation : string → reply (option string))
    (get_similar_phrases : string → reply (list string))
    (finish : string → nat) (pairs : list (string * string)) (batch_size : nat)
    (w : Glosbe.world) (k : nat) : Glosbe.world * Glosbe.results :=
  foldl (Glosbe.process_batch get_translation get_similar_phrases finish
                              pairs batch_size) (w, ∅)
        (take k (batch_starts (length pairs) batch_size)).

(** The invariants of the progress state: every translated word is
    processed, and no translated word is problematic. *)
Definition google_invariant (b : Google.builder) : Prop :=
  dom (Google.translations b) ⊆ Google.processed_words b ∧
  Google.problematic_words b ## dom (Google.translations b).

Definition glosbe_invariant (b : Glosbe.builder) : Prop :=
  dom (Glosbe.translations b) ⊆ Glosbe.processed_words b ∧
  Glosbe.problematic_words b ## dom (Glosbe.translations b).

(** A progress state in which [casa] is problematic and not processed,
    as a progress file holding only [problematic_words] gives. *)
Definition retry_state : Glosbe.builder := Glosbe.Builder ∅ ∅ ∅ {[ "casa" ]}.

(** In the key sequence [keys], every problematic key of the input
    stands before every key of the input that was never attempted
    (neither processed nor problematic). *)
Definition problematic_first (problematic processed : gset string)
    (input keys : list string) : Prop :=
  ∀ k j,
    k ∈ problematic → k ∈ input →
    j ∈ input → j ∉ processed → j ∉ problematic →
    ∃ s1 s2 s3, keys = s1 ++ k :: s2 ++ j :: s3.

(** A state in which [xyz123] was attempted and failed. *)
Definition failed_once : Glosbe.builder :=
  Glosbe.Builder ∅ ∅ {[ "xyz123" ]} {[ "xyz123" ]}.

(** The mappings handed to [save_yomichan], in order. *)
Definition google_written (tr : list Google.event) : list Google.results :=
  omap (λ e, match e with Google.SaveYomichan r => Some r | _ => None end) tr.

Definition glosbe_written (tr : list Glosbe.event) : list Glosbe.results :=
  omap (λ e, match e with Glosbe.SaveYomichan r => Some r | _ => None end) tr.


Definition scenario_done : Google.builder :=
  Google.Builder {[ "casa" := "jib"; "agua" := "mul" ]}
                 {[ "casa"; "xyz123"; "agua" ]} {[ "xyz123" ]}.

(** ** The term bank

    [create_yomichan_entry] and [save_yomichan] of both builders.
    [save_yomichan] is given the items of the [results] dictionary in
    the order the dictionary yields them. *)

Module GoogleTermBank.

Definition create_yomichan_entry (spanish korean flags : string) : json :=
  let content :=
    [JObj [("tag", JStr "div");
           ("content", JArr [JObj [("tag", JStr "strong");
                                   ("content", JStr korean)]])]]
    ++ (if decide (flags ≠ "") then
          [JObj [("tag", JStr "br")];
           JObj [("tag", JStr "div");
                 ("content", JArr [JObj [("tag", JStr "small");
                                         ("content", JStr ("Flags: " +:+ flags))]])]]
        else []) in
  JArr [JStr spanish; JStr ""; JStr ""; JStr "unknown"; JNum 0;
        JArr [JObj [("type", JStr "structured-content");
                    ("content", JArr content)]];
        JNum 0; JStr ""].

Definition entries (items : list (string * (string * string))) : list json :=
  (λ item, create_yomichan_entry item.1 item.2.1 item.2.2) <$> items.

Definition save_yomichan (items : list (string * (string * string)))
    (output_file : disk) : disk :=
  run_ops (write_json_ops (JArr (entries items))) output_file.

End GoogleTermBank.

Module GlosbeTermBank.

Definition create_yomichan_entry (spanish korean flags : string)
    (examples : list string) : json :=
  let content :=
    [JObj [("tag", JStr "div");
           ("content", JArr [JObj [("tag", JStr "strong");
                                   ("content", JStr korean)]])]]
    ++ (if decide (flags ≠ "") then
          [JObj [("tag", JStr "br")];
           JObj [("tag", JStr "div");
                 ("content", JArr [JObj [("tag", JStr "small");
                                         ("content", JStr ("Flags: " +:+ flags))]])]]
        else [])
    ++ (if decide (examples ≠ []) then
          let example_list :=
            (λ example, JObj [("tag", JStr "li"); ("content", JStr example)])
              <$> take 3 examples in
          [JObj [("tag", JStr "br")];
           JObj [("tag", JStr "div");
                 ("content", JArr [JObj [("tag", JStr "em");
                                         ("content", JStr "Examples:")]])]]
          ++ (if decide (example_list ≠ []) then
                [JObj [("tag", JStr "ul"); ("content", JArr example_list)]]
              else [])
        else []) in
  JArr [JStr spanish; JStr ""; JStr ""; JStr "unknown"; JNum 0;
        JArr [JObj [("type", JStr "structured-content");
                    ("content", JArr content)]]].

Definition entries (items : list (string * (string * string * list string)))
  : list json :=
  (λ item, create_yomichan_entry item.1 item.2.1.1 item.2.1.2 item.2.2) <$> items.

Definition save_yomichan (items : list (string * (string * string * list string)))
    (filename : disk) : disk :=
  run_ops (write_json_ops (JArr (entries items))) filename.

End GlosbeTermBank.

(** The word an entry is filed under, and the three examples an entry
    has room for. *)
Definition entry_term (entry : json) : option string :=
  match entry with
  | JArr (JStr term :: _) => Some term
  | _ => None
  end.

Definition first_examples (item : string * (string * string * list string))
  : string * (string * string * list string) :=
  (item.1, (item.2.1, take 3 item.2.2)).

(** ** The Google client

    [GoogleTranslateClient.get_translation]. One request comes to one
    of five things, by the branch of the loop body it ends in: status
    429; a [RequestException] (from [session.get] or
    [raise_for_status]); one of the exceptions of the second [except]
    clause; a body with a translation at [data[0][0][0]]; a body that
    is empty. The server is a function of the attempt number; the
    requests and the sleeps of the back-off are recorded. *)

Module GoogleClient.

Inductive response :=
| TooManyRequests
| RequestFailed
| ParseFailed
| Answer (translation : string)
| UnexpectedFormat.

Inductive event :=
| Request (attempt : nat)
| Sleep (seconds : nat).

(** The [for attempt in range(max_retries)] loop over the attempts
    that are left. *)
Fixpoint attempts (server : nat → response) (max_retries : nat)
    (range : list nat) : option string * list event :=
  match range with
  | [] => (None, [])
  | attempt :: range =>
      match server attempt with
      | TooManyRequests =>
          let wait_time := 2 ^ attempt * 2 in
          let rest := attempts server max_retries range in
          (rest.1, Request attempt :: Sleep wait_time :: rest.2)
      | RequestFailed =>
          if decide (attempt < max_retries - 1) then
            let rest := attempts server max_retries range in
            (rest.1, Request attempt :: Sleep 1 :: rest.2)
          else (None, [Request attempt])
      | ParseFailed => (None, [Request attempt])
      | Answer translation => (Some translation, [Request attempt])
      | UnexpectedFormat => (None, [Request attempt])
      end
  end.

Definition get_translation (server : nat → response) (max_retries : nat)
  : option string * list event :=
  attempts server max_retries (seq 0 max_retries).

End GoogleClient.

(** The attempts requested and the seconds slept, in order; the
    responses after which the loop goes on. *)
Definition client_requests (tr : list GoogleClient.event) : list nat :=
  omap (λ e, match e with GoogleClient.Request a => Some a | _ => None end) tr.

Definition client_sleeps (tr : list GoogleClient.event) : list nat :=
  omap (λ e, match e with GoogleClient.Sleep s => Some s | _ => None end) tr.

Definition retried (r : GoogleClient.response) : Prop :=
  r = GoogleClient.TooManyRequests ∨ r = GoogleClient.RequestFailed.

(** A server that answers at the third attempt. *)
Definition third_time_lucky (attempt : nat) : GoogleClient.response :=
  match attempt with
  | 0 => GoogleClient.TooManyRequests
  | 1 => GoogleClient.RequestFailed
  | _ => GoogleClient.Answer "jib"
  end.

(** The connector of the Google builder: [process_word] calls the
    client with the default of three attempts. *)
Definition client_connector (servers : string → nat → GoogleClient.response)
    (word : string) : reply (option string) :=
  Reply (GoogleClient.get_translation (servers word) 3).1.

(** The number of pauses between batches in a trace. *)
Definition google_pauses (tr : list Google.event) : nat :=
  length (omap (λ e, match e with Google.Sleep => Some () | _ => None end) tr).

Definition glosbe_pauses (tr : list Glosbe.event) : nat :=
  length (omap (λ e, match e with Glosbe.Sleep => Some () | _ => None end) tr).

(** [save_yomichan] when the process is killed after the first [k]
    operations of the write. *)
Definition google_save_yomichan_killed (k : nat)
    (items : list (string * (string * string))) (output_file : disk) : disk :=
  crash_after k (write_json_ops (JArr (GoogleTermBank.entries items))) output_file.

Definition glosbe_save_yomichan_killed (k : nat)
    (items : list (string * (string * string * list string))) (filename : disk)
  : disk :=
  crash_after k (write_json_ops (JArr (GlosbeTermBank.entries items))) filename.

(** Two builder states with the same contents: the same translation
    (and examples) for every word, the same processed and the same
    problematic words; two mappings with the same contents. The order
    of the keys of a dictionary is no part of it. *)
Definition google_same_contents (b1 b2 : Google.builder) : Prop :=
  (∀ k, Google.translations b1 !! k = Google.translations b2 !! k) ∧
  (∀ k, k ∈ Google.processed_words b1 ↔ k ∈ Google.processed_words b2) ∧
  (∀ k, k ∈ Google.problematic_words b1 ↔ k ∈ Google.problematic_words b2).

Definition glosbe_same_contents (b1 b2 : Glosbe.builder) : Prop :=
  (∀ k, Glosbe.translations b1 !! k = Glosbe.translations b2 !! k) ∧
  (∀ k, Glosbe.examples b1 !! k = Glosbe.examples b2 !! k) ∧
  (∀ k, k ∈ Glosbe.processed_words b1 ↔ k ∈ Glosbe.processed_words b2) ∧
  (∀ k, k ∈ Glosbe.problematic_words b1 ↔ k ∈ Glosbe.problematic_words b2).

Definition same_mapping {V} (r1 r2 : gmap string V) : Prop :=
  ∀ k, r1 !! k = r2 !! k.

(** * Properties *)

(** ** The word list *)


Lemma omap_app_cons_inv {A B} (f : A → option B) (l : list A) l1 y l2 :
  omap f l = l1 ++ y :: l2 →
  ∃ before x after,
    l = before ++ x :: after ∧ f x = Some y ∧
    omap f before = l1 ∧ omap f after = l2.
Proof.
  revert l1. induction l as [|a l IH]; intros l1 Heq; simpl in Heq.
  - by destruct l1.
  - destruct (f a) as [b|] eqn:Hfa; simpl in Heq.
    + destruct l1 as [|b' l1]; simplify_eq/=.
      * exists [], a, l. by rewrite /= ?Hfa.
      * destruct (IH _ H0) as (before & x & after & -> & Hx & <- & <-).
        exists (a :: before), x, after. by rewrite /= Hfa.
    + destruct (IH _ Heq) as (before & x & after & -> & Hx & <- & <-).
      exists (a :: before), x, after. by rewrite /= Hfa.
Qed.

Lemma unique_pairs_elem seen pairs word flags :
  (word, flags) ∈ unique_pairs seen pairs ↔
  (word ∉ seen) ∧ ∃ l1 l2, pairs = l1 ++ (word, flags) :: l2 ∧ word ∉ l1.*1.
Proof.
  revert seen. induction pairs as [|[w f] rest IH]; intros seen; simpl.
  - split; [by intros ?%elem_of_nil|]. by intros (_ & [|??] & ? & ? & _).
  - destruct (decide (w ∈ seen)) as [Hin|Hnin].
    + rewrite IH. split.
      * intros (Hw & l1 & l2 & -> & Hl1). split; [done|].
        exists ((w, f) :: l1), l2. split; [done|]. set_solver.
      * intros (Hw & [|[w' f'] l1] & l2 & Heq & Hl1); simplify_eq/=; [done|].
        split; [done|]. exists l1, l2. set_solver.
    + rewrite elem_of_cons IH. split.
      * intros [?|(Hw & l1 & l2 & -> & Hl1)]; simplify_eq.
        { split; [done|]. exists [], rest. split; [done|set_solver]. }
        split; [set_solver|]. exists ((w, f) :: l1), l2. split; [done|]. set_solver.
      * intros (Hw & [|[w' f'] l1] & l2 & Heq & Hl1); simplify_eq/=; [by left|].
        right. split; [set_solver|]. exists l1, l2. set_solver.
Qed.

Lemma unique_pairs_NoDup seen pairs : NoDup (unique_pairs seen pairs).*1.
Proof.
  revert seen. induction pairs as [|[w f] rest IH]; intros seen; simpl.
  - constructor.
  - destruct (decide (w ∈ seen)); [done|]. simpl. constructor; [|done].
    intros ((w' & f') & ? & Hin)%list_elem_of_fmap; simplify_eq/=.
    apply unique_pairs_elem in Hin. set_solver.
Qed.

Lemma unique_pairs_sublist seen pairs : sublist (unique_pairs seen pairs) pairs.
Proof.
  revert seen. induction pairs as [|[w f] rest IH]; intros seen; simpl; [done|].
  destruct (decide (w ∈ seen)); by constructor.
Qed.

Lemma split_first_app sep a b :
  ¬ In sep (list_ascii_of_string a) →
  split_first sep (a +:+ String sep b) = Some (a, b).
Proof.
  induction a as [|c a IH]; simpl; intros Hnin.
  - by rewrite bool_decide_eq_true_2.
  - rewrite bool_decide_eq_false_2; [|naive_solver].
    rewrite IH; [done|naive_solver].
Qed.

Lemma rstrip_idemp s : rstrip (rstrip s) = rstrip s.
Proof.
  induction s as [|c s IH]; [done|]. simpl.
  destruct (rstrip s) as [|c' s'] eqn:Hs.
  - destruct (is_space c) eqn:Hc; [done|]. by rewrite /= Hc.
  - simpl in IH |- *. by rewrite IH.
Qed.

Lemma rstrip_head c s :
  is_space c = false → ∃ r, rstrip (String c s) = String c r.
Proof.
  intros Hc. simpl. destruct (rstrip s); [|by eauto]. rewrite Hc. by eauto.
Qed.

Lemma lstrip_head s :
  lstrip s = EmptyString ∨ ∃ c r, lstrip s = String c r ∧ is_space c = false.
Proof.
  induction s as [|c s IH]; [by left|]. simpl.
  destruct (is_space c) eqn:Hc; [done|]. right. by exists c, s.
Qed.

(** [strip] yields the empty string or a string that starts and ends
    with a character that is not white space; stripping again changes
    nothing. *)
Lemma strip_head s :
  strip s = EmptyString ∨ ∃ c r, strip s = String c r ∧ is_space c = false.
Proof.
  rewrite /strip. destruct (lstrip_head s) as [->|(c & r & -> & Hc)]; [by left|].
  right. destruct (rstrip_head c r Hc) as [r' ->]. by exists c, r'.
Qed.

Lemma strip_idemp s : strip (strip s) = strip s.
Proof.
  destruct (strip_head s) as [->|(c & r & Heq & Hc)]; [done|].
  rewrite {1}/strip Heq /= Hc -Heq /strip. apply rstrip_idemp.
Qed.

Lemma rstrip_chars x s : In x (list_ascii_of_string (rstrip s)) →
                         In x (list_ascii_of_string s).
Proof.
  induction s as [|c s IH]; [done|]. simpl.
  destruct (rstrip s) as [|c' s'] eqn:Hs.
  - destruct (is_space c); simpl; [done|]. intros [?|[]]. by left.
  - simpl in *. intros [?|?]; [by left|]. right. by apply IH.
Qed.

Lemma lstrip_chars x s : In x (list_ascii_of_string (lstrip s)) →
                         In x (list_ascii_of_string s).
Proof.
  induction s as [|c s IH]; [done|]. simpl.
  destruct (is_space c); [|done]. intros ?. right. by apply IH.
Qed.

Lemma strip_chars x s : In x (list_ascii_of_string (strip s)) →
                        In x (list_ascii_of_string s).
Proof. intros ?. by apply lstrip_chars, rstrip_chars. Qed.

Lemma split_first_Some sep s a b :
  split_first sep s = Some (a, b) →
  s = a +:+ String sep b ∧ ¬ In sep (list_ascii_of_string a).
Proof.
  revert a. induction s as [|c s IH]; intros a; [done|]. simpl.
  case_bool_decide as Hc.
  - intros [= <- <-]. subst. split; [done|]. by intros [].
  - destruct (split_first sep s) as [[a' b']|]; [|done].
    intros [= <- <-]. destruct (IH a' eq_refl) as [-> Hnin].
    split; [done|]. simpl. intros [?|?]; by auto.
Qed.

Lemma split_first_None sep s :
  split_first sep s = None → ¬ In sep (list_ascii_of_string s).
Proof.
  induction s as [|c s IH]; [by intros _ []|]. simpl.
  case_bool_decide as Hc; [done|].
  destruct (split_first sep s) as [[a' b']|]; [done|].
  intros _ [?|?]; [done|]. by apply IH.
Qed.

Lemma In_app_sep sep a b :
  In sep (list_ascii_of_string (a +:+ String sep b)).
Proof. induction a as [|c a IH]; simpl; auto. Qed.

(** The first loop reads a line as the format says. *)
Lemma parse_line_yields raw word flags :
  parse_line raw = Some (word, flags) ↔ line_yields raw word flags.
Proof.
  rewrite /parse_line /line_yields /contains. cbv zeta.
  pose proof (strip_idemp raw) as Hidemp.
  remember (strip raw) as line eqn:Hline. clear Hline.
  destruct (decide (line = EmptyString)) as [->|Hne].
  { split; [done|]. by intros [? _]. }
  rewrite bool_decide_eq_true_2 //.
  destruct (startswith comment_marker line) eqn:Hcomment; cbn [negb andb].
  { split; [done|]. by intros (_ & ? & _). }
  destruct (split_first sep line) as [[a b]|] eqn:Hsplit.
  - rewrite bool_decide_eq_true_2 //.
    apply split_first_Some in Hsplit as [Heq Hsep]. split.
    + intros [= <- <-]. do 2 (split; [done|]). left. by exists a, b.
    + intros (_ & _ & [(a' & b' & Heq' & Hsep' & -> & ->)|(Hnone & _)]).
      * pose proof (split_first_app sep a b Hsep) as H1.
        pose proof (split_first_app sep a' b' Hsep') as H2.
        rewrite -Heq in H1. rewrite -Heq' in H2. by simplify_eq.
      * destruct Hnone. rewrite Heq. apply In_app_sep.
  - rewrite bool_decide_eq_false_2; [|by intros [??]].
    apply split_first_None in Hsplit. rewrite Hidemp. split.
    + intros [= <- <-]. do 2 (split; [done|]). by right.
    + intros (_ & _ & [(a & b & Heq & _)|(_ & -> & ->)]); [|done].
      destruct Hsplit. rewrite Heq. apply In_app_sep.
Qed.

Lemma unique_pairs_split seen pairs s1 word flags s2 :
  unique_pairs seen pairs = s1 ++ (word, flags) :: s2 →
  ∃ p1 p2,
    pairs = p1 ++ (word, flags) :: p2 ∧
    (word ∉ seen) ∧ (word ∉ p1.*1) ∧
    s2 = unique_pairs ({[word]} ∪ list_to_set p1.*1 ∪ seen) p2.
Proof.
  revert seen s1. induction pairs as [|[k g] rest IH]; intros seen s1; simpl.
  { by destruct s1. }
  destruct (decide (k ∈ seen)) as [Hin|Hnin].
  - intros (p1 & p2 & -> & Hw & Hp1 & ->)%IH.
    exists ((k, g) :: p1), p2. split; [done|]. split; [done|].
    split; [set_solver|]. f_equal. set_solver.
  - destruct s1 as [|x s1]; intros Heq; simplify_eq/=.
    + exists [], rest. split; [done|]. split; [done|].
      split; [set_solver|]. f_equal. set_solver.
    + apply IH in H0 as (p1 & p2 & -> & Hw & Hp1 & ->).
      exists ((k, g) :: p1), p2. split; [done|]. split; [set_solver|].
      split; [set_solver|]. f_equal. set_solver.
Qed.

(** C10: [load_word_list] returns at most one pair per key; the pairs
    are what the first line standing for each key yields, read as the
    format says (plain words included), and they come in the order of
    those first lines; a line is cut at its first separator only, the
    flags being all the (stripped) text after it, further separators
    included. *)
Theorem load_word_list_keeps_first_occurrence (lines : list string) :
  ∃ pairs,
    load_word_list (Some lines) = Returned pairs ∧
    NoDup pairs.*1 ∧
    (∀ word flags, (word, flags) ∈ pairs ↔ first_yield lines word flags) ∧
    (∀ s1 w1 f1 s2 w2 f2 s3,
       pairs = s1 ++ (w1, f1) :: s2 ++ (w2, f2) :: s3 →
       ∃ before l1 between l2 after,
         lines = before ++ l1 :: between ++ l2 :: after ∧
         line_yields l1 w1 f1 ∧ line_yields l2 w2 f2 ∧
         (∀ l f, l ∈ before → ¬ line_yields l w1 f) ∧
         (∀ l f, l ∈ before ++ l1 :: between → ¬ line_yields l w2 f)) ∧
    (∀ raw a b,
       strip raw = a +:+ String sep b →
       ¬ In sep (list_ascii_of_string a) →
       startswith comment_marker (strip raw) = false →
       load_word_list (Some [raw]) = Returned [(strip a, strip b)]).
Proof.
  eexists. split; [reflexivity|]. split; [apply unique_pairs_NoDup|].
  assert (∀ (ls : list string) w,
            w ∈ (omap parse_line ls).*1 ↔ ∃ l f, l ∈ ls ∧ line_yields l w f)
    as Hkeys.
  { intros ls w. rewrite list_elem_of_fmap. split.
    - intros ([w' f] & -> & (l & Hl & Hp)%list_elem_of_omap).
      exists l, f. split; [done|]. by apply parse_line_yields.
    - intros (l & f & Hl & Hp%parse_line_yields).
      exists (w, f). split; [done|]. apply list_elem_of_omap. by exists l. }
  split; [|split].
  - intros word flags. rewrite unique_pairs_elem. unfold first_yield.
    split.
    + intros (_ & l1 & l2 & Heq & Hl1).
      apply omap_app_cons_inv in Heq as (before & x & after & -> & Hx & <- & <-).
      exists before, x, after. split; [done|].
      split; [by apply parse_line_yields|].
      intros l f Hl Hp. apply Hl1, (Hkeys before word). by exists l, f.
    + intros (before & line & after & -> & Hline%parse_line_yields & Hfirst).
      split; [set_solver|].
      exists (omap parse_line before), (omap parse_line after). split.
      * by rewrite /word_flag_pairs omap_app /= Hline.
      * intros (l & f & Hl & Hp)%(Hkeys before word). by eapply Hfirst.
  - intros s1 w1 f1 s2 w2 f2 s3
           (p1 & p2 & Heq & _ & Hp1 & Hrest)%unique_pairs_split.
    symmetry in Hrest.
    apply unique_pairs_split in Hrest as (q1 & q2 & -> & Hw2 & Hq1 & _).
    apply omap_app_cons_inv in Heq
      as (before & l1 & rest & -> & Hl1 & <- & Hrest).
    apply omap_app_cons_inv in Hrest
      as (between & l2 & after & -> & Hl2 & <- & _).
    exists before, l1, between, l2, after. split; [done|].
    split; [by apply parse_line_yields|]. split; [by apply parse_line_yields|].
    split.
    + intros l f Hl Hp. apply Hp1, (Hkeys before w1). by exists l, f.
    + intros l f [Hl|[->|Hl]%elem_of_cons]%elem_of_app Hp.
      * apply Hw2. apply elem_of_union_l, elem_of_union_r, elem_of_list_to_set.
        apply (Hkeys before w2). by exists l, f.
      * apply parse_line_yields in Hp. rewrite Hp in Hl1. simplify_eq.
        set_solver.
      * apply Hq1, (Hkeys between w2). by exists l, f.
  - intros raw a b Hline Hsep Hcomment.
    assert (parse_line raw = Some (strip a, strip b)) as Hparse.
    { apply parse_line_yields. rewrite /line_yields. cbv zeta.
      split; [rewrite Hline; by destruct a|]. split; [done|].
      left. by exists a, b. }
    by rewrite /load_word_list /word_flag_pairs /= Hparse.
Qed.

Lemma load_word_list_keeps_first_occurrence_witness :
  ∃ pairs,
    load_word_list
      (Some ["casa|n"; "#casa|x"; "agua|n|m"; " casa |z"; "xyz123"; "xyz123|a"])
    = Returned pairs ∧
    pairs = [("casa", "n"); ("agua", "n|m"); ("xyz123", "")] ∧
    ("xyz123", "") ∈ pairs ∧
    load_word_list (Some ["agua|n|m"]) = Returned [("agua", "n|m")].
Proof.
  destruct (load_word_list_keeps_first_occurrence
              ["casa|n"; "#casa|x"; "agua|n|m"; " casa |z"; "xyz123"; "xyz123|a"])
    as (pairs & Hload & _ & Hmem & _ & Hsplit).
  exists pairs. split; [exact Hload|].
  split; [by injection Hload as <-|]. split.
  - apply Hmem.
    exists ["casa|n"; "#casa|x"; "agua|n|m"; " casa |z"], "xyz123", ["xyz123|a"].
    split; [reflexivity|]. split.
    + split; [discriminate|]. split; [reflexivity|]. right.
      split; [|split; reflexivity]. vm_compute. intuition congruence.
    + intros l f Hl Hyields%parse_line_yields.
      repeat (apply elem_of_cons in Hl as [->|Hl]; [vm_compute in Hyields; congruence|]).
      by apply elem_of_nil in Hl.
  - apply (Hsplit "agua|n|m" "agua" "n|m"); [reflexivity| |reflexivity].
    vm_compute. intuition congruence.
Defined.

(** ** [json.dump] followed by [json.load] *)

Lemma json_nested_ind (P : json → Prop) :
  (∀ n, P (JNum n)) →
  (∀ s, P (JStr s)) →
  (∀ items, Forall P items → P (JArr items)) →
  (∀ fields, Forall (λ kv, P kv.2) fields → P (JObj fields)) →
  ∀ j, P j.
Proof.
  intros Hnum Hstr Harr Hobj. fix IH 1. intros [n|s|items|fields].
  - apply Hnum.
  - apply Hstr.
  - apply Harr. induction items as [|x items IHitems]; constructor; [apply IH|done].
  - apply Hobj. induction fields as [|[k v] fields IHfields]; constructor;
      [apply IH|done].
Qed.

Lemma dumps_arr items : dumps (JArr items) = TLBracket :: dump_items items.
Proof. reflexivity. Qed.

Lemma dumps_obj fields : dumps (JObj fields) = TLBrace :: dump_fields fields.
Proof. reflexivity. Qed.


Lemma dumps_head j : ∃ t ts, dumps j = t :: ts ∧ opens_value t.
Proof.
  destruct j as [n|s|items|fields].
  - by exists (TNumber n), [].
  - by exists (TString s), [].
  - by exists TLBracket, (dump_items items).
  - by exists TLBrace, (dump_fields fields).
Qed.


Lemma parse_items_dump_items x items rest fuel :
  Forall (λ y, ∀ fuel rest, json_size y ≤ fuel →
                 parse_value fuel (dumps y ++ rest) = Some (y, rest)) (x :: items) →
  items_size (x :: items) ≤ fuel →
  parse_items fuel (dump_items (x :: items) ++ rest) = Some (x :: items, rest).
Proof.
  revert x fuel. induction items as [|y items IH]; intros x fuel Hall Hfuel.
  - destruct fuel as [|fuel]; simpl in Hfuel; [lia|].
    apply Forall_cons_1 in Hall as [Hx _].
    cbn [dump_items parse_items]. rewrite -app_assoc Hx //. lia.
  - destruct fuel as [|fuel]; simpl in Hfuel; [lia|].
    apply Forall_cons_1 in Hall as [Hx Hall].
    change (dump_items (x :: y :: items))
      with (dumps x ++ TComma :: dump_items (y :: items)).
    cbn [parse_items]. rewrite -app_assoc Hx; [|lia].
    cbn [app]. rewrite IH //. simpl. lia.
Qed.

Lemma parse_fields_dump_fields k v fields rest fuel :
  Forall (λ kv, ∀ fuel rest, json_size kv.2 ≤ fuel →
                  parse_value fuel (dumps kv.2 ++ rest) = Some (kv.2, rest))
         ((k, v) :: fields) →
  fields_size ((k, v) :: fields) ≤ fuel →
  parse_fields fuel (dump_fields ((k, v) :: fields) ++ rest)
  = Some ((k, v) :: fields, rest).
Proof.
  revert k v fuel. induction fields as [|[k' v'] fields IH]; intros k v fuel Hall Hfuel.
  - destruct fuel as [|fuel]; simpl in Hfuel; [lia|].
    apply Forall_cons_1 in Hall as [Hv _]. simpl in Hv.
    cbn [dump_fields parse_fields app]. rewrite -app_assoc Hv //. lia.
  - destruct fuel as [|fuel]; simpl in Hfuel; [lia|].
    apply Forall_cons_1 in Hall as [Hv Hall]. simpl in Hv.
    change (dump_fields ((k, v) :: (k', v') :: fields))
      with (TString k :: TColon :: dumps v ++ TComma :: dump_fields ((k', v') :: fields)).
    cbn [parse_fields app]. rewrite -app_assoc Hv; [|lia].
    cbn [app]. rewrite IH //. simpl. lia.
Qed.

Lemma parse_value_dumps j : ∀ fuel rest,
  json_size j ≤ fuel → parse_value fuel (dumps j ++ rest) = Some (j, rest).
Proof.
  induction j as [n|s|items IH|fields IH] using json_nested_ind;
    intros [|fuel] rest Hfuel; simpl in Hfuel; try lia; try done.
  - rewrite dumps_arr. destruct items as [|x items]; [done|].
    destruct (dumps_head x) as (t & ts & Hx & Ht).
    assert (parse_items fuel (dump_items (x :: items) ++ rest)
            = Some (x :: items, rest)) as Hitems.
    { apply parse_items_dump_items; [done|]. unfold items_size. simpl in *. lia. }
    revert Hitems. cbn [dump_items]. rewrite Hx. cbn [app parse_value].
    destruct t; try done; by intros ->.
  - rewrite dumps_obj. destruct fields as [|[k v] fields]; [done|].
    assert (parse_fields fuel (dump_fields ((k, v) :: fields) ++ rest)
            = Some ((k, v) :: fields, rest)) as Hfields.
    { apply parse_fields_dump_fields; [done|]. unfold fields_size. simpl in *. lia. }
    revert Hfields. cbn [dump_fields app parse_value]. by intros ->.
Qed.

Lemma json_size_dumps j : json_size j ≤ 2 * length (dumps j).
Proof.
  induction j as [n|s|items IH|fields IH] using json_nested_ind; simpl; try lia.
  - apply le_n_S. fold (items_size items). fold (dump_items items).
    cut (items_size items + 1 ≤ 2 * length (dump_items items)); [lia|].
    induction IH as [|x items Hx _ IHitems]; simpl; [lia|].
    rewrite length_app. destruct items; simpl in *; lia.
  - apply le_n_S. fold (fields_size fields). fold (dump_fields fields).
    cut (fields_size fields + 1 ≤ 2 * length (dump_fields fields)); [lia|].
    induction IH as [|[k v] fields Hx _ IHfields]; simpl in *; [lia|].
    rewrite length_app. destruct fields; simpl in *; lia.
Qed.

Lemma loads_dumps j : loads (dumps j) = Some j.
Proof.
  unfold loads.
  rewrite -{2}(app_nil_r (dumps j)) parse_value_dumps //.
  apply json_size_dumps.
Qed.

(** The parser accepts nothing but what [dumps] writes. *)
Ltac parsed_sequence IH :=
  match goal with
  | |- match ?p with _ => _ end = _ → _ =>
      let Hp := fresh "Hp" in
      destruct p as [[? ?]|] eqn:Hp; [|done];
      intros [= <- <-]; apply IH in Hp as [_ ->]; reflexivity
  end.

Lemma parse_sound fuel :
  (∀ ts j rest, parse_value fuel ts = Some (j, rest) → ts = dumps j ++ rest) ∧
  (∀ ts l rest, parse_items fuel ts = Some (l, rest) →
                l ≠ [] ∧ ts = dump_items l ++ rest) ∧
  (∀ ts l rest, parse_fields fuel ts = Some (l, rest) →
                l ≠ [] ∧ ts = dump_fields l ++ rest).
Proof.
  induction fuel as [|fuel (IHv & IHi & IHf)]; [done|].
  split; [|split].
  - intros ts j rest.
    destruct ts as [|t ts]; simpl; [done|].
    destruct t; simpl; try done; try by intros [= <- <-].
    + destruct ts as [|t' ts']; simpl; [parsed_sequence IHf|].
      destruct t'; simpl; (by intros [= <- <-]) || parsed_sequence IHf.
    + destruct ts as [|t' ts']; simpl; [parsed_sequence IHi|].
      destruct t'; simpl; (by intros [= <- <-]) || parsed_sequence IHi.
  - intros ts l rest. simpl.
    destruct (parse_value fuel ts) as [[x r]|] eqn:Hx; [|done].
    apply IHv in Hx as ->.
    destruct r as [|t r]; [done|]. destruct t; try done.
    + intros [= <- <-]. split; [done|]. by rewrite /= -app_assoc.
    + destruct (parse_items fuel r) as [[l' r']|] eqn:Hl; [|done].
      intros [= <- <-]. apply IHi in Hl as [Hne ->]. split; [done|].
      destruct l' as [|y l']; [done|].
      change (dump_items (x :: y :: l'))
        with (dumps x ++ TComma :: dump_items (y :: l')).
      by rewrite -app_assoc.
  - intros ts l rest. simpl.
    destruct ts as [|t ts]; [done|]. destruct t; try done.
    destruct ts as [|t ts]; [done|]. destruct t; try done.
    destruct (parse_value fuel ts) as [[v r]|] eqn:Hv; [|done].
    apply IHv in Hv as ->.
    destruct r as [|t r]; [done|]. destruct t; try done.
    + intros [= <- <-]. split; [done|]. by rewrite /= -app_assoc.
    + destruct (parse_fields fuel r) as [[l' r']|] eqn:Hl; [|done].
      intros [= <- <-]. apply IHf in Hl as [Hne ->]. split; [done|].
      destruct l' as [|[k' v'] l']; [done|].
      change (dump_fields ((s, v) :: (k', v') :: l'))
        with (TString s :: TColon :: dumps v ++ TComma :: dump_fields ((k', v') :: l')).
      cbn [app]. f_equal. f_equal. by rewrite -app_assoc.
Qed.

(** No document is a proper prefix of another one: a proper prefix of
    a dump does not load. *)
Lemma loads_proper_prefix j k :
  k < length (dumps j) → loads (take k (dumps j)) = None.
Proof.
  intros Hk. destruct (loads (take k (dumps j))) as [j'|] eqn:Hl; [|done].
  exfalso. unfold loads in Hl.
  destruct (parse_value _ _) as [[j'' [|??]]|] eqn:Hp; simplify_eq.
  apply parse_sound in Hp. rewrite app_nil_r in Hp.
  pose proof (take_drop k (dumps j)) as Hsplit. rewrite Hp in Hsplit.
  pose proof (parse_value_dumps j (json_size j + json_size j') [] (Nat.le_add_r _ _)) as H1.
  pose proof (parse_value_dumps j' (json_size j + json_size j') (drop k (dumps j))
                (Nat.le_add_l _ _)) as H2.
  rewrite app_nil_r -Hsplit H2 in H1.
  assert (drop k (dumps j) = []) as Hd by congruence.
  apply (f_equal length) in Hd. rewrite length_drop /= in Hd. lia.
Qed.

(** ** The progress store *)

Lemma py_dict_snoc {V} (l : list (string * V)) k v :
  py_dict (l ++ [(k, v)]) = <[k := v]> (py_dict l).
Proof. by rewrite /py_dict foldl_snoc. Qed.

Lemma py_dict_lookup_NoDup {V} (l : list (string * V)) k v :
  NoDup l.*1 → py_dict l !! k = Some v ↔ (k, v) ∈ l.
Proof.
  induction l as [|[k' v'] l IH] using rev_ind; intros Hnd.
  - rewrite /py_dict /= lookup_empty. set_solver.
  - rewrite py_dict_snoc. rewrite fmap_app in Hnd.
    apply NoDup_app in Hnd as (Hnd & Hfresh & _).
    rewrite elem_of_app list_elem_of_singleton.
    destruct (decide (k = k')) as [->|Hne].
    + rewrite lookup_insert_eq. split; [intros [= ->]; by right|].
      intros [Hin|[= ->]]; [|done]. exfalso. eapply Hfresh; [|by left].
      apply list_elem_of_fmap. by exists (k', v).
    + rewrite lookup_insert_ne // IH //. naive_solver.
Qed.

Lemma py_dict_map_to_list {V} (m : gmap string V) : py_dict (map_to_list m) = m.
Proof.
  apply map_eq. intros k. apply option_eq. intros v.
  rewrite py_dict_lookup_NoDup; [|apply NoDup_fst_map_to_list].
  apply elem_of_map_to_list.
Qed.

Lemma as_string_list_json l : as_string_list (json_of_string_list l) = Some l.
Proof. by apply mapM_fmap_Some. Qed.

Lemma as_string_dict_json m : as_string_dict (json_of_string_dict m) = Some m.
Proof.
  rewrite /as_string_dict /json_of_string_dict mapM_fmap_Some.
  - by rewrite /= py_dict_map_to_list.
  - by intros [k v].
Qed.

Lemma as_string_list_dict_json m :
  as_string_list_dict (json_of_string_list_dict m) = Some m.
Proof.
  rewrite /as_string_list_dict /json_of_string_list_dict mapM_fmap_Some.
  - by rewrite /= py_dict_map_to_list.
  - intros [k v]. change (pair k <$> as_string_list (json_of_string_list v) = Some (k, v)).
    by rewrite as_string_list_json.
Qed.

Lemma run_ops_writes acc chunks :
  run_ops (WriteChunk <$> chunks) (Some acc) = Some (acc ++ chunks).
Proof.
  revert acc. induction chunks as [|t chunks IH]; intros acc; simpl.
  - by rewrite app_nil_r.
  - by rewrite IH -app_assoc.
Qed.

(** A completed write replaces the file by the whole document. *)
Lemma run_ops_write_json data d : run_ops (write_json_ops data) d = Some (dumps data).
Proof.
  rewrite /write_json_ops /run_ops /= foldl_app.
  fold (run_ops (WriteChunk <$> dumps data) (Some [])).
  by rewrite run_ops_writes.
Qed.

(** A write killed after the [open] and [k] chunks leaves these [k]
    chunks and nothing of the previous content. *)
Lemma crash_after_open data d k :
  k ≤ length (dumps data) →
  crash_after (S k) (write_json_ops data) d = Some (take k (dumps data)).
Proof.
  intros Hk. rewrite /crash_after /write_json_ops /=.
  rewrite take_app_le; [|by rewrite length_fmap].
  rewrite -fmap_take. fold (run_ops (WriteChunk <$> take k (dumps data)) (Some [])).
  by rewrite run_ops_writes.
Qed.

#[local] Arguments dumps : simpl never.
#[local] Arguments as_string_dict : simpl never.
#[local] Arguments as_string_list_dict : simpl never.
#[local] Arguments as_string_list : simpl never.
#[local] Arguments json_of_string_dict : simpl never.
#[local] Arguments json_of_string_list_dict : simpl never.
#[local] Arguments json_of_string_list : simpl never.

Ltac dict_lookups :=
  rewrite /json_get /py_dict /=;
  repeat (rewrite lookup_insert_eq || (rewrite lookup_insert_ne; [|done])
          || rewrite lookup_empty);
  rewrite /= ?as_string_dict_json ?as_string_list_dict_json ?as_string_list_json /=.

(** C7: without a progress file [load_progress] leaves the fresh
    builder empty; a persisted record in which any of the fields is
    missing loads, each missing field taking its empty default. Both
    builders. *)
Theorem load_progress_defaults (p : persisted) :
  Google.load_progress (Google.World Google.init None [])
    = Returned (Google.World Google.init None []) ∧
  Glosbe.load_progress (Glosbe.World Glosbe.init None [])
    = Returned (Glosbe.World Glosbe.init None []) ∧
  (∀ b tr,
     Google.load_progress (Google.World b (Some (dumps (persisted_json p))) tr)
     = Returned (Google.World
                   (Google.Builder
                      (default ∅ (p_translations p))
                      (list_to_set (default [] (p_processed_words p)))
                      (list_to_set (default [] (p_problematic_words p))))
                   (Some (dumps (persisted_json p))) tr)) ∧
  (∀ b tr,
     Glosbe.load_progress (Glosbe.World b (Some (dumps (persisted_json p))) tr)
     = Returned (Glosbe.World
                   (Glosbe.Builder
                      (default ∅ (p_translations p))
                      (default ∅ (p_examples p))
                      (list_to_set (default [] (p_processed_words p)))
                      (list_to_set (default [] (p_problematic_words p))))
                   (Some (dumps (persisted_json p))) tr)).
Proof.
  split; [done|]. split; [done|].
  split; intros b tr.
  - rewrite /Google.load_progress. cbn [Google.progress_json Google.trace].
    rewrite loads_dumps.
    destruct p as [[t|] [e|] [pr|] [pb|] [n|]]; rewrite /persisted_json /=;
      by dict_lookups.
  - rewrite /Glosbe.load_progress. cbn [Glosbe.progress_json Glosbe.trace].
    rewrite loads_dumps.
    destruct p as [[t|] [e|] [pr|] [pb|] [n|]]; rewrite /persisted_json /=;
      by dict_lookups.
Qed.

Lemma google_load_after_write b res d :
  Google.load_progress
    (Google.World Google.init
       (run_ops (write_json_ops (Google.progress_data b res)) d) [])
  = Returned (Google.World b (Some (dumps (Google.progress_data b res))) []).
Proof.
  rewrite run_ops_write_json /Google.load_progress.
  cbn [Google.progress_json Google.trace]. rewrite loads_dumps.
  rewrite /Google.progress_data. dict_lookups.
  rewrite !list_to_set_elements_L. by destruct b.
Qed.

Lemma glosbe_load_after_write b res d :
  Glosbe.load_progress
    (Glosbe.World Glosbe.init
       (run_ops (write_json_ops (Glosbe.progress_data b res)) d) [])
  = Returned (Glosbe.World b (Some (dumps (Glosbe.progress_data b res))) []).
Proof.
  rewrite run_ops_write_json /Glosbe.load_progress.
  cbn [Glosbe.progress_json Glosbe.trace]. rewrite loads_dumps.
  rewrite /Glosbe.progress_data. dict_lookups.
  rewrite !list_to_set_elements_L. by destruct b.
Qed.

(** C2, amended: [save_progress] rewrites [progress.json] in place.
    A save that runs to completion leaves a file from which
    [load_progress] restores exactly the saved builder state; a save
    killed before it opens the file leaves the file as it was; a save
    killed after the [open] and before the last chunk is written leaves
    a proper prefix of the new document, which [load_progress] rejects
    with [JSONDecodeError], whatever the file held before. Both
    builders. *)
Theorem save_progress_rewrites_in_place :
  (∀ res w,
     Google.load_progress
       (Google.World Google.init (Google.progress_json (Google.save_progress res w)) [])
     = Returned (Google.World (Google.self w)
                   (Google.progress_json (Google.save_progress res w)) [])) ∧
  (∀ res w,
     Google.progress_json (Google.save_progress_killed 0 res w)
     = Google.progress_json w) ∧
  (∀ res w k,
     0 < k → k ≤ length (dumps (Google.progress_data (Google.self w) res)) →
     Google.load_progress
       (Google.World Google.init
          (Google.progress_json (Google.save_progress_killed k res w)) [])
     = Raises JSONDecodeError) ∧
  (∀ res w,
     Glosbe.load_progress
       (Glosbe.World Glosbe.init (Glosbe.progress_json (Glosbe.save_progress res w)) [])
     = Returned (Glosbe.World (Glosbe.self w)
                   (Glosbe.progress_json (Glosbe.save_progress res w)) [])) ∧
  (∀ res w,
     Glosbe.progress_json (Glosbe.save_progress_killed 0 res w)
     = Glosbe.progress_json w) ∧
  (∀ res w k,
     0 < k → k ≤ length (dumps (Glosbe.progress_data (Glosbe.self w) res)) →
     Glosbe.load_progress
       (Glosbe.World Glosbe.init
          (Glosbe.progress_json (Glosbe.save_progress_killed k res w)) [])
     = Raises JSONDecodeError).
Proof.
  repeat split.
  - intros res w. cbn [Google.save_progress Google.progress_json].
    by rewrite google_load_after_write run_ops_write_json.
  - intros res w k Hk Hlen. destruct k as [|k]; [lia|].
    cbn [Google.save_progress_killed Google.progress_json].
    rewrite crash_after_open; [|lia].
    rewrite /Google.load_progress. cbn [Google.progress_json].
    by rewrite loads_proper_prefix.
  - intros res w. cbn [Glosbe.save_progress Glosbe.progress_json].
    by rewrite glosbe_load_after_write run_ops_write_json.
  - intros res w k Hk Hlen. destruct k as [|k]; [lia|].
    cbn [Glosbe.save_progress_killed Glosbe.progress_json].
    rewrite crash_after_open; [|lia].
    rewrite /Glosbe.load_progress. cbn [Glosbe.progress_json].
    by rewrite loads_proper_prefix.
Qed.

Lemma save_progress_rewrites_in_place_witness :
  Google.load_progress
    (Google.World Google.init
       (Google.progress_json
          (Google.save_progress_killed 3 ∅
             (Google.World checkpoint_two
                (Google.progress_json
                   (Google.save_progress ∅ (Google.World checkpoint_one None [])))
                []))) [])
  = Raises JSONDecodeError.
Proof.
  destruct save_progress_rewrites_in_place as (_ & _ & Hkilled & _).
  apply Hkilled; [lia|]. vm_compute. lia.
Defined.

(** C2 as stated fails: the first checkpoint is on disk and loads; the
    second save is killed right after it has opened the file; the file
    is then empty and the next run cannot load it. *)
Lemma save_progress_not_atomic :
  let saved := Google.save_progress ∅ (Google.World checkpoint_one None []) in
  let killed :=
    Google.save_progress_killed 1 ∅
      (Google.World checkpoint_two (Google.progress_json saved) []) in
  Google.load_progress (Google.World Google.init (Google.progress_json saved) [])
    = Returned (Google.World checkpoint_one (Google.progress_json saved) []) ∧
  Google.progress_json killed = Some [] ∧
  Google.load_progress (Google.World Google.init (Google.progress_json killed) [])
    = Raises JSONDecodeError ∧
  Google.load_progress (Google.World Google.init (Google.progress_json killed) [])
    ≠ Returned (Google.World checkpoint_one (Google.progress_json killed) []).
Proof.
  cbv zeta. split; [|split; [|split]].
  - cbn [Google.save_progress Google.progress_json Google.self].
    by rewrite google_load_after_write run_ops_write_json.
  - reflexivity.
  - reflexivity.
  - discriminate.
Qed.

(** ** The batch loop of the Google builder *)

Lemma as_completed_keys finish (todo : list (string * string)) :
  list_to_set (C := gset string) (as_completed finish todo).*1 = list_to_set todo.*1.
Proof. by rewrite /as_completed merge_sort_Permutation. Qed.

#[local] Arguments run_ops : simpl never.
#[local] Arguments write_json_ops : simpl never.
#[local] Arguments size : simpl never.

Section google_batches.
Variable get_translation : string → reply (option string).

Lemma google_process_word_valid word flags :
  Google.process_word get_translation word flags
  = Reply (valid_translation get_translation word).
Proof.
  rewrite /Google.process_word /valid_translation.
  destruct (get_translation word) as [[t|]|e]; [|done..]. by case_decide.
Qed.

Lemma valid_translation_nonempty word t :
  valid_translation get_translation word = Some t → t ≠ "".
Proof.
  rewrite /valid_translation.
  destruct (get_translation word) as [[t'|]|e]; [|done..].
  case_decide; [done|]. by intros [= <-].
Qed.

Lemma google_recorded_refl b : google_recorded get_translation b b ∅.
Proof. split; [set_solver|]. intros k. split; [set_solver|done]. Qed.

Lemma google_recorded_trans b0 b1 b2 K1 K2 :
  google_recorded get_translation b0 b1 K1 →
  google_recorded get_translation b1 b2 K2 →
  google_recorded get_translation b0 b2 (K1 ∪ K2).
Proof.
  intros [Hp1 H1] [Hp2 H2]. split; [rewrite Hp2 Hp1; set_solver|].
  intros k. destruct (H1 k) as [Hin1 Hout1], (H2 k) as [Hin2 Hout2].
  destruct (decide (k ∈ K2)) as [HK2|HK2].
  - specialize (Hin2 HK2). split; [|set_solver]. intros _.
    destruct (valid_translation get_translation k) as [t|]; [done|].
    destruct Hin2 as [-> ?]. split; [|done].
    destruct (decide (k ∈ K1)) as [HK1|HK1]; [by apply Hin1|by apply Hout1].
  - specialize (Hout2 HK2) as [-> Hpb]. split.
    + intros HK. assert (k ∈ K1) as HK1 by set_solver. specialize (Hin1 HK1).
      destruct (valid_translation get_translation k); naive_solver.
    + intros HK. assert (k ∉ K1) as HK1 by set_solver.
      specialize (Hout1 HK1). naive_solver.
Qed.

Lemma google_record_recorded b res word flags :
  google_recorded get_translation b
    (Google.record get_translation (b, res) (word, flags)).1 {[word]}.
Proof.
  rewrite /Google.record google_process_word_valid.
  destruct (valid_translation get_translation word) as [t|] eqn:Hvt.
  - apply valid_translation_nonempty in Hvt as Hne.
    rewrite decide_True //=. split; [done|]. intros k. split.
    + intros ->%elem_of_singleton. rewrite Hvt lookup_insert_eq. set_solver.
    + intros Hk%not_elem_of_singleton. rewrite lookup_insert_ne //. set_solver.
  - simpl. split; [done|]. intros k. split.
    + intros ->%elem_of_singleton. rewrite Hvt. set_solver.
    + intros Hk%not_elem_of_singleton. set_solver.
Qed.

Lemma google_foldl_record_recorded items b res :
  google_recorded get_translation b
    (foldl (Google.record get_translation) (b, res) items).1
    (list_to_set items.*1).
Proof.
  revert b res. induction items as [|[word flags] items IH]; intros b res.
  - apply google_recorded_refl.
  - cbn [foldl fmap list_fmap list_to_set fst].
    destruct (Google.record get_translation (b, res) (word, flags))
      as [b1 res1] eqn:Hrec.
    eapply google_recorded_trans; [|apply IH].
    by rewrite -(f_equal fst Hrec : _ = b1); apply google_record_recorded.
Qed.

Variable finish : string → nat.

(** One turn of the batch loop: the unprocessed items of the batch are
    submitted, their outcomes recorded, the snapshot written. *)
Lemma google_process_batch_spec pairs bs w res i :
  let todo :=
    filter (λ p, p.1 ∉ Google.processed_words (Google.self w))
           (take bs (drop i pairs)) in
  ∃ b' res',
    Google.process_batch get_translation finish pairs bs (w, res) i
    = (Google.World b' (Some (dumps (Google.progress_data b' res')))
         (Google.trace w
          ++ ((λ p, Google.Submit (i `div` bs + 1) p.1 p.2) <$> todo)
          ++ Google.SaveProgress b' (size res')
             :: (if decide (i + bs < length pairs) then [Google.Sleep] else [])),
       res') ∧
    google_recorded get_translation (Google.self w) b' (list_to_set todo.*1).
Proof.
  intros todo. rewrite /Google.process_batch. fold todo.
  destruct (decide (todo ≠ [])) as [Hne|Heq].
  - destruct (foldl _ _ _) as [b' res'] eqn:Hfold. exists b', res'. split.
    + rewrite /Google.save_progress /= run_ops_write_json.
      case_decide; by rewrite /= -?app_assoc.
    + rewrite -(as_completed_keys finish) -(f_equal fst Hfold : _ = b').
      apply google_foldl_record_recorded.
  - apply dec_stable in Heq. exists (Google.self w), res. split.
    + rewrite /Google.save_progress /= run_ops_write_json Heq /=.
      case_decide; by rewrite /= -?app_assoc.
    + rewrite Heq. apply google_recorded_refl.
Qed.

Lemma google_submitted_app tr1 tr2 :
  google_submitted (tr1 ++ tr2) = google_submitted tr1 ++ google_submitted tr2.
Proof. apply omap_app. Qed.

Lemma google_checkpoints_app tr1 tr2 :
  google_checkpoints (tr1 ++ tr2) = google_checkpoints tr1 ++ google_checkpoints tr2.
Proof. apply omap_app. Qed.

Lemma google_submitted_block num (todo : list (string * string)) b n tail :
  Forall (λ e, e = Google.Sleep) tail →
  google_submitted (((λ p, Google.Submit num p.1 p.2) <$> todo)
                    ++ Google.SaveProgress b n :: tail) = todo.*1.
Proof.
  intros Htail. rewrite google_submitted_app.
  assert (google_submitted (Google.SaveProgress b n :: tail) = []) as ->.
  { change (google_submitted tail = []).
    induction Htail as [|e tail -> _ IH]; [done|]. by rewrite /= -IH. }
  rewrite app_nil_r. induction todo as [|p todo IH]; [done|].
  rewrite fmap_cons. change (p.1 :: google_submitted
    ((λ p, Google.Submit num p.1 p.2) <$> todo) = p.1 :: todo.*1).
  by rewrite IH.
Qed.

Lemma google_checkpoints_block num (todo : list (string * string)) b n tail :
  Forall (λ e, e = Google.Sleep) tail →
  google_checkpoints (((λ p, Google.Submit num p.1 p.2) <$> todo)
                      ++ Google.SaveProgress b n :: tail) = [b].
Proof.
  intros Htail. rewrite google_checkpoints_app.
  assert (google_checkpoints (Google.SaveProgress b n :: tail) = [b]) as ->.
  { change (b :: google_checkpoints tail = [b]). f_equal.
    induction Htail as [|e tail -> _ IH]; [done|]. by rewrite /= -IH. }
  assert (google_checkpoints ((λ p, Google.Submit num p.1 p.2) <$> todo) = [])
    as ->; [|done].
  induction todo as [|p todo IH]; [done|]. by rewrite fmap_cons -IH.
Qed.

Lemma sleep_tail (c : Prop) `{!Decision c} :
  Forall (λ e, e = Google.Sleep) (if decide c then [Google.Sleep] else []).
Proof. case_decide; repeat constructor. Qed.

(** Any number of turns of the batch loop, from any state. *)
Lemma google_foldl_batches pairs bs starts w res :
  ∃ new,
    let r := foldl (Google.process_batch get_translation finish pairs bs)
                   (w, res) starts in
    Google.trace r.1 = Google.trace w ++ new ∧
    google_recorded get_translation (Google.self w) (Google.self r.1)
                    (list_to_set (google_submitted new)) ∧
    (∀ k, k ∈ google_submitted new →
          (k ∉ Google.processed_words (Google.self w)) ∧ k ∈ pairs.*1) ∧
    (NoDup pairs.*1 → NoDup (google_submitted new)) ∧
    Forall (λ b, ∃ K, google_recorded get_translation (Google.self w) b K ∧
                      K ## Google.processed_words (Google.self w))
           (google_checkpoints new) ∧
    length (google_checkpoints new) = length starts ∧
    (starts ≠ [] →
       Google.progress_json r.1
       = Some (dumps (Google.progress_data (Google.self r.1) r.2)) ∧
       last (google_checkpoints new) = Some (Google.self r.1)) ∧
    (∀ i p, i ∈ starts → p ∈ take bs (drop i pairs) →
            p.1 ∈ Google.processed_words (Google.self r.1)).
Proof.
  induction starts as [|i starts IH] using rev_ind.
  - exists []. simpl. rewrite app_nil_r.
    split; [done|]. split; [apply google_recorded_refl|].
    split; [set_solver|]. split; [constructor|]. split; [constructor|].
    split; [done|]. split; [done|]. set_solver.
  - destruct IH as (new & IH). rewrite foldl_snoc.
    destruct (foldl _ _ starts) as [w1 res1]. simpl in IH.
    destruct IH as (Htr & Hrec & Hfresh & Hnd & Hcp & Hlen & _ & Hcov).
    destruct (google_process_batch_spec pairs bs w1 res1 i)
      as (b' & res' & -> & Hrec').
    set (todo := filter (λ p, p.1 ∉ Google.processed_words (Google.self w1))
                        (take bs (drop i pairs))) in *.
    set (tail := if decide (i + bs < length pairs) then [Google.Sleep] else []).
    set (block := ((λ p, Google.Submit (i `div` bs + 1) p.1 p.2) <$> todo)
                  ++ Google.SaveProgress b' (size res') :: tail).
    assert (Forall (λ e, e = Google.Sleep) tail) as Htail by apply sleep_tail.
    assert (google_submitted (new ++ block) = google_submitted new ++ todo.*1)
      as Hsub.
    { by rewrite google_submitted_app google_submitted_block. }
    assert (google_checkpoints (new ++ block) = google_checkpoints new ++ [b'])
      as Hchk.
    { by rewrite google_checkpoints_app google_checkpoints_block. }
    assert (∀ k, k ∈ todo.*1 → k ∉ Google.processed_words (Google.self w1))
      as Htodo.
    { intros k ([k' f] & -> & Hin%list_elem_of_filter)%list_elem_of_fmap.
      by destruct Hin. }
    assert (google_recorded get_translation (Google.self w) b'
              (list_to_set (google_submitted (new ++ block)))) as Hrec2.
    { rewrite Hsub list_to_set_app_L. by eapply google_recorded_trans. }
    destruct Hrec as [Hproc1 _].
    exists (new ++ block). cbn [fst snd Google.trace Google.self Google.progress_json].
    split; [by rewrite Htr -app_assoc|]. split; [done|].
    split; [|split; [|split; [|split; [|split]]]].
    + intros k. rewrite Hsub elem_of_app. intros [Hk|Hk]; [by apply Hfresh|].
      split.
      * apply Htodo in Hk. rewrite Hproc1 in Hk. set_solver.
      * eapply elem_of_sublist; [done|]. apply (fmap_sublist fst todo pairs).
        etrans; [apply sublist_filter|]. etrans; [apply sublist_take|].
        apply sublist_drop.
    + intros Hpairs. rewrite Hsub. apply NoDup_app. split; [by apply Hnd|]. split.
      * intros k Hk Hk'. apply Htodo in Hk'. rewrite Hproc1 in Hk'.
        apply Hk'. apply elem_of_union_l. by apply elem_of_list_to_set.
      * eapply sublist_NoDup; [done|]. apply (fmap_sublist fst todo pairs).
        etrans; [apply sublist_filter|]. etrans; [apply sublist_take|].
        apply sublist_drop.
    + rewrite Hchk. apply Forall_app. split; [done|]. constructor; [|constructor].
      eexists. split; [done|]. rewrite Hsub.
      intros k Hk%elem_of_list_to_set Hk'. revert Hk. rewrite elem_of_app.
      intros [Hk|Hk]; [by eapply Hfresh|].
      apply Htodo in Hk. rewrite Hproc1 in Hk. set_solver.
    + by rewrite Hchk !length_app Hlen.
    + intros _. split; [done|]. by rewrite Hchk last_snoc.
    + intros i' p Hi' Hp. destruct Hrec' as [-> _].
      apply elem_of_app in Hi' as [Hi'|Hi'].
      * apply elem_of_union_r. by eapply Hcov.
      * apply list_elem_of_singleton in Hi' as ->.
        destruct (decide (p.1 ∈ Google.processed_words (Google.self w1)));
          [by apply elem_of_union_r|].
        apply elem_of_union_l, elem_of_list_to_set, list_elem_of_fmap.
        exists p. split; [done|]. by apply list_elem_of_filter.
Qed.

Lemma batch_starts_nonempty n bs : n ≠ 0 → bs ≠ 0 → batch_starts n bs ≠ [].
Proof.
  intros Hn Hbs. rewrite /batch_starts.
  assert (0 < (n + bs - 1) `div` bs) as Hpos.
  { apply Nat.div_str_pos. lia. }
  destruct ((n + bs - 1) `div` bs); [lia|done].
Qed.

(** Every item lies in one of the batches. *)
Lemma batch_starts_cover {A} (l : list A) bs x :
  bs ≠ 0 → x ∈ l →
  ∃ i, i ∈ batch_starts (length l) bs ∧ x ∈ take bs (drop i l).
Proof.
  intros Hbs (j & Hj)%list_elem_of_lookup.
  pose proof (lookup_lt_Some _ _ _ Hj) as Hlt.
  pose proof (Nat.div_mod_eq j bs) as Hdm.
  pose proof (Nat.mod_upper_bound j bs Hbs) as Hmod.
  exists (j `div` bs * bs). split.
  - rewrite /batch_starts. apply list_elem_of_fmap.
    exists (j `div` bs). split; [done|]. apply elem_of_seq. split; [lia|].
    simpl. apply Nat.Div0.div_lt_upper_bound.
    pose proof (Nat.div_mod_eq (length l + bs - 1) bs) as Hdm'.
    pose proof (Nat.mod_upper_bound (length l + bs - 1) bs Hbs) as Hmod'.
    nia.
  - apply list_elem_of_lookup. exists (j `mod` bs).
    rewrite lookup_take_lt // lookup_drop.
    replace (j `div` bs * bs + j `mod` bs) with j by lia. done.
Qed.

(** [process_words] with a positive batch size, from any state. *)
Lemma google_process_words_spec pairs bs w :
  bs ≠ 0 →
  ∃ w' res' new,
    Google.process_words get_translation finish pairs bs w = Returned (w', res') ∧
    Google.trace w' = Google.trace w ++ new ∧
    google_recorded get_translation (Google.self w) (Google.self w')
      (list_to_set pairs.*1 ∖ Google.processed_words (Google.self w)) ∧
    list_to_set (google_submitted new)
      = list_to_set pairs.*1 ∖ Google.processed_words (Google.self w) ∧
    (NoDup pairs.*1 → NoDup (google_submitted new)) ∧
    Forall (λ b, ∃ K, google_recorded get_translation (Google.self w) b K ∧
                      K ## Google.processed_words (Google.self w))
           (google_checkpoints new) ∧
    (pairs ≠ [] →
       Google.progress_json w'
       = Some (dumps (Google.progress_data (Google.self w') res')) ∧
       last (google_checkpoints new) = Some (Google.self w')).
Proof.
  intros Hbs. rewrite /Google.process_words decide_False //.
  destruct (google_foldl_batches pairs bs (batch_starts (length pairs) bs) w ∅)
    as (new & Hnew).
  destruct (foldl _ _ _) as [w' res']. simpl in Hnew.
  destruct Hnew as (Htr & Hrec & Hfresh & Hnd & Hcp & _ & Hlast & Hcov).
  assert (list_to_set (google_submitted new)
          = list_to_set pairs.*1 ∖ Google.processed_words (Google.self w)) as HK.
  { apply set_eq. intros k. rewrite elem_of_difference !elem_of_list_to_set. split.
    - intros Hk. destruct (Hfresh k Hk). done.
    - intros [([k' f] & -> & Hin)%list_elem_of_fmap Hk].
      destruct (batch_starts_cover pairs bs (k', f) Hbs Hin) as (i & Hi & Hp).
      specialize (Hcov i (k', f) Hi Hp). destruct Hrec as [Hproc _].
      rewrite Hproc in Hcov. set_solver. }
  exists w', res', new. split; [done|]. split; [done|].
  split; [by rewrite -HK|]. split; [done|]. split; [done|]. split; [done|].
  intros Hne. apply Hlast, batch_starts_nonempty; [|done]. by destruct pairs.
Qed.

End google_batches.

(** ** The batch loop of the Glosbe builder *)

Section glosbe_batches.
Variable get_translation : string → reply (option string).
Variable get_similar_phrases : string → reply (list string).

Lemma glosbe_translation_nonempty word t phrases :
  glosbe_translation get_translation get_similar_phrases word = Some (t, phrases) →
  t ≠ "".
Proof.
  rewrite /glosbe_translation.
  destruct (get_translation word) as [[t'|]|e]; [|done..].
  destruct (get_similar_phrases word) as [ph|e]; [|done].
  case_decide; [done|]. by intros [= <- _].
Qed.

Lemma glosbe_recorded_refl b :
  glosbe_recorded get_translation get_similar_phrases b b ∅.
Proof. split; [set_solver|]. intros k. split; [set_solver|done]. Qed.

Lemma glosbe_recorded_trans b0 b1 b2 K1 K2 :
  glosbe_recorded get_translation get_similar_phrases b0 b1 K1 →
  glosbe_recorded get_translation get_similar_phrases b1 b2 K2 →
  glosbe_recorded get_translation get_similar_phrases b0 b2 (K1 ∪ K2).
Proof.
  intros [Hp1 H1] [Hp2 H2]. split; [rewrite Hp2 Hp1; set_solver|].
  intros k. destruct (H1 k) as [Hin1 Hout1], (H2 k) as [Hin2 Hout2].
  destruct (decide (k ∈ K2)) as [HK2|HK2];
    destruct (decide (k ∈ K1)) as [HK1|HK1].
  - specialize (Hin1 HK1). specialize (Hin2 HK2).
    split; [intros _|intros HK; exfalso; set_solver].
    destruct (glosbe_translation get_translation get_similar_phrases k)
      as [[t ph]|].
    + destruct Hin1 as (_ & _ & Hpb1), Hin2 as (-> & -> & Hpb2).
      split; [done|]. split; [done|]. by rewrite Hpb2.
    + destruct Hin1 as (Ht1 & He1 & _), Hin2 as (-> & -> & Hpb2).
      by rewrite Ht1 He1.
  - specialize (Hout1 HK1). specialize (Hin2 HK2).
    split; [intros _|intros HK; exfalso; set_solver].
    destruct Hout1 as (Ht1 & He1 & Hpb1).
    destruct (glosbe_translation get_translation get_similar_phrases k)
      as [[t ph]|].
    + destruct Hin2 as (-> & -> & Hpb2). split; [done|]. split; [done|].
      by rewrite Hpb2.
    + destruct Hin2 as (-> & -> & Hpb2). by rewrite Ht1 He1.
  - specialize (Hin1 HK1). specialize (Hout2 HK2).
    split; [intros _|intros HK; exfalso; set_solver].
    destruct Hout2 as (-> & -> & Hpb2).
    destruct (glosbe_translation get_translation get_similar_phrases k)
      as [[t ph]|].
    + destruct Hin1 as (-> & -> & Hpb1). split; [done|]. split; [done|].
      by rewrite Hpb2.
    + destruct Hin1 as (-> & -> & Hpb1). split; [done|]. split; [done|].
      by apply Hpb2.
  - specialize (Hout1 HK1). specialize (Hout2 HK2).
    split; [intros HK; exfalso; set_solver|intros _].
    destruct Hout1 as (Ht1 & He1 & Hpb1), Hout2 as (-> & -> & Hpb2).
    split; [done|]. split; [done|]. by rewrite Hpb2.
Qed.

Lemma glosbe_record_recorded b res word flags :
  glosbe_recorded get_translation get_similar_phrases b
    (Glosbe.record get_translation get_similar_phrases (b, res) (word, flags)).1
    {[word]}.
Proof.
  rewrite /Glosbe.record /Glosbe.process_word.
  destruct (glosbe_translation get_translation get_similar_phrases word)
    as [[t ph]|] eqn:Hvt.
  - apply glosbe_translation_nonempty in Hvt as Hne.
    assert (get_translation word = Reply (Some t) ∨ True) as _ by by right.
    revert Hvt. rewrite {1}/glosbe_translation.
    destruct (get_translation word) as [[t'|]|e] eqn:Hgt; [|done..].
    destruct (get_similar_phrases word) as [ph'|e] eqn:Hsp; [|done].
    case_decide as Hs; [done|]. intros [= <- <-].
    rewrite decide_True //=. split; [done|]. intros k. split.
    + intros ->%elem_of_singleton.
      by rewrite /glosbe_translation Hgt Hsp decide_False // !lookup_insert_eq.
    + intros Hk%not_elem_of_singleton. by rewrite !lookup_insert_ne.
  - assert (∀ P : gset string,
              glosbe_recorded get_translation get_similar_phrases b
                (Glosbe.Builder (Glosbe.translations b) (Glosbe.examples b)
                   ({[word]} ∪ Glosbe.processed_words b)
                   ({[word]} ∪ Glosbe.problematic_words b)) {[word]}) as Hfail.
    { intros _. split; [done|]. intros k. split.
      + intros ->%elem_of_singleton. rewrite Hvt /=. set_solver.
      + intros Hk%not_elem_of_singleton. simpl. set_solver. }
    specialize (Hfail ∅). revert Hvt. rewrite /glosbe_translation.
    destruct (get_translation word) as [[t'|]|e];
      destruct (get_similar_phrases word) as [ph'|e'];
      try case_decide; try done; intros _; exact Hfail.
Qed.

Lemma glosbe_foldl_record_recorded items b res :
  glosbe_recorded get_translation get_similar_phrases b
    (foldl (Glosbe.record get_translation get_similar_phrases) (b, res) items).1
    (list_to_set items.*1).
Proof.
  revert b res. induction items as [|[word flags] items IH]; intros b res.
  - apply glosbe_recorded_refl.
  - cbn [foldl fmap list_fmap list_to_set fst].
    destruct (Glosbe.record get_translation get_similar_phrases (b, res) (word, flags))
      as [b1 res1] eqn:Hrec.
    eapply glosbe_recorded_trans; [|apply IH].
    by rewrite -(f_equal fst Hrec : _ = b1); apply glosbe_record_recorded.
Qed.

Variable finish : string → nat.

(** One turn of the batch loop: the unprocessed items of the batch are
    submitted, their outcomes recorded, the snapshot written. *)
Lemma glosbe_process_batch_spec pairs bs w res i :
  let todo :=
    filter (λ p, p.1 ∉ Glosbe.processed_words (Glosbe.self w))
           (take bs (drop i pairs)) in
  ∃ b' res',
    Glosbe.process_batch get_translation get_similar_phrases finish pairs bs (w, res) i
    = (Glosbe.World b' (Some (dumps (Glosbe.progress_data b' res')))
         (Glosbe.trace w
          ++ ((λ p, Glosbe.Submit (i `div` bs + 1) p.1 p.2) <$> todo)
          ++ Glosbe.SaveProgress b' (size res')
             :: (if decide (i + bs < length pairs) then [Glosbe.Sleep] else [])),
       res') ∧
    glosbe_recorded get_translation get_similar_phrases (Glosbe.self w) b' (list_to_set todo.*1).
Proof.
  intros todo. rewrite /Glosbe.process_batch. fold todo.
  destruct (decide (todo ≠ [])) as [Hne|Heq].
  - destruct (foldl _ _ _) as [b' res'] eqn:Hfold. exists b', res'. split.
    + rewrite /Glosbe.save_progress /= run_ops_write_json.
      case_decide; by rewrite /= -?app_assoc.
    + rewrite -(as_completed_keys finish) -(f_equal fst Hfold : _ = b').
      apply glosbe_foldl_record_recorded.
  - apply dec_stable in Heq. exists (Glosbe.self w), res. split.
    + rewrite /Glosbe.save_progress /= run_ops_write_json Heq /=.
      case_decide; by rewrite /= -?app_assoc.
    + rewrite Heq. apply glosbe_recorded_refl.
Qed.

Lemma glosbe_submitted_app tr1 tr2 :
  glosbe_submitted (tr1 ++ tr2) = glosbe_submitted tr1 ++ glosbe_submitted tr2.
Proof. apply omap_app. Qed.

Lemma glosbe_checkpoints_app tr1 tr2 :
  glosbe_checkpoints (tr1 ++ tr2) = glosbe_checkpoints tr1 ++ glosbe_checkpoints tr2.
Proof. apply omap_app. Qed.

Lemma glosbe_submitted_block num (todo : list (string * string)) b n tail :
  Forall (λ e, e = Glosbe.Sleep) tail →
  glosbe_submitted (((λ p, Glosbe.Submit num p.1 p.2) <$> todo)
                    ++ Glosbe.SaveProgress b n :: tail) = todo.*1.
Proof.
  intros Htail. rewrite glosbe_submitted_app.
  assert (glosbe_submitted (Glosbe.SaveProgress b n :: tail) = []) as ->.
  { change (glosbe_submitted tail = []).
    induction Htail as [|e tail -> _ IH]; [done|]. by rewrite /= -IH. }
  rewrite app_nil_r. induction todo as [|p todo IH]; [done|].
  rewrite fmap_cons. change (p.1 :: glosbe_submitted
    ((λ p, Glosbe.Submit num p.1 p.2) <$> todo) = p.1 :: todo.*1).
  by rewrite IH.
Qed.

Lemma glosbe_checkpoints_block num (todo : list (string * string)) b n tail :
  Forall (λ e, e = Glosbe.Sleep) tail →
  glosbe_checkpoints (((λ p, Glosbe.Submit num p.1 p.2) <$> todo)
                      ++ Glosbe.SaveProgress b n :: tail) = [b].
Proof.
  intros Htail. rewrite glosbe_checkpoints_app.
  assert (glosbe_checkpoints (Glosbe.SaveProgress b n :: tail) = [b]) as ->.
  { change (b :: glosbe_checkpoints tail = [b]). f_equal.
    induction Htail as [|e tail -> _ IH]; [done|]. by rewrite /= -IH. }
  assert (glosbe_checkpoints ((λ p, Glosbe.Submit num p.1 p.2) <$> todo) = [])
    as ->; [|done].
  induction todo as [|p todo IH]; [done|]. by rewrite fmap_cons -IH.
Qed.

Lemma glosbe_sleep_tail (c : Prop) `{!Decision c} :
  Forall (λ e, e = Glosbe.Sleep) (if decide c then [Glosbe.Sleep] else []).
Proof. case_decide; repeat constructor. Qed.

(** Any number of turns of the batch loop, from any state. *)
Lemma glosbe_foldl_batches pairs bs starts w res :
  ∃ new,
    let r := foldl (Glosbe.process_batch get_translation get_similar_phrases finish pairs bs)
                   (w, res) starts in
    Glosbe.trace r.1 = Glosbe.trace w ++ new ∧
    glosbe_recorded get_translation get_similar_phrases (Glosbe.self w) (Glosbe.self r.1)
                    (list_to_set (glosbe_submitted new)) ∧
    (∀ k, k ∈ glosbe_submitted new →
          (k ∉ Glosbe.processed_words (Glosbe.self w)) ∧ k ∈ pairs.*1) ∧
    (NoDup pairs.*1 → NoDup (glosbe_submitted new)) ∧
    Forall (λ b, ∃ K, glosbe_recorded get_translation get_similar_phrases (Glosbe.self w) b K ∧
                      K ## Glosbe.processed_words (Glosbe.self w))
           (glosbe_checkpoints new) ∧
    length (glosbe_checkpoints new) = length starts ∧
    (starts ≠ [] →
       Glosbe.progress_json r.1
       = Some (dumps (Glosbe.progress_data (Glosbe.self r.1) r.2)) ∧
       last (glosbe_checkpoints new) = Some (Glosbe.self r.1)) ∧
    (∀ i p, i ∈ starts → p ∈ take bs (drop i pairs) →
            p.1 ∈ Glosbe.processed_words (Glosbe.self r.1)).
Proof.
  induction starts as [|i starts IH] using rev_ind.
  - exists []. simpl. rewrite app_nil_r.
    split; [done|]. split; [apply glosbe_recorded_refl|].
    split; [set_solver|]. split; [constructor|]. split; [constructor|].
    split; [done|]. split; [done|]. set_solver.
  - destruct IH as (new & IH). rewrite foldl_snoc.
    destruct (foldl _ _ starts) as [w1 res1]. simpl in IH.
    destruct IH as (Htr & Hrec & Hfresh & Hnd & Hcp & Hlen & _ & Hcov).
    destruct (glosbe_process_batch_spec pairs bs w1 res1 i)
      as (b' & res' & -> & Hrec').
    set (todo := filter (λ p, p.1 ∉ Glosbe.processed_words (Glosbe.self w1))
                        (take bs (drop i pairs))) in *.
    set (tail := if decide (i + bs < length pairs) then [Glosbe.Sleep] else []).
    set (block := ((λ p, Glosbe.Submit (i `div` bs + 1) p.1 p.2) <$> todo)
                  ++ Glosbe.SaveProgress b' (size res') :: tail).
    assert (Forall (λ e, e = Glosbe.Sleep) tail) as Htail by apply glosbe_sleep_tail.
    assert (glosbe_submitted (new ++ block) = glosbe_submitted new ++ todo.*1)
      as Hsub.
    { by rewrite glosbe_submitted_app glosbe_submitted_block. }
    assert (glosbe_checkpoints (new ++ block) = glosbe_checkpoints new ++ [b'])
      as Hchk.
    { by rewrite glosbe_checkpoints_app glosbe_checkpoints_block. }
    assert (∀ k, k ∈ todo.*1 → k ∉ Glosbe.processed_words (Glosbe.self w1))
      as Htodo.
    { intros k ([k' f] & -> & Hin%list_elem_of_filter)%list_elem_of_fmap.
      by destruct Hin. }
    assert (glosbe_recorded get_translation get_similar_phrases (Glosbe.self w) b'
              (list_to_set (glosbe_submitted (new ++ block)))) as Hrec2.
    { rewrite Hsub list_to_set_app_L. by eapply glosbe_recorded_trans. }
    destruct Hrec as [Hproc1 _].
    exists (new ++ block). cbn [fst snd Glosbe.trace Glosbe.self Glosbe.progress_json].
    split; [by rewrite Htr -app_assoc|]. split; [done|].
    split; [|split; [|split; [|split; [|split]]]].
    + intros k. rewrite Hsub elem_of_app. intros [Hk|Hk]; [by apply Hfresh|].
      split.
      * apply Htodo in Hk. rewrite Hproc1 in Hk. set_solver.
      * eapply elem_of_sublist; [done|]. apply (fmap_sublist fst todo pairs).
        etrans; [apply sublist_filter|]. etrans; [apply sublist_take|].
        apply sublist_drop.
    + intros Hpairs. rewrite Hsub. apply NoDup_app. split; [by apply Hnd|]. split.
      * intros k Hk Hk'. apply Htodo in Hk'. rewrite Hproc1 in Hk'.
        apply Hk'. apply elem_of_union_l. by apply elem_of_list_to_set.
      * eapply sublist_NoDup; [done|]. apply (fmap_sublist fst todo pairs).
        etrans; [apply sublist_filter|]. etrans; [apply sublist_take|].
        apply sublist_drop.
    + rewrite Hchk. apply Forall_app. split; [done|]. constructor; [|constructor].
      eexists. split; [done|]. rewrite Hsub.
      intros k Hk%elem_of_list_to_set Hk'. revert Hk. rewrite elem_of_app.
      intros [Hk|Hk]; [by eapply Hfresh|].
      apply Htodo in Hk. rewrite Hproc1 in Hk. set_solver.
    + by rewrite Hchk !length_app Hlen.
    + intros _. split; [done|]. by rewrite Hchk last_snoc.
    + intros i' p Hi' Hp. destruct Hrec' as [-> _].
      apply elem_of_app in Hi' as [Hi'|Hi'].
      * apply elem_of_union_r. by eapply Hcov.
      * apply list_elem_of_singleton in Hi' as ->.
        destruct (decide (p.1 ∈ Glosbe.processed_words (Glosbe.self w1)));
          [by apply elem_of_union_r|].
        apply elem_of_union_l, elem_of_list_to_set, list_elem_of_fmap.
        exists p. split; [done|]. by apply list_elem_of_filter.
Qed.



(** [process_words] with a positive batch size, from any state. *)
Lemma glosbe_process_words_spec pairs bs w :
  bs ≠ 0 →
  ∃ w' res' new,
    Glosbe.process_words get_translation get_similar_phrases finish pairs bs w = Returned (w', res') ∧
    Glosbe.trace w' = Glosbe.trace w ++ new ∧
    glosbe_recorded get_translation get_similar_phrases (Glosbe.self w) (Glosbe.self w')
      (list_to_set pairs.*1 ∖ Glosbe.processed_words (Glosbe.self w)) ∧
    list_to_set (glosbe_submitted new)
      = list_to_set pairs.*1 ∖ Glosbe.processed_words (Glosbe.self w) ∧
    (NoDup pairs.*1 → NoDup (glosbe_submitted new)) ∧
    Forall (λ b, ∃ K, glosbe_recorded get_translation get_similar_phrases (Glosbe.self w) b K ∧
                      K ## Glosbe.processed_words (Glosbe.self w))
           (glosbe_checkpoints new) ∧
    (pairs ≠ [] →
       Glosbe.progress_json w'
       = Some (dumps (Glosbe.progress_data (Glosbe.self w') res')) ∧
       last (glosbe_checkpoints new) = Some (Glosbe.self w')).
Proof.
  intros Hbs. rewrite /Glosbe.process_words decide_False //.
  destruct (glosbe_foldl_batches pairs bs (batch_starts (length pairs) bs) w ∅)
    as (new & Hnew).
  destruct (foldl _ _ _) as [w' res']. simpl in Hnew.
  destruct Hnew as (Htr & Hrec & Hfresh & Hnd & Hcp & _ & Hlast & Hcov).
  assert (list_to_set (glosbe_submitted new)
          = list_to_set pairs.*1 ∖ Glosbe.processed_words (Glosbe.self w)) as HK.
  { apply set_eq. intros k. rewrite elem_of_difference !elem_of_list_to_set. split.
    - intros Hk. destruct (Hfresh k Hk). done.
    - intros [([k' f] & -> & Hin)%list_elem_of_fmap Hk].
      destruct (batch_starts_cover pairs bs (k', f) Hbs Hin) as (i & Hi & Hp).
      specialize (Hcov i (k', f) Hi Hp). destruct Hrec as [Hproc _].
      rewrite Hproc in Hcov. set_solver. }
  exists w', res', new. split; [done|]. split; [done|].
  split; [by rewrite -HK|]. split; [done|]. split; [done|]. split; [done|].
  intros Hne. apply Hlast, batch_starts_nonempty; [|done]. by destruct pairs.
Qed.

End glosbe_batches.

(** ** The drivers *)

Lemma py_dict_is_Some {V} (l : list (string * V)) k :
  is_Some (py_dict l !! k) ↔ k ∈ l.*1.
Proof.
  induction l as [|[k' v'] l IH] using rev_ind.
  - rewrite /py_dict /= lookup_empty. split; [by intros [??]|set_solver].
  - rewrite py_dict_snoc fmap_app elem_of_app lookup_insert_is_Some' IH /=.
    set_solver.
Qed.

Lemma google_load_progress_inv b d tr w0 :
  Google.load_progress (Google.World b d tr) = Returned w0 →
  Google.progress_json w0 = d ∧ Google.trace w0 = tr.
Proof.
  rewrite /Google.load_progress /=. intros Hload.
  repeat case_match; by simplify_eq.
Qed.

Lemma google_words_to_process_NoDup b pairs :
  NoDup pairs.*1 → NoDup (Google.words_to_process b pairs).*1.
Proof.
  intros Hnd. rewrite /Google.words_to_process fmap_app.
  set (P := Google.problematic_words b).
  assert (∀ l : list string,
            (omap (λ word, pair word <$> py_dict pairs !! word) l).*1
            `sublist_of` l) as Hsub.
  { induction l as [|x l IH]; [done|]. simpl.
    destruct (py_dict pairs !! x); simpl; by constructor. }
  apply NoDup_app. split; [|split].
  - eapply sublist_NoDup; [|apply Hsub]. apply NoDup_elements.
  - intros k Hk ([k' f] & -> & [[_ Hin] _]%list_elem_of_filter)%list_elem_of_fmap.
    apply Hin. eapply elem_of_elements, elem_of_sublist; [done|apply Hsub].
  - eapply sublist_NoDup; [done|].
    apply (fmap_sublist fst (filter _ pairs) pairs), sublist_filter.
Qed.

(** What a returning run of the Google [main] is made of. *)
Lemma google_main_inv get_translation finish d word_list w' :
  Google.main get_translation finish d word_list = Returned w' →
  ∃ w0 lines,
    Google.load_progress (Google.World Google.init d []) = Returned w0 ∧
    word_list = Some lines ∧
    let pairs := unique_pairs ∅ (word_flag_pairs lines) in
    let todo := Google.words_to_process (Google.self w0) pairs in
    (todo ≠ [] ∧
     ∃ w1 res,
       Google.process_words get_translation finish todo 100 w0 = Returned (w1, res) ∧
       w' = Google.save_yomichan res (Google.save_problematic_words w1)) ∨
    (todo = [] ∧
     ∃ res, w' = Google.save_yomichan res (Google.save_problematic_words w0)).
Proof.
  rewrite /Google.main. intros Hmain.
  destruct (Google.load_progress _) as [w0| | |] eqn:Hload; try done.
  destruct word_list as [lines|]; [|done]. simpl in Hmain.
  exists w0, lines. split; [done|]. split; [done|]. simpl.
  case_decide as Htodo.
  - left. split; [done|].
    destruct (Google.process_words _ _ _ _ _) as [[w1 res]| | |]; try done.
    exists w1, res. split; [done|]. by simplify_eq.
  - right. split; [done|].
    eexists. by simplify_eq.
Qed.

(** The dispatches of one returning run of the Google [main]. *)
Lemma google_main_dispatches get_translation finish d word_list w' :
  Google.main get_translation finish d word_list = Returned w' →
  ∃ w0,
    Google.load_progress (Google.World Google.init d []) = Returned w0 ∧
    (∀ k, k ∈ google_submitted (Google.trace w') →
          (k ∉ Google.processed_words (Google.self w0)) ∧
          k ∈ Google.processed_words (Google.self w')) ∧
    NoDup (google_submitted (Google.trace w')) ∧
    (google_submitted (Google.trace w') ≠ [] →
       Google.load_progress (Google.World Google.init (Google.progress_json w') [])
       = Returned (Google.World (Google.self w') (Google.progress_json w') [])).
Proof.
  intros (w0 & lines & Hload & -> & Hrun)%google_main_inv.
  exists w0. split; [done|].
  destruct (google_load_progress_inv _ _ _ _ Hload) as [Hd Htr0].
  simpl in Hrun. destruct Hrun as [(Htodo & w1 & res & Hpw & ->)|(Htodo & res & ->)].
  - set (todo := Google.words_to_process _ _) in *.
    destruct (google_process_words_spec get_translation finish todo 100 w0)
      as (w1' & res' & new & Hpw' & Htr & Hrec & HK & Hnd & _ & Hlast); [done|].
    rewrite Hpw in Hpw'. simplify_eq.
    destruct (Hlast Htodo) as [Hdisk _].
    assert (google_submitted
              (Google.trace (Google.save_yomichan res'
                               (Google.save_problematic_words w1')))
            = google_submitted new) as ->.
    { rewrite /= Htr Htr0 /= -app_assoc google_submitted_app /=.
      by rewrite app_nil_r. }
    cbn [Google.save_yomichan Google.save_problematic_words
         Google.self Google.progress_json].
    split; [|split].
    + intros k Hk%(elem_of_list_to_set (C := gset string)).
      destruct Hrec as [-> _]. rewrite HK in Hk. set_solver.
    + apply Hnd, google_words_to_process_NoDup, unique_pairs_NoDup.
    + intros _. rewrite Hdisk -(run_ops_write_json _ None).
      by rewrite google_load_after_write run_ops_write_json.
  - rewrite /= Htr0 /=. split; [set_solver|]. split; [constructor|done].
Qed.

Lemma glosbe_load_progress_inv b d tr w0 :
  Glosbe.load_progress (Glosbe.World b d tr) = Returned w0 →
  Glosbe.progress_json w0 = d ∧ Glosbe.trace w0 = tr.
Proof.
  rewrite /Glosbe.load_progress /=. intros Hload.
  repeat case_match; by simplify_eq.
Qed.

Lemma glosbe_words_to_process_NoDup b pairs :
  NoDup pairs.*1 → NoDup (Glosbe.words_to_process b pairs).*1.
Proof.
  intros Hnd. eapply sublist_NoDup; [done|].
  apply (fmap_sublist fst (filter _ pairs) pairs), sublist_filter.
Qed.

(** What a returning run of the Glosbe [main] is made of. *)
Lemma glosbe_main_inv get_translation get_similar_phrases finish d word_list w' :
  Glosbe.main get_translation get_similar_phrases finish d word_list = Returned w' →
  ∃ w0 lines,
    Glosbe.load_progress (Glosbe.World Glosbe.init d []) = Returned w0 ∧
    word_list = Some lines ∧
    let pairs := unique_pairs ∅ (word_flag_pairs lines) in
    let todo := Glosbe.words_to_process (Glosbe.self w0) pairs in
    let finished w1 res :=
      Glosbe.save_yomichan res
        (Glosbe.save_problematic_words
           (Glosbe.save_yomichan res (Glosbe.save_problematic_words w1))) in
    (todo ≠ [] ∧
     ∃ w1 res,
       Glosbe.process_words get_translation get_similar_phrases finish todo 25 w0
       = Returned (w1, res) ∧
       w' = finished w1 res) ∨
    (todo = [] ∧ w' = finished w0 ∅).
Proof.
  rewrite /Glosbe.main. intros Hmain.
  destruct (Glosbe.load_progress _) as [w0| | |] eqn:Hload; try done.
  destruct word_list as [lines|]; [|done]. simpl in Hmain.
  exists w0, lines. split; [done|]. split; [done|]. simpl.
  case_decide as Htodo.
  - right. split; [done|]. by simplify_eq.
  - left. split; [done|].
    destruct (Glosbe.process_words _ _ _ _ _ _) as [[w1 res]| | |]; try done.
    exists w1, res. split; [done|]. by simplify_eq.
Qed.

(** The dispatches of one returning run of the Glosbe [main]. *)
Lemma glosbe_main_dispatches get_translation get_similar_phrases finish d
    word_list w' :
  Glosbe.main get_translation get_similar_phrases finish d word_list = Returned w' →
  ∃ w0,
    Glosbe.load_progress (Glosbe.World Glosbe.init d []) = Returned w0 ∧
    (∀ k, k ∈ glosbe_submitted (Glosbe.trace w') →
          (k ∉ Glosbe.processed_words (Glosbe.self w0)) ∧
          k ∈ Glosbe.processed_words (Glosbe.self w')) ∧
    NoDup (glosbe_submitted (Glosbe.trace w')) ∧
    (glosbe_submitted (Glosbe.trace w') ≠ [] →
       Glosbe.load_progress (Glosbe.World Glosbe.init (Glosbe.progress_json w') [])
       = Returned (Glosbe.World (Glosbe.self w') (Glosbe.progress_json w') [])).
Proof.
  intros (w0 & lines & Hload & -> & Hrun)%glosbe_main_inv.
  exists w0. split; [done|].
  destruct (glosbe_load_progress_inv _ _ _ _ Hload) as [Hd Htr0].
  simpl in Hrun. destruct Hrun as [(Htodo & w1 & res & Hpw & ->)|(Htodo & ->)].
  - set (todo := Glosbe.words_to_process _ _) in *.
    destruct (glosbe_process_words_spec get_translation get_similar_phrases
                finish todo 25 w0)
      as (w1' & res' & new & Hpw' & Htr & Hrec & HK & Hnd & _ & Hlast); [done|].
    rewrite Hpw in Hpw'. simplify_eq.
    destruct (Hlast Htodo) as [Hdisk _].
    assert (glosbe_submitted
              (Glosbe.trace
                 (Glosbe.save_yomichan res'
                    (Glosbe.save_problematic_words
                       (Glosbe.save_yomichan res'
                          (Glosbe.save_problematic_words w1')))))
            = glosbe_submitted new) as ->.
    { rewrite /= Htr Htr0 /= -!app_assoc glosbe_submitted_app /=.
      by rewrite app_nil_r. }
    cbn [Glosbe.save_yomichan Glosbe.save_problematic_words
         Glosbe.self Glosbe.progress_json].
    split; [|split].
    + intros k Hk%(elem_of_list_to_set (C := gset string)).
      destruct Hrec as [-> _]. rewrite HK in Hk. set_solver.
    + apply Hnd, glosbe_words_to_process_NoDup, unique_pairs_NoDup.
    + intros _. rewrite Hdisk -(run_ops_write_json _ None).
      by rewrite glosbe_load_after_write run_ops_write_json.
  - rewrite /= Htr0 /=. split; [set_solver|]. split; [constructor|done].
Qed.

(** ** Idempotent resumption *)

(** C3: a run of either builder never submits a word that is in the
    [processed_words] of the state it loaded; and over two runs in
    sequence, the second loading the progress file the first left, no
    word is submitted twice. *)
Theorem resumption_never_redispatches :
  (∀ get_translation finish d word_list w',
     Google.main get_translation finish d word_list = Returned w' →
     ∃ w0,
       Google.load_progress (Google.World Google.init d []) = Returned w0 ∧
       ∀ k, k ∈ google_submitted (Google.trace w') →
            k ∉ Google.processed_words (Google.self w0)) ∧
  (∀ get_translation1 finish1 get_translation2 finish2 d word_list1 word_list2 w1 w2,
     Google.main get_translation1 finish1 d word_list1 = Returned w1 →
     Google.main get_translation2 finish2 (Google.progress_json w1) word_list2
       = Returned w2 →
     NoDup (google_submitted (Google.trace w1) ++ google_submitted (Google.trace w2))) ∧
  (∀ get_translation get_similar_phrases finish d word_list w',
     Glosbe.main get_translation get_similar_phrases finish d word_list = Returned w' →
     ∃ w0,
       Glosbe.load_progress (Glosbe.World Glosbe.init d []) = Returned w0 ∧
       ∀ k, k ∈ glosbe_submitted (Glosbe.trace w') →
            k ∉ Glosbe.processed_words (Glosbe.self w0)) ∧
  (∀ get_translation1 get_similar_phrases1 finish1
     get_translation2 get_similar_phrases2 finish2 d word_list1 word_list2 w1 w2,
     Glosbe.main get_translation1 get_similar_phrases1 finish1 d word_list1
       = Returned w1 →
     Glosbe.main get_translation2 get_similar_phrases2 finish2
                 (Glosbe.progress_json w1) word_list2 = Returned w2 →
     NoDup (glosbe_submitted (Glosbe.trace w1) ++ glosbe_submitted (Glosbe.trace w2))).
Proof.
  split; [|split; [|split]].
  - intros ????? (w0 & Hload & Hsub & _)%google_main_dispatches.
    exists w0. split; [done|]. intros k Hk. by apply Hsub.
  - intros ????????? (w0 & _ & Hsub1 & Hnd1 & Hsaved)%google_main_dispatches
                     (w0' & Hload2 & Hsub2 & Hnd2 & _)%google_main_dispatches.
    apply NoDup_app. split; [done|]. split; [|done].
    intros k Hk1 Hk2.
    assert (google_submitted (Google.trace w1) ≠ []) as Hne.
    { intros Heq. rewrite Heq in Hk1. by apply elem_of_nil in Hk1. }
    rewrite (Hsaved Hne) in Hload2. injection Hload2 as <-.
    apply Hsub1 in Hk1 as [_ Hk1]. by apply Hsub2 in Hk2 as [Hk2 _].
  - intros ?????? (w0 & Hload & Hsub & _)%glosbe_main_dispatches.
    exists w0. split; [done|]. intros k Hk. by apply Hsub.
  - intros ??????????? (w0 & _ & Hsub1 & Hnd1 & Hsaved)%glosbe_main_dispatches
                       (w0' & Hload2 & Hsub2 & Hnd2 & _)%glosbe_main_dispatches.
    apply NoDup_app. split; [done|]. split; [|done].
    intros k Hk1 Hk2.
    assert (glosbe_submitted (Glosbe.trace w1) ≠ []) as Hne.
    { intros Heq. rewrite Heq in Hk1. by apply elem_of_nil in Hk1. }
    rewrite (Hsaved Hne) in Hload2. injection Hload2 as <-.
    apply Hsub1 in Hk1 as [_ Hk1]. by apply Hsub2 in Hk2 as [Hk2 _].
Qed.

Lemma resumption_never_redispatches_witness :
  ∃ w1 w2,
    Google.main scenario_connector scenario_finish None (Some scenario_words)
      = Returned w1 ∧
    Google.main scenario_connector scenario_finish (Google.progress_json w1)
                (Some scenario_words) = Returned w2 ∧
    google_submitted (Google.trace w1) = ["casa"; "xyz123"; "agua"] ∧
    NoDup (google_submitted (Google.trace w1) ++ google_submitted (Google.trace w2)).
Proof.
  eexists _, _. split; [by vm_compute|]. split; [by vm_compute|].
  split; [by vm_compute|].
  destruct resumption_never_redispatches as (_ & Htwice & _).
  eapply (Htwice scenario_connector scenario_finish scenario_connector
            scenario_finish None (Some scenario_words) (Some scenario_words));
    by vm_compute.
Defined.

(** ** Checkpoints between batches *)

(** The batches are consecutive slices that make up the whole list. *)
Lemma batches_concat {A} (l : list A) bs :
  bs ≠ 0 →
  concat ((λ i, take bs (drop i l)) <$> batch_starts (length l) bs) = l.
Proof.
  intros Hbs. rewrite /batch_starts -list_fmap_compose.
  assert (length l ≤ (length l + bs - 1) `div` bs * bs) as Hlen.
  { pose proof (Nat.div_mod_eq (length l + bs - 1) bs) as Hdm.
    pose proof (Nat.mod_upper_bound (length l + bs - 1) bs Hbs) as Hmod. nia. }
  revert Hlen. generalize ((length l + bs - 1) `div` bs). intros m. revert l.
  induction m as [|m IH]; intros l Hlen.
  - by destruct l; [|simpl in Hlen; lia].
  - rewrite -cons_seq -fmap_S_seq fmap_cons -list_fmap_compose.
    cbn [concat compose]. rewrite Nat.mul_0_l drop_0.
    rewrite -{3}(take_drop bs l). f_equal.
    etrans; [|apply (IH (drop bs l)); rewrite length_drop; lia].
    f_equal. apply list_fmap_ext. intros _ k _. simpl.
    by rewrite drop_drop.
Qed.

Lemma google_foldl_checkpointed get_translation finish pairs bs starts w res :
  ∃ new,
    Google.trace (foldl (Google.process_batch get_translation finish pairs bs)
                        (w, res) starts).1 = Google.trace w ++ new ∧
    google_checkpointed pairs bs (Google.processed_words (Google.self w))
                        starts new.
Proof.
  revert w res. induction starts as [|i starts IH]; intros w res.
  - exists []. rewrite app_nil_r. split; [done|]. constructor.
  - cbn [foldl].
    destruct (google_process_batch_spec get_translation finish pairs bs w res i)
      as (b' & res' & -> & [Hproc _]).
    destruct (IH (Google.World b' (Some (dumps (Google.progress_data b' res')))
                    (Google.trace w
                     ++ ((λ p, Google.Submit (i `div` bs + 1) p.1 p.2) <$>
                           filter (λ p, p.1 ∉ Google.processed_words (Google.self w))
                                  (take bs (drop i pairs)))
                     ++ Google.SaveProgress b' (size res')
                        :: (if decide (i + bs < length pairs)
                            then [Google.Sleep] else []))) res')
      as (rest & -> & Hrest).
    eexists. split.
    + cbn [Google.trace]. rewrite -!app_assoc. reflexivity.
    + apply google_checkpointed_batch; [|apply sleep_tail|done].
      rewrite Hproc. apply set_eq. intros k.
      rewrite !elem_of_union !elem_of_list_to_set !list_elem_of_fmap.
      split.
      * intros [(p & -> & [_ Hp]%list_elem_of_filter)|?]; [left|by right].
        by exists p.
      * intros [(p & -> & Hp)|?]; [|by right].
        destruct (decide (p.1 ∈ Google.processed_words (Google.self w)));
          [by right|left].
        exists p. split; [done|]. by apply list_elem_of_filter.
Qed.

Lemma glosbe_foldl_checkpointed get_translation get_similar_phrases finish
    pairs bs starts w res :
  ∃ new,
    Glosbe.trace (foldl (Glosbe.process_batch get_translation get_similar_phrases
                                              finish pairs bs)
                        (w, res) starts).1 = Glosbe.trace w ++ new ∧
    glosbe_checkpointed pairs bs (Glosbe.processed_words (Glosbe.self w))
                        starts new.
Proof.
  revert w res. induction starts as [|i starts IH]; intros w res.
  - exists []. rewrite app_nil_r. split; [done|]. constructor.
  - cbn [foldl].
    destruct (glosbe_process_batch_spec get_translation get_similar_phrases
                finish pairs bs w res i)
      as (b' & res' & -> & [Hproc _]).
    destruct (IH (Glosbe.World b' (Some (dumps (Glosbe.progress_data b' res')))
                    (Glosbe.trace w
                     ++ ((λ p, Glosbe.Submit (i `div` bs + 1) p.1 p.2) <$>
                           filter (λ p, p.1 ∉ Glosbe.processed_words (Glosbe.self w))
                                  (take bs (drop i pairs)))
                     ++ Glosbe.SaveProgress b' (size res')
                        :: (if decide (i + bs < length pairs)
                            then [Glosbe.Sleep] else []))) res')
      as (rest & -> & Hrest).
    eexists. split.
    + cbn [Glosbe.trace]. rewrite -!app_assoc. reflexivity.
    + apply glosbe_checkpointed_batch; [|apply glosbe_sleep_tail|done].
      rewrite Hproc. apply set_eq. intros k.
      rewrite !elem_of_union !elem_of_list_to_set !list_elem_of_fmap.
      split.
      * intros [(p & -> & [_ Hp]%list_elem_of_filter)|?]; [left|by right].
        by exists p.
      * intros [(p & -> & Hp)|?]; [|by right].
        destruct (decide (p.1 ∈ Glosbe.processed_words (Glosbe.self w)));
          [by right|left].
        exists p. split; [done|]. by apply list_elem_of_filter.
Qed.

Lemma batch_starts_take n bs k :
  k ≤ length (batch_starts n bs) →
  take k (batch_starts n bs) = (λ j, j * bs) <$> seq 0 k.
Proof.
  rewrite /batch_starts length_fmap length_seq. intros Hk.
  rewrite -fmap_take. f_equal.
  replace ((n + bs - 1) `div` bs) with (k + ((n + bs - 1) `div` bs - k)) by lia.
  by rewrite seq_app take_app_length' // length_seq.
Qed.

(** The state after the first [k + 1] batches of a run of the Google
    [process_words]. *)
Lemma google_after_batches_spec get_translation finish pairs bs w k :
  k < length (batch_starts (length pairs) bs) →
  ∃ wk resk new_k later,
    google_after_batches get_translation finish pairs bs w (S k) = (wk, resk) ∧
    Google.trace wk = Google.trace w ++ new_k ∧
    Google.trace
      (google_after_batches get_translation finish pairs bs w
         (length (batch_starts (length pairs) bs))).1
    = Google.trace wk ++ later ∧
    length (google_checkpoints new_k) = S k ∧
    last (google_checkpoints new_k) = Some (Google.self wk) ∧
    Google.progress_json wk
    = Some (dumps (Google.progress_data (Google.self wk) resk)) ∧
    Google.load_progress (Google.World Google.init (Google.progress_json wk) [])
    = Returned (Google.World (Google.self wk) (Google.progress_json wk) []) ∧
    google_recorded get_translation (Google.self w) (Google.self wk)
      (Google.processed_words (Google.self wk)
       ∖ Google.processed_words (Google.self w)) ∧
    (∀ j p, j ≤ k → p ∈ take bs (drop (j * bs) pairs) →
            p.1 ∈ Google.processed_words (Google.self wk)) ∧
    (∀ x, x ∈ google_submitted later →
          x ∉ Google.processed_words (Google.self wk)).
Proof.
  intros Hk. rewrite /google_after_batches.
  remember (batch_starts (length pairs) bs) as starts eqn:Hstarts.
  rewrite firstn_all.
  rewrite -{2}(take_drop (S k) starts) foldl_app.
  destruct (google_foldl_batches get_translation finish pairs bs
              (take (S k) starts) w ∅)
    as (new_k & Htr & [Hproc Hrec] & Hfresh & _ & _ & Hlen & Hlast & Hcov).
  destruct (foldl _ _ (take (S k) starts)) as [wk resk] eqn:Hfold.
  cbn [fst snd] in *.
  destruct (google_foldl_batches get_translation finish pairs bs
              (drop (S k) starts) wk resk)
    as (later & Htr' & _ & Hfresh' & _).
  cbv zeta in Htr'.
  assert (take (S k) starts ≠ []) as Hne.
  { destruct starts as [|i starts']; [simpl in Hk; lia|done]. }
  destruct (Hlast Hne) as [Hjson Hsnapshot].
  assert (list_to_set (C := gset string) (google_submitted new_k)
          = Google.processed_words (Google.self wk)
            ∖ Google.processed_words (Google.self w)) as Hset.
  { rewrite Hproc. apply set_eq. intros x. rewrite elem_of_difference elem_of_union.
    rewrite elem_of_list_to_set. split.
    - intros Hx. split; [by left|]. by destruct (Hfresh x Hx).
    - by intros [[?|?] ?]. }
  exists wk, resk, new_k, later. split; [done|]. split; [done|].
  split; [done|].
  split; [rewrite Hlen length_take; lia|]. split; [done|]. split; [done|].
  split.
  { rewrite Hjson -{1}(run_ops_write_json _ None). apply google_load_after_write. }
  split; [by rewrite -Hset|]. split.
  - intros j p Hj Hp. apply (Hcov (j * bs) p); [|done].
    rewrite Hstarts batch_starts_take; last (rewrite -Hstarts; lia).
    apply list_elem_of_fmap. exists j. split; [done|]. apply elem_of_seq. lia.
  - intros x Hx. by destruct (Hfresh' x Hx).
Qed.

(** The state after the first [k + 1] batches of a run of the Glosbe
    [process_words]. *)
Lemma glosbe_after_batches_spec get_translation get_similar_phrases finish pairs bs w k :
  k < length (batch_starts (length pairs) bs) →
  ∃ wk resk new_k later,
    glosbe_after_batches get_translation get_similar_phrases finish pairs bs w (S k) = (wk, resk) ∧
    Glosbe.trace wk = Glosbe.trace w ++ new_k ∧
    Glosbe.trace
      (glosbe_after_batches get_translation get_similar_phrases finish pairs bs w
         (length (batch_starts (length pairs) bs))).1
    = Glosbe.trace wk ++ later ∧
    length (glosbe_checkpoints new_k) = S k ∧
    last (glosbe_checkpoints new_k) = Some (Glosbe.self wk) ∧
    Glosbe.progress_json wk
    = Some (dumps (Glosbe.progress_data (Glosbe.self wk) resk)) ∧
    Glosbe.load_progress (Glosbe.World Glosbe.init (Glosbe.progress_json wk) [])
    = Returned (Glosbe.World (Glosbe.self wk) (Glosbe.progress_json wk) []) ∧
    glosbe_recorded get_translation get_similar_phrases (Glosbe.self w) (Glosbe.self wk)
      (Glosbe.processed_words (Glosbe.self wk)
       ∖ Glosbe.processed_words (Glosbe.self w)) ∧
    (∀ j p, j ≤ k → p ∈ take bs (drop (j * bs) pairs) →
            p.1 ∈ Glosbe.processed_words (Glosbe.self wk)) ∧
    (∀ x, x ∈ glosbe_submitted later →
          x ∉ Glosbe.processed_words (Glosbe.self wk)).
Proof.
  intros Hk. rewrite /glosbe_after_batches.
  remember (batch_starts (length pairs) bs) as starts eqn:Hstarts.
  rewrite firstn_all.
  rewrite -{2}(take_drop (S k) starts) foldl_app.
  destruct (glosbe_foldl_batches get_translation get_similar_phrases finish pairs bs
              (take (S k) starts) w ∅)
    as (new_k & Htr & [Hproc Hrec] & Hfresh & _ & _ & Hlen & Hlast & Hcov).
  destruct (foldl _ _ (take (S k) starts)) as [wk resk] eqn:Hfold.
  cbn [fst snd] in *.
  destruct (glosbe_foldl_batches get_translation get_similar_phrases finish pairs bs
              (drop (S k) starts) wk resk)
    as (later & Htr' & _ & Hfresh' & _).
  cbv zeta in Htr'.
  assert (take (S k) starts ≠ []) as Hne.
  { destruct starts as [|i starts']; [simpl in Hk; lia|done]. }
  destruct (Hlast Hne) as [Hjson Hsnapshot].
  assert (list_to_set (C := gset string) (glosbe_submitted new_k)
          = Glosbe.processed_words (Glosbe.self wk)
            ∖ Glosbe.processed_words (Glosbe.self w)) as Hset.
  { rewrite Hproc. apply set_eq. intros x. rewrite elem_of_difference elem_of_union.
    rewrite elem_of_list_to_set. split.
    - intros Hx. split; [by left|]. by destruct (Hfresh x Hx).
    - by intros [[?|?] ?]. }
  exists wk, resk, new_k, later. split; [done|]. split; [done|].
  split; [done|].
  split; [rewrite Hlen length_take; lia|]. split; [done|]. split; [done|].
  split.
  { rewrite Hjson -{1}(run_ops_write_json _ None). apply glosbe_load_after_write. }
  split; [by rewrite -Hset|]. split.
  - intros j p Hj Hp. apply (Hcov (j * bs) p); [|done].
    rewrite Hstarts batch_starts_take; last (rewrite -Hstarts; lia).
    apply list_elem_of_fmap. exists j. split; [done|]. apply elem_of_seq. lia.
  - intros x Hx. by destruct (Hfresh' x Hx).
Qed.

(** C8: with a positive batch size, [process_words] of either builder
    returns, and what it appends to the trace is one block per batch,
    in the order of the batches: the submissions of the batch, then the
    [save_progress] of the whole builder state with the batch
    processed, and only then the next batch. The batches are the
    consecutive slices of the work list. After every batch, not only
    the last: when the loop has run its first [k + 1] iterations, the
    trace holds [k + 1] checkpoints, the last of them being the builder
    state at that point; [progress.json] holds the dump of that state,
    from which [load_progress] restores it; the state records every
    word of the batches run so far with the outcome of its task; and
    what is submitted afterwards is not in that checkpoint. *)
Theorem checkpoint_after_every_batch
    (pairs : list (string * string)) (batch_size : nat) :
  batch_size ≠ 0 →
  concat ((λ i, take batch_size (drop i pairs))
            <$> batch_starts (length pairs) batch_size) = pairs ∧
  (∀ get_translation finish w,
     ∃ w' res' new,
       Google.process_words get_translation finish pairs batch_size w
         = Returned (w', res') ∧
       Google.trace w' = Google.trace w ++ new ∧
       google_checkpointed pairs batch_size
         (Google.processed_words (Google.self w))
         (batch_starts (length pairs) batch_size) new ∧
       (pairs ≠ [] →
          Google.progress_json w'
            = Some (dumps (Google.progress_data (Google.self w') res')) ∧
          last (google_checkpoints new) = Some (Google.self w')) ∧
       google_after_batches get_translation finish pairs batch_size w
         (length (batch_starts (length pairs) batch_size)) = (w', res') ∧
       ∀ k, k < length (batch_starts (length pairs) batch_size) →
         ∃ wk resk new_k later,
           google_after_batches get_translation finish pairs batch_size w (S k)
             = (wk, resk) ∧
           Google.trace wk = Google.trace w ++ new_k ∧
           new = new_k ++ later ∧
           length (google_checkpoints new_k) = S k ∧
           last (google_checkpoints new_k) = Some (Google.self wk) ∧
           Google.progress_json wk
             = Some (dumps (Google.progress_data (Google.self wk) resk)) ∧
           Google.load_progress
             (Google.World Google.init (Google.progress_json wk) [])
             = Returned (Google.World (Google.self wk)
                           (Google.progress_json wk) []) ∧
           google_recorded get_translation (Google.self w) (Google.self wk)
             (Google.processed_words (Google.self wk)
              ∖ Google.processed_words (Google.self w)) ∧
           (∀ j p, j ≤ k → p ∈ take batch_size (drop (j * batch_size) pairs) →
                   p.1 ∈ Google.processed_words (Google.self wk)) ∧
           (∀ x, x ∈ google_submitted later →
                 x ∉ Google.processed_words (Google.self wk))) ∧
  (∀ get_translation get_similar_phrases finish w,
     ∃ w' res' new,
       Glosbe.process_words get_translation get_similar_phrases finish
                            pairs batch_size w = Returned (w', res') ∧
       Glosbe.trace w' = Glosbe.trace w ++ new ∧
       glosbe_checkpointed pairs batch_size
         (Glosbe.processed_words (Glosbe.self w))
         (batch_starts (length pairs) batch_size) new ∧
       (pairs ≠ [] →
          Glosbe.progress_json w'
            = Some (dumps (Glosbe.progress_data (Glosbe.self w') res')) ∧
          last (glosbe_checkpoints new) = Some (Glosbe.self w')) ∧
       glosbe_after_batches get_translation get_similar_phrases finish
         pairs batch_size w
         (length (batch_starts (length pairs) batch_size)) = (w', res') ∧
       ∀ k, k < length (batch_starts (length pairs) batch_size) →
         ∃ wk resk new_k later,
           glosbe_after_batches get_translation get_similar_phrases finish
             pairs batch_size w (S k) = (wk, resk) ∧
           Glosbe.trace wk = Glosbe.trace w ++ new_k ∧
           new = new_k ++ later ∧
           length (glosbe_checkpoints new_k) = S k ∧
           last (glosbe_checkpoints new_k) = Some (Glosbe.self wk) ∧
           Glosbe.progress_json wk
             = Some (dumps (Glosbe.progress_data (Glosbe.self wk) resk)) ∧
           Glosbe.load_progress
             (Glosbe.World Glosbe.init (Glosbe.progress_json wk) [])
             = Returned (Glosbe.World (Glosbe.self wk)
                           (Glosbe.progress_json wk) []) ∧
           glosbe_recorded get_translation get_similar_phrases
             (Glosbe.self w) (Glosbe.self wk)
             (Glosbe.processed_words (Glosbe.self wk)
              ∖ Glosbe.processed_words (Glosbe.self w)) ∧
           (∀ j p, j ≤ k → p ∈ take batch_size (drop (j * batch_size) pairs) →
                   p.1 ∈ Glosbe.processed_words (Glosbe.self wk)) ∧
           (∀ x, x ∈ glosbe_submitted later →
                 x ∉ Glosbe.processed_words (Glosbe.self wk))).
Proof.
  intros Hbs. split; [by apply batches_concat|]. split.
  - intros get_translation finish w.
    destruct (google_process_words_spec get_translation finish pairs batch_size w Hbs)
      as (w' & res' & new & Hpw & Htr & _ & _ & _ & _ & Hlast).
    exists w', res', new. split; [done|]. split; [done|].
    assert (google_after_batches get_translation finish pairs batch_size w
              (length (batch_starts (length pairs) batch_size)) = (w', res'))
      as Hall.
    { revert Hpw. rewrite /Google.process_words /google_after_batches firstn_all.
      case_decide; [done|]. by intros [= ->]. }
    split; [|split; [done|split; [done|]]].
    { revert Hpw Htr. rewrite /Google.process_words decide_False //.
      destruct (google_foldl_checkpointed get_translation finish pairs batch_size
                  (batch_starts (length pairs) batch_size) w ∅)
        as (new' & Htr' & Hcp).
      intros [= Hfold]. rewrite Hfold /= in Htr'. rewrite Htr'.
      by intros ->%(inj (app _)). }
    intros k Hk.
    destruct (google_after_batches_spec get_translation finish pairs batch_size w k Hk)
      as (wk & resk & new_k & later & Hk1 & Hk2 & Hk3 & Hrest).
    exists wk, resk, new_k, later. split; [done|]. split; [done|].
    split; [|done].
    rewrite Hall /= Htr Hk2 -app_assoc in Hk3. by apply (inj (app _)) in Hk3.
  - intros get_translation get_similar_phrases finish w.
    destruct (glosbe_process_words_spec get_translation get_similar_phrases
                finish pairs batch_size w Hbs)
      as (w' & res' & new & Hpw & Htr & _ & _ & _ & _ & Hlast).
    exists w', res', new. split; [done|]. split; [done|].
    assert (glosbe_after_batches get_translation get_similar_phrases finish
              pairs batch_size w
              (length (batch_starts (length pairs) batch_size)) = (w', res'))
      as Hall.
    { revert Hpw. rewrite /Glosbe.process_words /glosbe_after_batches firstn_all.
      case_decide; [done|]. by intros [= ->]. }
    split; [|split; [done|split; [done|]]].
    { revert Hpw Htr. rewrite /Glosbe.process_words decide_False //.
      destruct (glosbe_foldl_checkpointed get_translation get_similar_phrases
                  finish pairs batch_size
                  (batch_starts (length pairs) batch_size) w ∅)
        as (new' & Htr' & Hcp).
      intros [= Hfold]. rewrite Hfold /= in Htr'. rewrite Htr'.
      by intros ->%(inj (app _)). }
    intros k Hk.
    destruct (glosbe_after_batches_spec get_translation get_similar_phrases finish
                pairs batch_size w k Hk)
      as (wk & resk & new_k & later & Hk1 & Hk2 & Hk3 & Hrest).
    exists wk, resk, new_k, later. split; [done|]. split; [done|].
    split; [|done].
    rewrite Hall /= Htr Hk2 -app_assoc in Hk3. by apply (inj (app _)) in Hk3.
Qed.

(** The run of three words in batches of two: after the first batch
    the file holds [casa] translated and [xyz123] problematic, before
    [agua] is submitted. *)
Lemma checkpoint_after_every_batch_witness :
  ∃ w' res' new wk resk new_k later,
    Google.process_words scenario_connector scenario_finish
      [("casa", "n"); ("xyz123", ""); ("agua", "n")] 2
      (Google.World Google.init None []) = Returned (w', res') ∧
    Google.trace w' = [] ++ new ∧
    google_checkpointed [("casa", "n"); ("xyz123", ""); ("agua", "n")] 2 ∅ [0; 2] new ∧
    google_after_batches scenario_connector scenario_finish
      [("casa", "n"); ("xyz123", ""); ("agua", "n")] 2
      (Google.World Google.init None []) 1 = (wk, resk) ∧
    new = new_k ++ later ∧
    length (google_checkpoints new_k) = 1 ∧
    last (google_checkpoints new_k) = Some (Google.self wk) ∧
    Google.load_progress (Google.World Google.init (Google.progress_json wk) [])
    = Returned (Google.World (Google.self wk) (Google.progress_json wk) []) ∧
    Google.self wk
    = Google.Builder {[ "casa" := "jib" ]} {[ "casa"; "xyz123" ]} {[ "xyz123" ]} ∧
    google_submitted later = ["agua"].
Proof.
  destruct (checkpoint_after_every_batch
              [("casa", "n"); ("xyz123", ""); ("agua", "n")] 2) as (_ & Hgoogle & _);
    [lia|].
  destruct (Hgoogle scenario_connector scenario_finish
              (Google.World Google.init None []))
    as (w' & res' & new & Hpw & Htr & Hcp & _ & Hall & Hevery).
  destruct (Hevery 0) as (wk & resk & new_k & later & Hk & Htrk & Hnew & Hlen
                          & Hlast & _ & Hload & _); [simpl; lia|].
  exists w', res', new, wk, resk, new_k, later.
  do 8 (split; [assumption|]).
  assert (wk = (google_after_batches scenario_connector scenario_finish
                  [("casa", "n"); ("xyz123", ""); ("agua", "n")] 2
                  (Google.World Google.init None []) 1).1) as Hwk by by rewrite Hk.
  assert (w' = (google_after_batches scenario_connector scenario_finish
                  [("casa", "n"); ("xyz123", ""); ("agua", "n")] 2
                  (Google.World Google.init None []) 2).1) as Hw' by by rewrite Hall.
  split.
  - rewrite Hwk. by vm_compute.
  - assert (Google.trace w' = Google.trace wk ++ later) as Hlater.
    { by rewrite Htr Htrk Hnew app_assoc. }
    assert (google_submitted (Google.trace w')
            = google_submitted (Google.trace wk) ++ google_submitted later) as Hsub.
    { by rewrite Hlater google_submitted_app. }
    remember (google_submitted later) as submitted_later eqn:Hsl. clear Hsl.
    rewrite Hw' Hwk in Hsub. vm_compute in Hsub. by injection Hsub as <-.
Defined.

(** ** The invariants of the progress state *)

Lemma google_recorded_invariant get_translation b0 b K :
  google_invariant b0 →
  google_recorded get_translation b0 b K →
  K ## Google.processed_words b0 →
  google_invariant b.
Proof.
  intros [Hsub Hdisj] [Hproc Hrec] HK. split.
  - intros k Hdom. rewrite Hproc.
    destruct (decide (k ∈ K)) as [Hk|Hk]; [by apply elem_of_union_l|].
    apply elem_of_union_r, Hsub. apply elem_of_dom.
    destruct (Hrec k) as [_ Hout]. destruct (Hout Hk) as [<- _].
    by apply elem_of_dom.
  - intros k Hpb Hdom. destruct (Hrec k) as [Hin Hout].
    destruct (decide (k ∈ K)) as [Hk|Hk].
    + specialize (Hin Hk).
      destruct (valid_translation get_translation k); [by destruct Hin|].
      destruct Hin as [Heq _]. apply (HK k Hk), Hsub, elem_of_dom.
      rewrite -Heq. by apply elem_of_dom.
    + destruct (Hout Hk) as [Heq Hiff]. apply (Hdisj k); [by apply Hiff|].
      apply elem_of_dom. rewrite -Heq. by apply elem_of_dom.
Qed.

Lemma glosbe_recorded_invariant get_translation get_similar_phrases b0 b K :
  glosbe_invariant b0 →
  Glosbe.problematic_words b0 ⊆ Glosbe.processed_words b0 →
  glosbe_recorded get_translation get_similar_phrases b0 b K →
  K ## Glosbe.processed_words b0 →
  glosbe_invariant b ∧ Glosbe.problematic_words b ⊆ Glosbe.processed_words b.
Proof.
  intros [Hsub Hdisj] Hpbsub [Hproc Hrec] HK. split; [split|].
  - intros k Hdom. rewrite Hproc.
    destruct (decide (k ∈ K)) as [Hk|Hk]; [by apply elem_of_union_l|].
    apply elem_of_union_r, Hsub. apply elem_of_dom.
    destruct (Hrec k) as [_ Hout]. destruct (Hout Hk) as [<- _].
    by apply elem_of_dom.
  - intros k Hpb Hdom. destruct (Hrec k) as [Hin Hout].
    destruct (decide (k ∈ K)) as [Hk|Hk].
    + specialize (Hin Hk).
      destruct (glosbe_translation get_translation get_similar_phrases k)
        as [[t ph]|].
      * destruct Hin as (_ & _ & Hiff). apply (HK k Hk), Hpbsub. by apply Hiff.
      * destruct Hin as (Heq & _). apply (HK k Hk), Hsub, elem_of_dom.
        rewrite -Heq. by apply elem_of_dom.
    + destruct (Hout Hk) as (Heq & _ & Hiff). apply (Hdisj k); [by apply Hiff|].
      apply elem_of_dom. rewrite -Heq. by apply elem_of_dom.
  - intros k Hpb. rewrite Hproc.
    destruct (decide (k ∈ K)) as [Hk|Hk]; [by apply elem_of_union_l|].
    apply elem_of_union_r, Hpbsub. destruct (Hrec k) as [_ Hout].
    destruct (Hout Hk) as (_ & _ & Hiff). by apply Hiff.
Qed.

(** C9, amended: the Google builder keeps both invariants (translated
    words are processed; no translated word is problematic) at every
    checkpoint and at the end of [process_words] whenever the state it
    starts from has them, and the recording of a success puts the word
    in [translations], takes it out of [problematic_words] and adds it
    to [processed_words]. The Glosbe builder keeps them when, in
    addition, every problematic word of the starting state is
    processed, which then also holds at every checkpoint. The empty
    state of either builder satisfies all of it. *)
Theorem checkpoints_keep_invariants :
  (google_invariant Google.init ∧ glosbe_invariant Glosbe.init ∧
   Glosbe.problematic_words Glosbe.init ⊆ Glosbe.processed_words Glosbe.init) ∧
  (∀ get_translation finish pairs batch_size w,
     batch_size ≠ 0 →
     google_invariant (Google.self w) →
     ∃ w' res' new,
       Google.process_words get_translation finish pairs batch_size w
         = Returned (w', res') ∧
       Google.trace w' = Google.trace w ++ new ∧
       Forall google_invariant (google_checkpoints new) ∧
       google_invariant (Google.self w')) ∧
  (∀ get_translation b res word flags t,
     valid_translation get_translation word = Some t →
     let b' := (Google.record get_translation (b, res) (word, flags)).1 in
     Google.translations b' !! word = Some t ∧
     (word ∉ Google.problematic_words b') ∧
     word ∈ Google.processed_words b') ∧
  (∀ get_translation get_similar_phrases finish pairs batch_size w,
     batch_size ≠ 0 →
     glosbe_invariant (Glosbe.self w) →
     Glosbe.problematic_words (Glosbe.self w)
       ⊆ Glosbe.processed_words (Glosbe.self w) →
     ∃ w' res' new,
       Glosbe.process_words get_translation get_similar_phrases finish
                            pairs batch_size w = Returned (w', res') ∧
       Glosbe.trace w' = Glosbe.trace w ++ new ∧
       Forall (λ b, glosbe_invariant b ∧
                    Glosbe.problematic_words b ⊆ Glosbe.processed_words b)
              (glosbe_checkpoints new ++ [Glosbe.self w'])).
Proof.
  split; [|split; [|split]].
  - rewrite /google_invariant /glosbe_invariant /= !dom_empty_L. set_solver.
  - intros get_translation finish pairs batch_size w Hbs Hinv.
    destruct (google_process_words_spec get_translation finish pairs batch_size w Hbs)
      as (w' & res' & new & Hpw & Htr & Hrec & _ & _ & Hcp & _).
    exists w', res', new. split; [done|]. split; [done|]. split.
    + eapply Forall_impl; [exact Hcp|]. intros b (K & HrecK & HK).
      by eapply google_recorded_invariant.
    + eapply google_recorded_invariant; [done..|]. set_solver.
  - intros get_translation b res word flags t Hvt.
    destruct (google_record_recorded get_translation b res word flags)
      as [Hproc Hrec].
    destruct (Hrec word) as [Hin _].
    specialize (Hin ltac:(set_solver)). rewrite Hvt in Hin.
    simpl. rewrite Hproc. split; [apply Hin|]. split; [apply Hin|set_solver].
  - intros get_translation get_similar_phrases finish pairs batch_size w
           Hbs Hinv Hpb.
    destruct (glosbe_process_words_spec get_translation get_similar_phrases
                finish pairs batch_size w Hbs)
      as (w' & res' & new & Hpw & Htr & Hrec & _ & _ & Hcp & _).
    exists w', res', new. split; [done|]. split; [done|].
    apply Forall_app. split.
    + eapply Forall_impl; [exact Hcp|]. intros b (K & HrecK & HK).
      by eapply glosbe_recorded_invariant.
    + constructor; [|constructor].
      eapply glosbe_recorded_invariant; [done..|]. set_solver.
Qed.

Lemma checkpoints_keep_invariants_witness :
  ∃ w' res' new,
    Google.process_words scenario_connector scenario_finish
      [("casa", "n"); ("xyz123", ""); ("agua", "n")] 2
      (Google.World checkpoint_one None []) = Returned (w', res') ∧
    Google.trace w' = [] ++ new ∧
    Forall google_invariant (google_checkpoints new) ∧
    google_invariant (Google.self w').
Proof.
  destruct checkpoints_keep_invariants as (_ & Hgoogle & _).
  apply (Hgoogle scenario_connector scenario_finish
           [("casa", "n"); ("xyz123", ""); ("agua", "n")] 2
           (Google.World checkpoint_one None [])); [lia|].
  rewrite /google_invariant /checkpoint_one /=.
  rewrite dom_singleton_L. set_solver.
Defined.

(** C9 as stated fails on the Glosbe builder: a progress file that
    holds [problematic_words = [casa]] and nothing else loads into a
    state with both invariants; the run translates [casa], and the
    checkpoint it writes has [casa] both translated and problematic. *)
Lemma glosbe_succeeded_word_stays_problematic :
  Glosbe.load_progress
    (Glosbe.World Glosbe.init
       (Some (dumps (persisted_json (Persisted None None None (Some ["casa"]) None))))
       [])
  = Returned
      (Glosbe.World retry_state
         (Some (dumps (persisted_json (Persisted None None None (Some ["casa"]) None))))
         []) ∧
  glosbe_invariant retry_state ∧
  ∃ w',
    Glosbe.main scenario_connector scenario_phrases scenario_finish
      (Some (dumps (persisted_json (Persisted None None None (Some ["casa"]) None))))
      (Some ["casa|n"]) = Returned w' ∧
    glosbe_checkpoints (Glosbe.trace w') = [Glosbe.self w'] ∧
    Glosbe.translations (Glosbe.self w') !! "casa" = Some "jib" ∧
    "casa" ∈ Glosbe.problematic_words (Glosbe.self w') ∧
    ¬ glosbe_invariant (Glosbe.self w').
Proof.
  split; [by vm_compute|]. split.
  { rewrite /glosbe_invariant /retry_state /= dom_empty_L. set_solver. }
  eexists. split; [by vm_compute|]. split; [by vm_compute|].
  assert (Glosbe.translations
            (Glosbe.Builder {["casa" := "jib"]} {["casa" := []]} {["casa"]} {["casa"]})
          !! "casa" = Some "jib") as Htr by done.
  split; [by vm_compute|].
  split; [by apply (bool_decide_unpack _); vm_compute|].
  intros [_ Hdisj]. apply (Hdisj "casa").
  - by apply (bool_decide_unpack _); vm_compute.
  - apply elem_of_dom. eexists. by vm_compute.
Qed.

(** ** Failure isolation *)

(** Closed decidable facts, by evaluation. *)
Ltac by_computation := apply (bool_decide_unpack _); vm_compute; exact I.

Lemma unique_pairs_keys pairs :
  list_to_set (C := gset string) (unique_pairs ∅ pairs).*1 = list_to_set pairs.*1.
Proof.
  apply set_eq. intros k. rewrite !elem_of_list_to_set !list_elem_of_fmap. split.
  - intros ([k' f] & -> & Hin). exists (k', f). split; [done|].
    eapply elem_of_sublist; [done|apply unique_pairs_sublist].
  - intros ([k' f] & -> & Hin).
    assert (∀ l : list (string * string), (k', f) ∈ l → ∃ l1 f' l2,
              l = l1 ++ (k', f') :: l2 ∧ k' ∉ l1.*1) as Hfirst.
    { intros l. induction l as [|[k0 f0] l IH]; [by intros ?%elem_of_nil|].
      destruct (decide (k0 = k')) as [->|Hne].
      - intros _. exists [], f0, l. split; [done|set_solver].
      - intros [?|Hl]%elem_of_cons; [by simplify_eq|].
        destruct (IH Hl) as (l1 & f' & l2 & -> & Hl1).
        exists ((k0, f0) :: l1), f', l2. split; [done|]. set_solver. }
    destruct (Hfirst pairs Hin) as (l1 & f' & l2 & Heq & Hl1).
    exists (k', f'). split; [done|]. apply unique_pairs_elem.
    split; [set_solver|]. by exists l1, l2.
Qed.

Lemma google_words_to_process_init pairs :
  Google.words_to_process Google.init pairs = pairs.
Proof.
  rewrite /Google.words_to_process /= elements_empty /=.
  induction pairs as [|p pairs IH]; [done|].
  rewrite filter_cons_True; [|set_solver]. by rewrite IH.
Qed.

Lemma glosbe_words_to_process_init pairs :
  Glosbe.words_to_process Glosbe.init pairs = pairs.
Proof.
  rewrite /Glosbe.words_to_process /=.
  induction pairs as [|p pairs IH]; [done|].
  rewrite filter_cons_True; [|set_solver]. by rewrite IH.
Qed.

(** C6: started without a progress file on a word list in which the
    connector fails for the word [X] (no translation, a blank one, or
    an exception) and succeeds for every other word, [main] returns;
    at the end every other word of the list is in [translations] with
    its translation, [X] is not, [X] is the one problematic word, and
    all the words of the list, [X] included, are processed. Both
    builders. *)
Theorem failure_isolation (lines : list string) (X : string) :
  X ∈ (word_flag_pairs lines).*1 →
  (∀ get_translation finish,
     valid_translation get_translation X = None →
     (∀ k, k ∈ (word_flag_pairs lines).*1 → k ≠ X →
           is_Some (valid_translation get_translation k)) →
     ∃ w',
       Google.main get_translation finish None (Some lines) = Returned w' ∧
       (∀ k, k ∈ (word_flag_pairs lines).*1 → k ≠ X →
             Google.translations (Google.self w') !! k
             = valid_translation get_translation k) ∧
       dom (Google.translations (Google.self w'))
         = list_to_set (word_flag_pairs lines).*1 ∖ {[X]} ∧
       Google.problematic_words (Google.self w') = {[X]} ∧
       Google.processed_words (Google.self w')
         = list_to_set (word_flag_pairs lines).*1) ∧
  (∀ get_translation get_similar_phrases finish,
     glosbe_translation get_translation get_similar_phrases X = None →
     (∀ k, k ∈ (word_flag_pairs lines).*1 → k ≠ X →
           is_Some (glosbe_translation get_translation get_similar_phrases k)) →
     ∃ w',
       Glosbe.main get_translation get_similar_phrases finish None (Some lines)
         = Returned w' ∧
       (∀ k, k ∈ (word_flag_pairs lines).*1 → k ≠ X →
             Glosbe.translations (Glosbe.self w') !! k
             = fst <$> glosbe_translation get_translation get_similar_phrases k) ∧
       dom (Glosbe.translations (Glosbe.self w'))
         = list_to_set (word_flag_pairs lines).*1 ∖ {[X]} ∧
       Glosbe.problematic_words (Glosbe.self w') = {[X]} ∧
       Glosbe.processed_words (Glosbe.self w')
         = list_to_set (word_flag_pairs lines).*1).
Proof.
  intros HX. set (pairs := unique_pairs ∅ (word_flag_pairs lines)).
  assert (∀ k, k ∈ (word_flag_pairs lines).*1 ↔ k ∈ pairs.*1) as Hkeys.
  { intros k. by rewrite -(elem_of_list_to_set (C := gset string))
                         -unique_pairs_keys elem_of_list_to_set. }
  assert (pairs ≠ []) as Hne.
  { apply Hkeys in HX. intros Heq. rewrite Heq in HX. by apply elem_of_nil in HX. }
  split.
  - intros get_translation finish HfailX Hothers.
    destruct (google_process_words_spec get_translation finish pairs 100
                (Google.World Google.init None []))
      as (w1 & res & new & Hpw & _ & [Hproc Hrec] & _); [done|].
    exists (Google.save_yomichan res (Google.save_problematic_words w1)). split.
    { rewrite /Google.main /=. fold pairs.
      by rewrite google_words_to_process_init decide_True // Hpw. }
    cbn [Google.save_yomichan Google.save_problematic_words Google.self].
    simpl in Hproc, Hrec.
    rewrite difference_empty_L in Hproc. setoid_rewrite difference_empty_L in Hrec.
    assert (∀ k, k ∈ (list_to_set pairs.*1 : gset string)
                 ↔ k ∈ (word_flag_pairs lines).*1) as HK.
    { intros k. by rewrite elem_of_list_to_set Hkeys. }
    split; [|split; [|split]].
    + intros k Hk Hne'. destruct (Hrec k) as [Hin _].
      specialize (Hin (proj2 (HK k) Hk)).
      destruct (Hothers k Hk Hne') as [t Ht]. rewrite Ht in Hin |- *. apply Hin.
    + apply set_eq. intros k.
      rewrite elem_of_dom elem_of_difference elem_of_singleton elem_of_list_to_set.
      destruct (Hrec k) as [Hin Hout]. rewrite HK in Hin, Hout.
      destruct (decide (k ∈ (word_flag_pairs lines).*1)) as [Hk|Hk].
      * specialize (Hin Hk). destruct (decide (k = X)) as [->|Hne'].
        -- rewrite HfailX lookup_empty in Hin. destruct Hin as [-> _].
           split; [by intros [??]|by intros [_ ?]].
        -- destruct (Hothers k Hk Hne') as [t Ht]. rewrite Ht in Hin.
           destruct Hin as [-> _]. by split.
      * destruct (Hout Hk) as [-> _]. rewrite lookup_empty.
        split; [by intros [??]|by intros [? _]].
    + apply set_eq. intros k. rewrite elem_of_singleton.
      destruct (Hrec k) as [Hin Hout]. rewrite HK in Hin, Hout.
      destruct (decide (k ∈ (word_flag_pairs lines).*1)) as [Hk|Hk].
      * specialize (Hin Hk). destruct (decide (k = X)) as [->|Hne'].
        -- rewrite HfailX in Hin. by destruct Hin.
        -- destruct (Hothers k Hk Hne') as [t Ht]. rewrite Ht in Hin.
           by destruct Hin.
      * destruct (Hout Hk) as [_ ->]. split; [set_solver|]. by intros ->.
    + rewrite Hproc. apply set_eq. intros k. rewrite elem_of_union HK.
      rewrite elem_of_list_to_set. set_solver.
  - intros get_translation get_similar_phrases finish HfailX Hothers.
    destruct (glosbe_process_words_spec get_translation get_similar_phrases
                finish pairs 25 (Glosbe.World Glosbe.init None []))
      as (w1 & res & new & Hpw & _ & [Hproc Hrec] & _); [done|].
    exists (Glosbe.save_yomichan res
              (Glosbe.save_problematic_words
                 (Glosbe.save_yomichan res (Glosbe.save_problematic_words w1)))).
    split.
    { rewrite /Glosbe.main /=. fold pairs.
      by rewrite glosbe_words_to_process_init decide_False // Hpw. }
    cbn [Glosbe.save_yomichan Glosbe.save_problematic_words Glosbe.self].
    simpl in Hproc, Hrec.
    rewrite difference_empty_L in Hproc. setoid_rewrite difference_empty_L in Hrec.
    assert (∀ k, k ∈ (list_to_set pairs.*1 : gset string)
                 ↔ k ∈ (word_flag_pairs lines).*1) as HK.
    { intros k. by rewrite elem_of_list_to_set Hkeys. }
    split; [|split; [|split]].
    + intros k Hk Hne'. destruct (Hrec k) as [Hin _].
      specialize (Hin (proj2 (HK k) Hk)).
      destruct (Hothers k Hk Hne') as [[t ph] Ht]. rewrite Ht in Hin |- *.
      apply Hin.
    + apply set_eq. intros k.
      rewrite elem_of_dom elem_of_difference elem_of_singleton elem_of_list_to_set.
      destruct (Hrec k) as [Hin Hout]. rewrite HK in Hin, Hout.
      destruct (decide (k ∈ (word_flag_pairs lines).*1)) as [Hk|Hk].
      * specialize (Hin Hk). destruct (decide (k = X)) as [->|Hne'].
        -- rewrite HfailX lookup_empty in Hin. destruct Hin as [-> _].
           split; [by intros [??]|by intros [_ ?]].
        -- destruct (Hothers k Hk Hne') as [[t ph] Ht]. rewrite Ht in Hin.
           destruct Hin as [-> _]. by split.
      * destruct (Hout Hk) as [-> _]. rewrite lookup_empty.
        split; [by intros [??]|by intros [? _]].
    + apply set_eq. intros k. rewrite elem_of_singleton.
      destruct (Hrec k) as [Hin Hout]. rewrite HK in Hin, Hout.
      destruct (decide (k ∈ (word_flag_pairs lines).*1)) as [Hk|Hk].
      * specialize (Hin Hk). destruct (decide (k = X)) as [->|Hne'].
        -- rewrite HfailX in Hin. by destruct Hin as (_ & _ & ?).
        -- destruct (Hothers k Hk Hne') as [[t ph] Ht]. rewrite Ht in Hin.
           destruct Hin as (_ & _ & ->). split; [set_solver|].
           intros ->. by destruct Hne'.
      * destruct (Hout Hk) as (_ & _ & ->). split; [set_solver|]. by intros ->.
    + rewrite Hproc. apply set_eq. intros k. rewrite elem_of_union HK.
      rewrite elem_of_list_to_set. set_solver.
Qed.

Lemma failure_isolation_witness :
  ∃ w',
    Google.main scenario_connector scenario_finish None (Some scenario_words)
      = Returned w' ∧
    Google.translations (Google.self w') !! "casa" = Some "jib" ∧
    Google.translations (Google.self w') !! "agua" = Some "mul" ∧
    Google.translations (Google.self w') !! "xyz123" = None ∧
    Google.problematic_words (Google.self w') = {["xyz123"]} ∧
    Google.processed_words (Google.self w') = {["casa"; "xyz123"; "agua"]}.
Proof.
  assert ((word_flag_pairs scenario_words).*1 = ["casa"; "xyz123"; "agua"])
    as Hkeys by reflexivity.
  destruct (failure_isolation scenario_words "xyz123") as [Hgoogle _].
  { rewrite Hkeys. by_computation. }
  destruct (Hgoogle scenario_connector scenario_finish)
    as (w' & Hmain & Htr & Hdom & Hpb & Hproc).
  { reflexivity. }
  { intros k. rewrite Hkeys.
    intros [->|[->|[->|[]%elem_of_nil]%elem_of_cons]%elem_of_cons]%elem_of_cons Hne;
      [by eexists| |by eexists].
    by destruct Hne. }
  exists w'. split; [done|].
  split; [rewrite Htr; [reflexivity|rewrite Hkeys; by_computation|by_computation]|].
  split; [rewrite Htr; [reflexivity|rewrite Hkeys; by_computation|by_computation]|].
  split.
  { apply not_elem_of_dom. rewrite Hdom elem_of_difference elem_of_singleton.
    by intros [_ []]. }
  split; [done|]. rewrite Hproc Hkeys. by_computation.
Defined.

(** ** The order of the work list *)

(** C4, amended: the work list the Google [main] hands to
    [process_words] has every problematic word of the input before
    every word of the input that is neither processed nor problematic.
    The Glosbe [main] has no such ordering: its work list is the
    unprocessed words of the input, in input order. *)
Theorem work_list_order (pairs : list (string * string)) :
  (∀ b,
     problematic_first (Google.problematic_words b) (Google.processed_words b)
                       pairs.*1 (Google.words_to_process b pairs).*1) ∧
  (∀ b,
     Glosbe.words_to_process b pairs `sublist_of` pairs ∧
     ∀ p, p ∈ Glosbe.words_to_process b pairs
          ↔ p ∈ pairs ∧ p.1 ∉ Glosbe.processed_words b).
Proof.
  split.
  - intros b k j Hk Hkin Hjin Hjproc Hjpb.
    apply py_dict_is_Some in Hkin as [f Hf].
    apply list_elem_of_fmap in Hjin as ([j' fj] & -> & Hjin).
    assert ((k, f) ∈ omap (λ word, pair word <$> py_dict pairs !! word)
                          (elements (Google.problematic_words b))) as Hretry.
    { apply list_elem_of_omap. exists k. split; [by apply elem_of_elements|].
      by rewrite Hf. }
    assert ((j', fj) ∈ filter (λ p, (p.1 ∉ Google.processed_words b) ∧
                                    (p.1 ∉ Google.problematic_words b)) pairs)
      as Hregular.
    { by apply list_elem_of_filter. }
    apply list_elem_of_split in Hretry as (r1 & r2 & Hr).
    apply list_elem_of_split in Hregular as (g1 & g2 & Hg).
    exists r1.*1, (r2.*1 ++ g1.*1), g2.*1.
    rewrite /Google.words_to_process Hr Hg.
    by rewrite !fmap_app !fmap_cons /= -!app_assoc.
  - intros b. split; [apply sublist_filter|].
    intros p. rewrite /Glosbe.words_to_process list_elem_of_filter. tauto.
Qed.

(** C4 as stated fails: in the Glosbe work list a word that failed
    before is absent, so it does not stand before the new word; and in
    a resumed run of the Google builder the submissions skip the
    problematic word although it heads the work list. *)
Lemma problematic_word_not_retried_first :
  ¬ problematic_first
      (Glosbe.problematic_words failed_once) (Glosbe.processed_words failed_once)
      ["agua"; "xyz123"]
      (Glosbe.words_to_process failed_once [("agua", "n"); ("xyz123", "")]).*1 ∧
  ∃ w1 w2,
    Google.main scenario_connector scenario_finish None (Some ["casa|n"; "xyz123"])
      = Returned w1 ∧
    Google.problematic_words (Google.self w1) = {["xyz123"]} ∧
    Google.main scenario_connector scenario_finish (Google.progress_json w1)
                (Some scenario_words) = Returned w2 ∧
    google_submitted (Google.trace w2) = ["agua"] ∧
    ¬ problematic_first
        (Google.problematic_words (Google.self w1))
        (Google.processed_words (Google.self w1))
        ["casa"; "xyz123"; "agua"]
        (google_submitted (Google.trace w2)).
Proof.
  assert (∀ P Q : gset string,
            "xyz123" ∈ P → "agua" ∉ Q → "agua" ∉ P →
            ¬ problematic_first P Q ["agua"; "xyz123"] ["agua"] ∧
            ¬ problematic_first P Q ["casa"; "xyz123"; "agua"] ["agua"]) as Hno.
  { intros P Q HP HQ HP'. split; intros Hfirst;
      (destruct (Hfirst "xyz123" "agua") as (s1 & s2 & s3 & Heq);
       [done|by_computation|by_computation|done|done|]);
      apply (f_equal length) in Heq;
      rewrite length_app /= length_app /= in Heq; lia. }
  split.
  - apply Hno; by_computation.
  - eexists _, _. split; [by vm_compute|]. split; [by_computation|].
    split; [by vm_compute|]. split; [by vm_compute|].
    apply Hno; by_computation.
Qed.

(** ** The final artifact *)

(** C1 at a resumed run with work to do: the first run translates
    [casa]; the second run loads its progress file, translates [agua],
    and ends with both words in [translations]. The Google builder then
    calls [save_yomichan] once, the Glosbe builder twice, and each call
    receives the entries of the second run only. *)
Lemma final_writer_receives_current_run_only :
  (∃ w1 w2,
     Google.main scenario_connector scenario_finish None (Some ["casa|n"])
       = Returned w1 ∧
     Google.main scenario_connector scenario_finish (Google.progress_json w1)
                 (Some scenario_words) = Returned w2 ∧
     Google.translations (Google.self w2) = {["casa" := "jib"; "agua" := "mul"]} ∧
     google_written (Google.trace w2) = [ {["agua" := ("mul", "n")]} ]) ∧
  (∃ w1 w2,
     Glosbe.main scenario_connector scenario_phrases scenario_finish None
                 (Some ["casa|n"]) = Returned w1 ∧
     Glosbe.main scenario_connector scenario_phrases scenario_finish
                 (Glosbe.progress_json w1) (Some scenario_words) = Returned w2 ∧
     Glosbe.translations (Glosbe.self w2) = {["casa" := "jib"; "agua" := "mul"]} ∧
     glosbe_written (Glosbe.trace w2)
       = [ {["agua" := ("mul", "n", [])]}; {["agua" := ("mul", "n", [])]} ]).
Proof.
  split.
  - eexists _, _. split; [by vm_compute|]. split; [by vm_compute|].
    split; by_computation.
  - eexists _, _. split; [by vm_compute|]. split; [by vm_compute|].
    split; by_computation.
Qed.

(** * Further properties of the builders *)

(** ** The word list: clean keys *)

Lemma parse_line_clean raw word flags :
  parse_line raw = Some (word, flags) →
  strip word = word ∧ strip flags = flags ∧
  ¬ In sep (list_ascii_of_string word) ∧
  startswith comment_marker word = false.
Proof.
  rewrite /parse_line.
  destruct (strip_head raw) as [->|(c & line & Hline & Hc)]; [done|].
  pose proof (strip_idemp raw) as Hidemp.
  remember (strip raw) as l eqn:Hl. clear Hl.
  rewrite bool_decide_eq_true_2; [|by rewrite Hline].
  destruct (startswith comment_marker l) eqn:Hcomment; [done|]. cbn [negb andb].
  rewrite /contains.
  destruct (split_first sep l) as [[a b]|] eqn:Hsplit.
  - rewrite bool_decide_eq_true_2 //. intros [= <- <-].
    apply split_first_Some in Hsplit as [Heq Hsep].
    split; [apply strip_idemp|]. split; [apply strip_idemp|].
    split; [by intros ?%strip_chars|].
    destruct a as [|c' a]; [done|]. rewrite Hline in Heq, Hcomment.
    change (String c line = String c' (a +:+ String sep b)) in Heq.
    injection Heq as <- _.
    rewrite /strip /= Hc. destruct (rstrip_head c a Hc) as [r ->].
    exact Hcomment.
  - rewrite bool_decide_eq_false_2; [|by intros [??]]. intros [= <- <-].
    apply split_first_None in Hsplit. by rewrite Hidemp.
Qed.

(** Every pair [load_word_list] returns has a word and flags without
    surrounding white space; the word contains no separator and does
    not start with the comment marker. *)
Theorem load_word_list_clean_keys (lines : list string) pairs word flags :
  load_word_list (Some lines) = Returned pairs →
  (word, flags) ∈ pairs →
  strip word = word ∧ strip flags = flags ∧
  ¬ In sep (list_ascii_of_string word) ∧
  startswith comment_marker word = false.
Proof.
  intros [= <-] Hin.
  apply unique_pairs_elem in Hin as (_ & l1 & l2 & Heq & _).
  apply omap_app_cons_inv in Heq as (_ & raw & _ & _ & Hraw & _).
  by eapply parse_line_clean.
Qed.

Lemma load_word_list_clean_keys_witness :
  strip "agua" = "agua" ∧ strip "n|m" = "n|m" ∧
  ¬ In sep (list_ascii_of_string "agua") ∧
  startswith comment_marker "agua" = false.
Proof.
  apply (load_word_list_clean_keys
           ["  agua |  n|m "; "# agua"] [("agua", "n|m")] "agua" "n|m").
  - reflexivity.
  - apply list_elem_of_here.
Defined.

(** ** The word list: repeated lines *)

Lemma unique_pairs_seen seen pairs :
  (∀ p, p ∈ pairs → p.1 ∈ seen) → unique_pairs seen pairs = [].
Proof.
  induction pairs as [|[w f] pairs IH]; [done|]. intros Hall. simpl.
  rewrite decide_True; [|apply (Hall (w, f)), list_elem_of_here].
  apply IH. intros p Hp. apply Hall. by apply list_elem_of_further.
Qed.

Lemma unique_pairs_app seen l1 l2 :
  unique_pairs seen (l1 ++ l2)
  = unique_pairs seen l1 ++ unique_pairs (list_to_set l1.*1 ∪ seen) l2.
Proof.
  revert seen. induction l1 as [|[w f] l1 IH]; intros seen; simpl.
  - by rewrite (left_id_L ∅ (∪)).
  - destruct (decide (w ∈ seen)) as [Hw|Hw].
    + rewrite IH. do 2 f_equal. set_solver.
    + rewrite IH /=. do 3 f_equal. set_solver.
Qed.

(** Lines that yield no pair (blank lines, comments) or a key that the
    file already has change nothing when appended. *)
Theorem load_word_list_ignores_repeats (lines extra : list string) :
  (∀ l w f, l ∈ extra → parse_line l = Some (w, f) →
            w ∈ (word_flag_pairs lines).*1) →
  load_word_list (Some (lines ++ extra)) = load_word_list (Some lines).
Proof.
  intros Hextra. rewrite /load_word_list /word_flag_pairs omap_app.
  rewrite unique_pairs_app.
  rewrite (unique_pairs_seen (list_to_set (omap parse_line lines).*1 ∪ ∅)
             (omap parse_line extra)) ?app_nil_r //.
  intros [w f] (l & Hl & Hp)%list_elem_of_omap.
  apply elem_of_union_l, elem_of_list_to_set. by eapply Hextra.
Qed.

Lemma load_word_list_ignores_repeats_witness :
  load_word_list (Some (["casa|n"; "agua"] ++ ["# note"; ""; "casa|other"]))
  = load_word_list (Some ["casa|n"; "agua"]).
Proof.
  apply load_word_list_ignores_repeats.
  intros l w f.
  intros [->|[->|[->|[]%elem_of_nil]%elem_of_cons]%elem_of_cons]%elem_of_cons;
    [done|done|].
  intros [= <- <-]. apply list_elem_of_here.
Defined.

(** ** The order in which the futures complete *)

Lemma foldl_permutation_keys {S A} (f : S → A → S) (key : A → string) :
  (∀ s x y, key x ≠ key y → f (f s x) y = f (f s y) x) →
  ∀ l1 l2, l1 ≡ₚ l2 → NoDup (key <$> l1) → ∀ s, foldl f s l1 = foldl f s l2.
Proof.
  intros Hcomm l1 l2 Hperm.
  induction Hperm as [|x l1 l2 _ IH|x y l|l1 l2 l3 H12 IH12 H23 IH23];
    intros Hnd s.
  - done.
  - simpl. apply IH. by apply NoDup_cons in Hnd as [_ ?].
  - simpl. rewrite Hcomm //.
    apply NoDup_cons in Hnd as [Hy _]. intros Heq. apply Hy. rewrite Heq /=.
    apply list_elem_of_here.
  - rewrite IH12 //. apply IH23. by rewrite -H12.
Qed.

(** The body of the completion loop, by the validity of the answer. *)
Lemma google_record_eq get_translation b res word flags :
  Google.record get_translation (b, res) (word, flags)
  = match valid_translation get_translation word with
    | Some t =>
        (Google.Builder (<[word := t]> (Google.translations b))
                        ({[word]} ∪ Google.processed_words b)
                        (Google.problematic_words b ∖ {[word]}),
         <[word := (t, flags)]> res)
    | None =>
        (Google.Builder (Google.translations b)
                        ({[word]} ∪ Google.processed_words b)
                        ({[word]} ∪ Google.problematic_words b),
         res)
    end.
Proof.
  rewrite /Google.record google_process_word_valid.
  destruct (valid_translation get_translation word) as [t|] eqn:Hvt; [|done].
  apply valid_translation_nonempty in Hvt. by rewrite decide_True.
Qed.

Lemma google_record_comm get_translation st p q :
  p.1 ≠ q.1 →
  Google.record get_translation (Google.record get_translation st p) q
  = Google.record get_translation (Google.record get_translation st q) p.
Proof.
  destruct st as [b res], p as [w f], q as [w' f']. intros Hne. simpl in Hne.
  rewrite (google_record_eq _ b res w) (google_record_eq _ b res w').
  destruct (valid_translation get_translation w) as [tw|] eqn:Hw;
    destruct (valid_translation get_translation w') as [tw'|] eqn:Hw';
    rewrite !google_record_eq Hw Hw' /=;
    (apply (f_equal2 pair); [apply (f_equal3 Google.Builder)|]);
    try (by apply insert_insert_ne); try done; set_solver.
Qed.

Lemma glosbe_record_eq get_translation get_similar_phrases b res word flags :
  Glosbe.record get_translation get_similar_phrases (b, res) (word, flags)
  = match glosbe_translation get_translation get_similar_phrases word with
    | Some (t, phrases) =>
        (Glosbe.Builder (<[word := t]> (Glosbe.translations b))
                        (<[word := phrases]> (Glosbe.examples b))
                        ({[word]} ∪ Glosbe.processed_words b)
                        (Glosbe.problematic_words b),
         <[word := (t, flags, phrases)]> res)
    | None =>
        (Glosbe.Builder (Glosbe.translations b) (Glosbe.examples b)
                        ({[word]} ∪ Glosbe.processed_words b)
                        ({[word]} ∪ Glosbe.problematic_words b),
         res)
    end.
Proof.
  rewrite /Glosbe.record /Glosbe.process_word /glosbe_translation.
  destruct (get_translation word) as [[t|]|e];
    destruct (get_similar_phrases word) as [ph|e']; try done.
  case_decide as Hs; [done|]. by rewrite decide_True.
Qed.

Lemma glosbe_record_comm get_translation get_similar_phrases st p q :
  p.1 ≠ q.1 →
  Glosbe.record get_translation get_similar_phrases
    (Glosbe.record get_translation get_similar_phrases st p) q
  = Glosbe.record get_translation get_similar_phrases
      (Glosbe.record get_translation get_similar_phrases st q) p.
Proof.
  destruct st as [b res], p as [w f], q as [w' f']. intros Hne. simpl in Hne.
  rewrite (glosbe_record_eq _ _ b res w) (glosbe_record_eq _ _ b res w').
  destruct (glosbe_translation get_translation get_similar_phrases w)
    as [[tw ph]|] eqn:Hw;
    destruct (glosbe_translation get_translation get_similar_phrases w')
      as [[tw' ph']|] eqn:Hw';
    rewrite !glosbe_record_eq Hw Hw' /=;
    (apply (f_equal2 pair); [apply (f_equal4 Glosbe.Builder)|]);
    try (by apply insert_insert_ne); try done; set_solver.
Qed.

Lemma batch_todo_NoDup (pairs : list (string * string)) bs i (P : gset string) :
  NoDup pairs.*1 →
  NoDup (filter (λ p, p.1 ∉ P) (take bs (drop i pairs))).*1.
Proof.
  intros Hnd. eapply sublist_NoDup; [done|].
  apply (fmap_sublist fst _ pairs).
  etrans; [apply sublist_filter|]. etrans; [apply sublist_take|].
  apply sublist_drop.
Qed.

Lemma foldl_ext_in {S A} (f g : S → A → S) (l : list A) s :
  (∀ s x, f s x = g s x) → foldl f s l = foldl g s l.
Proof.
  intros Heq. revert s. induction l as [|x l IH]; intros s; [done|].
  by rewrite /= Heq IH.
Qed.

(** On the embedding, where a dictionary is a finite map and the order
    of its keys is not kept, two runs that differ in the completion
    order only coincide. *)
Lemma completion_order_embedding :
  (∀ get_translation st l1 l2,
     l1 ≡ₚ l2 → NoDup l1.*1 →
     foldl (Google.record get_translation) st l1
     = foldl (Google.record get_translation) st l2) ∧
  (∀ get_translation finish1 finish2 pairs batch_size w,
     NoDup pairs.*1 →
     Google.process_words get_translation finish1 pairs batch_size w
     = Google.process_words get_translation finish2 pairs batch_size w) ∧
  (∀ get_translation finish1 finish2 d word_list,
     Google.main get_translation finish1 d word_list
     = Google.main get_translation finish2 d word_list) ∧
  (∀ get_translation get_similar_phrases st l1 l2,
     l1 ≡ₚ l2 → NoDup l1.*1 →
     foldl (Glosbe.record get_translation get_similar_phrases) st l1
     = foldl (Glosbe.record get_translation get_similar_phrases) st l2) ∧
  (∀ get_translation get_similar_phrases finish1 finish2 pairs batch_size w,
     NoDup pairs.*1 →
     Glosbe.process_words get_translation get_similar_phrases finish1
                          pairs batch_size w
     = Glosbe.process_words get_translation get_similar_phrases finish2
                            pairs batch_size w) ∧
  (∀ get_translation get_similar_phrases finish1 finish2 d word_list,
     Glosbe.main get_translation get_similar_phrases finish1 d word_list
     = Glosbe.main get_translation get_similar_phrases finish2 d word_list).
Proof.
  assert (∀ get_translation st l1 l2,
            l1 ≡ₚ l2 → NoDup l1.*1 →
            foldl (Google.record get_translation) st l1
            = foldl (Google.record get_translation) st l2) as Hgoogle.
  { intros get_translation st l1 l2 Hperm Hnd.
    apply (foldl_permutation_keys _ fst); [|done..].
    intros. by apply google_record_comm. }
  assert (∀ get_translation finish1 finish2 pairs batch_size w,
            NoDup pairs.*1 →
            Google.process_words get_translation finish1 pairs batch_size w
            = Google.process_words get_translation finish2 pairs batch_size w)
    as Hgoogle_pw.
  { intros get_translation finish1 finish2 pairs batch_size w Hnd.
    rewrite /Google.process_words. case_decide; [done|]. f_equal.
    apply foldl_ext_in. intros [w1 res1] i. rewrite /Google.process_batch.
    cbv zeta.
    set (todo := filter (λ p, p.1 ∉ Google.processed_words (Google.self w1))
                        (take batch_size (drop i pairs))).
    rewrite (Hgoogle get_translation (Google.self w1, res1)
               (as_completed finish1 todo) (as_completed finish2 todo)) //.
    - by rewrite /as_completed !merge_sort_Permutation.
    - rewrite /as_completed merge_sort_Permutation. by apply batch_todo_NoDup. }
  assert (∀ get_translation get_similar_phrases st l1 l2,
            l1 ≡ₚ l2 → NoDup l1.*1 →
            foldl (Glosbe.record get_translation get_similar_phrases) st l1
            = foldl (Glosbe.record get_translation get_similar_phrases) st l2)
    as Hglosbe.
  { intros get_translation get_similar_phrases st l1 l2 Hperm Hnd.
    apply (foldl_permutation_keys _ fst); [|done..].
    intros. by apply glosbe_record_comm. }
  assert (∀ get_translation get_similar_phrases finish1 finish2 pairs batch_size w,
            NoDup pairs.*1 →
            Glosbe.process_words get_translation get_similar_phrases finish1
                                 pairs batch_size w
            = Glosbe.process_words get_translation get_similar_phrases finish2
                                   pairs batch_size w) as Hglosbe_pw.
  { intros get_translation get_similar_phrases finish1 finish2 pairs batch_size w Hnd.
    rewrite /Glosbe.process_words. case_decide; [done|]. f_equal.
    apply foldl_ext_in. intros [w1 res1] i. rewrite /Glosbe.process_batch.
    cbv zeta.
    set (todo := filter (λ p, p.1 ∉ Glosbe.processed_words (Glosbe.self w1))
                        (take batch_size (drop i pairs))).
    rewrite (Hglosbe get_translation get_similar_phrases (Glosbe.self w1, res1)
               (as_completed finish1 todo) (as_completed finish2 todo)) //.
    - by rewrite /as_completed !merge_sort_Permutation.
    - rewrite /as_completed merge_sort_Permutation. by apply batch_todo_NoDup. }
  split; [done|]. split; [done|]. split; [|split; [done|split; [done|]]].
  - intros get_translation finish1 finish2 d word_list. rewrite /Google.main.
    destruct (Google.load_progress _) as [w0| | |]; try done.
    destruct (load_word_list word_list) as [pairs| | |] eqn:Hload; try done.
    cbv zeta. case_decide; [|done].
    rewrite (Hgoogle_pw get_translation finish1 finish2) //.
    apply google_words_to_process_NoDup.
    destruct word_list; simplify_eq/=. apply unique_pairs_NoDup.
  - intros get_translation get_similar_phrases finish1 finish2 d word_list.
    rewrite /Glosbe.main.
    destruct (Glosbe.load_progress _) as [w0| | |]; try done.
    destruct (load_word_list word_list) as [pairs| | |] eqn:Hload; try done.
    cbv zeta. case_decide; [done|].
    rewrite (Hglosbe_pw get_translation get_similar_phrases finish1 finish2) //.
    apply glosbe_words_to_process_NoDup.
    destruct word_list; simplify_eq/=. apply unique_pairs_NoDup.
Qed.

Lemma Forall2_same {A} (P : A → A → Prop) (l : list A) :
  (∀ x, P x x) → Forall2 P l l.
Proof. intros HP. induction l; by constructor. Qed.

(** The order in which the futures of a batch complete does not change
    what a run computes: for a work list of distinct words, with either
    of two completion orders [process_words] returns, and the two runs
    end with builder states of the same contents, results of the same
    contents, the same submissions in the same order and checkpoints
    of the same contents; two returning runs of [main] likewise end
    with the same contents, submissions and mappings handed to
    [save_yomichan]. The order of the keys inside the dictionaries,
    and with it the text of the files, follows the completion order
    and is not part of the statement. Both builders. *)
Theorem completion_order_irrelevant :
  (∀ get_translation finish1 finish2 pairs batch_size w,
     NoDup pairs.*1 → batch_size ≠ 0 →
     ∃ w1 res1 w2 res2,
       Google.process_words get_translation finish1 pairs batch_size w
         = Returned (w1, res1) ∧
       Google.process_words get_translation finish2 pairs batch_size w
         = Returned (w2, res2) ∧
       google_same_contents (Google.self w1) (Google.self w2) ∧
       same_mapping res1 res2 ∧
       google_submitted (Google.trace w1) = google_submitted (Google.trace w2) ∧
       Forall2 google_same_contents
               (google_checkpoints (Google.trace w1))
               (google_checkpoints (Google.trace w2))) ∧
  (∀ get_translation finish1 finish2 d word_list w1,
     Google.main get_translation finish1 d word_list = Returned w1 →
     ∃ w2,
       Google.main get_translation finish2 d word_list = Returned w2 ∧
       google_same_contents (Google.self w1) (Google.self w2) ∧
       google_submitted (Google.trace w1) = google_submitted (Google.trace w2) ∧
       Forall2 same_mapping (google_written (Google.trace w1))
                            (google_written (Google.trace w2))) ∧
  (∀ get_translation get_similar_phrases finish1 finish2 pairs batch_size w,
     NoDup pairs.*1 → batch_size ≠ 0 →
     ∃ w1 res1 w2 res2,
       Glosbe.process_words get_translation get_similar_phrases finish1
                            pairs batch_size w = Returned (w1, res1) ∧
       Glosbe.process_words get_translation get_similar_phrases finish2
                            pairs batch_size w = Returned (w2, res2) ∧
       glosbe_same_contents (Glosbe.self w1) (Glosbe.self w2) ∧
       same_mapping res1 res2 ∧
       glosbe_submitted (Glosbe.trace w1) = glosbe_submitted (Glosbe.trace w2) ∧
       Forall2 glosbe_same_contents
               (glosbe_checkpoints (Glosbe.trace w1))
               (glosbe_checkpoints (Glosbe.trace w2))) ∧
  (∀ get_translation get_similar_phrases finish1 finish2 d word_list w1,
     Glosbe.main get_translation get_similar_phrases finish1 d word_list
       = Returned w1 →
     ∃ w2,
       Glosbe.main get_translation get_similar_phrases finish2 d word_list
         = Returned w2 ∧
       glosbe_same_contents (Glosbe.self w1) (Glosbe.self w2) ∧
       glosbe_submitted (Glosbe.trace w1) = glosbe_submitted (Glosbe.trace w2) ∧
       Forall2 same_mapping (glosbe_written (Glosbe.trace w1))
                            (glosbe_written (Glosbe.trace w2))).
Proof.
  destruct completion_order_embedding
    as (_ & Hgoogle_pw & Hgoogle_main & _ & Hglosbe_pw & Hglosbe_main).
  split; [|split; [|split]].
  - intros get_translation finish1 finish2 pairs batch_size w Hnd Hbs.
    destruct (google_process_words_spec get_translation finish1 pairs batch_size
                w Hbs) as (w1 & res1 & _ & Hpw & _).
    exists w1, res1, w1, res1. split; [done|].
    split; [by rewrite -(Hgoogle_pw get_translation finish1 finish2)|].
    split; [done|]. split; [done|]. split; [done|]. by apply Forall2_same.
  - intros get_translation finish1 finish2 d word_list w1 Hmain.
    exists w1. split; [by rewrite -(Hgoogle_main get_translation finish1 finish2)|].
    split; [done|]. split; [done|]. by apply Forall2_same.
  - intros get_translation get_similar_phrases finish1 finish2 pairs batch_size
           w Hnd Hbs.
    destruct (glosbe_process_words_spec get_translation get_similar_phrases
                finish1 pairs batch_size w Hbs) as (w1 & res1 & _ & Hpw & _).
    exists w1, res1, w1, res1. split; [done|].
    split; [by rewrite -(Hglosbe_pw get_translation get_similar_phrases
                           finish1 finish2)|].
    split; [done|]. split; [done|]. split; [done|]. by apply Forall2_same.
  - intros get_translation get_similar_phrases finish1 finish2 d word_list w1 Hmain.
    exists w1.
    split; [by rewrite -(Hglosbe_main get_translation get_similar_phrases
                           finish1 finish2)|].
    split; [done|]. split; [done|]. by apply Forall2_same.
Qed.

Lemma completion_order_irrelevant_witness :
  ∃ w1 res1 w2 res2,
    Google.process_words scenario_connector (λ _, 0)
      [("casa", "n"); ("xyz123", ""); ("agua", "n")] 2
      (Google.World Google.init None []) = Returned (w1, res1) ∧
    Google.process_words scenario_connector String.length
      [("casa", "n"); ("xyz123", ""); ("agua", "n")] 2
      (Google.World Google.init None []) = Returned (w2, res2) ∧
    google_same_contents (Google.self w1) (Google.self w2) ∧
    same_mapping res1 res2 ∧
    google_submitted (Google.trace w1) = google_submitted (Google.trace w2).
Proof.
  destruct completion_order_irrelevant as (Hpw & _).
  destruct (Hpw scenario_connector (λ _, 0) String.length
              [("casa", "n"); ("xyz123", ""); ("agua", "n")] 2
              (Google.World Google.init None []))
    as (w1 & res1 & w2 & res2 & H1 & H2 & Hself & Hres & Hsub & _);
    [by_computation|lia|].
  exists w1, res1, w2, res2. do 4 (split; [assumption|]). assumption.
Defined.

(** ** What a run changes in the progress state *)

(** [process_words] only adds: the processed set and the keys of
    [translations] grow, and a word that was processed before the call
    keeps its translation and its problematic status. *)
Theorem process_words_only_grows
    (pairs : list (string * string)) (batch_size : nat) :
  batch_size ≠ 0 →
  (∀ get_translation finish w,
     ∃ w' res',
       Google.process_words get_translation finish pairs batch_size w
         = Returned (w', res') ∧
       Google.processed_words (Google.self w)
         ⊆ Google.processed_words (Google.self w') ∧
       dom (Google.translations (Google.self w))
         ⊆ dom (Google.translations (Google.self w')) ∧
       ∀ k, k ∈ Google.processed_words (Google.self w) →
            Google.translations (Google.self w') !! k
            = Google.translations (Google.self w) !! k ∧
            (k ∈ Google.problematic_words (Google.self w')
             ↔ k ∈ Google.problematic_words (Google.self w))) ∧
  (∀ get_translation get_similar_phrases finish w,
     ∃ w' res',
       Glosbe.process_words get_translation get_similar_phrases finish
                            pairs batch_size w = Returned (w', res') ∧
       Glosbe.processed_words (Glosbe.self w)
         ⊆ Glosbe.processed_words (Glosbe.self w') ∧
       dom (Glosbe.translations (Glosbe.self w))
         ⊆ dom (Glosbe.translations (Glosbe.self w')) ∧
       Glosbe.problematic_words (Glosbe.self w)
         ⊆ Glosbe.problematic_words (Glosbe.self w') ∧
       ∀ k, k ∈ Glosbe.processed_words (Glosbe.self w) →
            Glosbe.translations (Glosbe.self w') !! k
            = Glosbe.translations (Glosbe.self w) !! k ∧
            Glosbe.examples (Glosbe.self w') !! k
            = Glosbe.examples (Glosbe.self w) !! k ∧
            (k ∈ Glosbe.problematic_words (Glosbe.self w')
             ↔ k ∈ Glosbe.problematic_words (Glosbe.self w))).
Proof.
  intros Hbs. split.
  - intros get_translation finish w.
    destruct (google_process_words_spec get_translation finish pairs batch_size w Hbs)
      as (w' & res' & new & Hpw & _ & [Hproc Hrec] & _).
    exists w', res'. split; [done|]. split; [rewrite Hproc; set_solver|]. split.
    + intros k [t Ht]%elem_of_dom. apply elem_of_dom.
      destruct (Hrec k) as [Hin Hout].
      destruct (decide (k ∈ list_to_set pairs.*1
                          ∖ Google.processed_words (Google.self w))) as [Hk|Hk].
      * specialize (Hin Hk).
        destruct (valid_translation get_translation k); [by destruct Hin as [-> _]|].
        destruct Hin as [-> _]. by eexists.
      * destruct (Hout Hk) as [-> _]. by eexists.
    + intros k Hk. destruct (Hrec k) as [_ Hout]. apply Hout. set_solver.
  - intros get_translation get_similar_phrases finish w.
    destruct (glosbe_process_words_spec get_translation get_similar_phrases
                finish pairs batch_size w Hbs)
      as (w' & res' & new & Hpw & _ & [Hproc Hrec] & _).
    exists w', res'. split; [done|]. split; [rewrite Hproc; set_solver|].
    split; [|split].
    + intros k [t Ht]%elem_of_dom. apply elem_of_dom.
      destruct (Hrec k) as [Hin Hout].
      destruct (decide (k ∈ list_to_set pairs.*1
                          ∖ Glosbe.processed_words (Glosbe.self w))) as [Hk|Hk].
      * specialize (Hin Hk).
        destruct (glosbe_translation get_translation get_similar_phrases k)
          as [[t' ph]|]; [by destruct Hin as [-> _]|].
        destruct Hin as [-> _]. by eexists.
      * destruct (Hout Hk) as [-> _]. by eexists.
    + intros k Hk. destruct (Hrec k) as [Hin Hout].
      destruct (decide (k ∈ list_to_set pairs.*1
                          ∖ Glosbe.processed_words (Glosbe.self w))) as [Hk'|Hk'].
      * specialize (Hin Hk').
        destruct (glosbe_translation get_translation get_similar_phrases k)
          as [[t' ph]|]; [by apply Hin|by apply Hin].
      * by apply (Hout Hk').
    + intros k Hk. destruct (Hrec k) as [_ Hout]. apply Hout. set_solver.
Qed.

Lemma process_words_only_grows_witness :
  ∃ w' res',
    Google.process_words scenario_connector scenario_finish
      [("casa", "x"); ("agua", "n")] 25 (Google.World checkpoint_one None [])
      = Returned (w', res') ∧
    Google.translations (Google.self w') !! "casa" = Some "jib".
Proof.
  destruct (process_words_only_grows [("casa", "x"); ("agua", "n")] 25)
    as [Hgoogle _]; [lia|].
  destruct (Hgoogle scenario_connector scenario_finish
              (Google.World checkpoint_one None []))
    as (w' & res' & Hpw & _ & _ & Hkeep).
  exists w', res'. split; [done|].
  destruct (Hkeep "casa") as [-> _]; by_computation.
Defined.

(** ** How [main] can end *)

(** Whatever the connector answers, [main] returns as soon as the
    progress file loads and the word list exists. A missing word list
    ends the process with exit code 1; an exception of [load_progress]
    (a progress file that is not a JSON document) is not caught. Both
    builders. *)
Theorem main_outcomes :
  (∀ get_translation finish d word_list e,
     Google.load_progress (Google.World Google.init d []) = Raises e →
     Google.main get_translation finish d word_list = Raises e) ∧
  (∀ get_translation finish d w0,
     Google.load_progress (Google.World Google.init d []) = Returned w0 →
     Google.main get_translation finish d None = SysExit 1) ∧
  (∀ get_translation finish d lines w0,
     Google.load_progress (Google.World Google.init d []) = Returned w0 →
     ∃ w', Google.main get_translation finish d (Some lines) = Returned w') ∧
  (∀ get_translation get_similar_phrases finish d word_list e,
     Glosbe.load_progress (Glosbe.World Glosbe.init d []) = Raises e →
     Glosbe.main get_translation get_similar_phrases finish d word_list = Raises e) ∧
  (∀ get_translation get_similar_phrases finish d w0,
     Glosbe.load_progress (Glosbe.World Glosbe.init d []) = Returned w0 →
     Glosbe.main get_translation get_similar_phrases finish d None = SysExit 1) ∧
  (∀ get_translation get_similar_phrases finish d lines w0,
     Glosbe.load_progress (Glosbe.World Glosbe.init d []) = Returned w0 →
     ∃ w', Glosbe.main get_translation get_similar_phrases finish d (Some lines)
           = Returned w').
Proof.
  repeat split.
  - intros ????? Hload. by rewrite /Google.main Hload.
  - intros ???? Hload. by rewrite /Google.main Hload.
  - intros get_translation finish d lines w0 Hload.
    rewrite /Google.main Hload /=. case_decide; [|by eexists].
    destruct (google_process_words_spec get_translation finish
                (Google.words_to_process (Google.self w0)
                   (unique_pairs ∅ (word_flag_pairs lines))) 100 w0)
      as (w1 & res & new & -> & _); [done|]. by eexists.
  - intros ?????? Hload. by rewrite /Glosbe.main Hload.
  - intros ????? Hload. by rewrite /Glosbe.main Hload.
  - intros get_translation get_similar_phrases finish d lines w0 Hload.
    rewrite /Glosbe.main Hload /=. case_decide; [by eexists|].
    destruct (glosbe_process_words_spec get_translation get_similar_phrases finish
                (Glosbe.words_to_process (Glosbe.self w0)
                   (unique_pairs ∅ (word_flag_pairs lines))) 25 w0)
      as (w1 & res & new & -> & _); [done|]. by eexists.
Qed.

Lemma main_outcomes_witness :
  Google.main scenario_connector scenario_finish (Some [TLBrace]) (Some scenario_words)
    = Raises JSONDecodeError ∧
  Google.main scenario_connector scenario_finish None None = SysExit 1 ∧
  ∃ w', Google.main (λ _, Throws ValueError) scenario_finish None (Some scenario_words)
        = Returned w'.
Proof.
  destruct main_outcomes as (Hraise & Hexit & Hreturn & _).
  split; [by apply Hraise|]. split; [by eapply Hexit|]. by eapply Hreturn.
Defined.

(** ** The results of a run *)

Lemma NoDup_fst_functional {A B} (l : list (A * B)) k v1 v2 :
  NoDup l.*1 → (k, v1) ∈ l → (k, v2) ∈ l → v1 = v2.
Proof.
  induction l as [|[k' v'] l IH]; [by intros _ ?%elem_of_nil|].
  intros [Hk' Hnd]%NoDup_cons [[= -> ->]|H1]%elem_of_cons [[= ->]|H2]%elem_of_cons.
  - done.
  - destruct Hk'. apply list_elem_of_fmap. by exists (k', v2).
  - simplify_eq. destruct Hk'. apply list_elem_of_fmap. by exists (k', v1).
  - by apply IH.
Qed.

Lemma google_foldl_record_results get_translation l b res :
  NoDup l.*1 →
  (∀ k, k ∈ l.*1 → res !! k = None) →
  ∀ k t f,
    (foldl (Google.record get_translation) (b, res) l).2 !! k = Some (t, f)
    ↔ ((k, f) ∈ l ∧ valid_translation get_translation k = Some t)
      ∨ res !! k = Some (t, f).
Proof.
  revert b res. induction l as [|[w0 f0] l IH]; intros b res Hnd Hfresh k t f.
  - simpl. split; [by right|]. by intros [[?%elem_of_nil _]|?].
  - cbn [foldl]. rewrite google_record_eq.
    apply NoDup_cons in Hnd as [Hw0 Hnd].
    assert (res !! w0 = None) as Hres0 by apply Hfresh, list_elem_of_here.
    assert (∀ f', (w0, f') ∉ l) as Hw0'.
    { intros f' Hin. apply Hw0, list_elem_of_fmap. by exists (w0, f'). }
    assert (∀ k', k' ∈ l.*1 → res !! k' = None) as Hfresh'.
    { intros k' Hk'. by apply Hfresh, list_elem_of_further. }
    destruct (valid_translation get_translation w0) as [t0|] eqn:Hvt.
    + assert (∀ k', k' ∈ l.*1 → <[w0:=(t0, f0)]> res !! k' = None) as Hfresh''.
      { intros k' Hk'. rewrite lookup_insert_ne; [by apply Hfresh'|].
        intros <-. by apply Hw0. }
      rewrite (IH _ _ Hnd Hfresh'') elem_of_cons.
      destruct (decide (k = w0)) as [->|Hne].
      * rewrite lookup_insert_eq Hres0. split.
        -- intros [[Hin _]|[= <- <-]]; [by destruct (Hw0' f)|].
           left. split; [by left|done].
        -- intros [[[[= <-]|Hin] Ht]|?]; [|by destruct (Hw0' f)|done].
           right. congruence.
      * rewrite lookup_insert_ne; [|done]. split.
        -- intros [[Hin Ht]|?]; [left; split; [by right|done]|by right].
        -- intros [[[[= ? ?]|Hin] Ht]|?]; [done|left; by split|by right].
    + rewrite (IH _ _ Hnd Hfresh') elem_of_cons. split.
      * intros [[Hin Ht]|?]; [left; split; [by right|done]|by right].
      * intros [[[[= -> ->]|Hin] Ht]|?]; [congruence|left; by split|by right].
Qed.

Lemma google_process_batch_results get_translation finish pairs bs w res i :
  NoDup pairs.*1 →
  (∀ k, is_Some (res !! k) → k ∈ Google.processed_words (Google.self w)) →
  ∀ k t f,
    (Google.process_batch get_translation finish pairs bs (w, res) i).2 !! k
      = Some (t, f)
    ↔ ((k, f) ∈ filter (λ p, p.1 ∉ Google.processed_words (Google.self w))
                       (take bs (drop i pairs))
       ∧ valid_translation get_translation k = Some t)
      ∨ res !! k = Some (t, f).
Proof.
  intros Hnd Hres k t f. rewrite /Google.process_batch. cbv zeta.
  set (todo := filter (λ p, p.1 ∉ Google.processed_words (Google.self w))
                      (take bs (drop i pairs))).
  assert (as_completed finish todo ≡ₚ todo) as Hperm
    by apply merge_sort_Permutation.
  destruct (decide (todo ≠ [])) as [Hne|Heq].
  - destruct (foldl _ _ _) as [b' res'] eqn:Hfold. simpl.
    rewrite -(f_equal snd Hfold : _ = res') google_foldl_record_results.
    + by rewrite Hperm.
    + rewrite Hperm. by apply batch_todo_NoDup.
    + intros k'. rewrite Hperm.
      intros ([k0 f0] & -> & [Hk0 _]%list_elem_of_filter)%list_elem_of_fmap.
      destruct (res !! k0) eqn:Hr; [|done]. exfalso. apply Hk0, Hres. by eexists.
  - apply dec_stable in Heq. rewrite Heq /=. split; [by right|].
    by intros [[?%elem_of_nil _]|?].
Qed.

Lemma google_foldl_batches_results get_translation finish pairs bs starts w :
  NoDup pairs.*1 →
  let r := foldl (Google.process_batch get_translation finish pairs bs)
                 (w, ∅) starts in
  Google.processed_words (Google.self w)
    ⊆ Google.processed_words (Google.self r.1) ∧
  ∀ k t f,
    r.2 !! k = Some (t, f)
    ↔ (k, f) ∈ pairs ∧
      k ∈ Google.processed_words (Google.self r.1) ∧
      (k ∉ Google.processed_words (Google.self w)) ∧
      valid_translation get_translation k = Some t.
Proof.
  intros Hnd. induction starts as [|i starts IH] using rev_ind.
  - simpl. split; [done|]. intros k t f. rewrite lookup_empty. split; [done|].
    by intros (_ & ? & ? & _).
  - rewrite foldl_snoc. cbv zeta in IH |- *.
    destruct (foldl _ _ starts) as [w1 res1]. simpl in IH.
    destruct IH as [Hmono Hres].
    pose proof (google_process_batch_results get_translation finish pairs bs
                  w1 res1 i Hnd) as Hbatch.
    destruct (google_process_batch_spec get_translation finish pairs bs w1 res1 i)
      as (b' & res' & Heq & [Hproc _]).
    rewrite Heq in Hbatch |- *. simpl in Hbatch |- *.
    split; [rewrite Hproc; set_solver|].
    assert (∀ k', is_Some (res1 !! k') →
                  k' ∈ Google.processed_words (Google.self w1)) as Hsome.
    { intros k' [[t' f'] Hk']. by apply Hres in Hk' as (_ & ? & _). }
    specialize (Hbatch Hsome).
    intros k t f. etrans; [apply Hbatch|].
    rewrite Hres Hproc list_elem_of_filter elem_of_union elem_of_list_to_set.
    split.
    + intros [[[Hk Hin] Ht]|(Hin & Hk & Hk' & Ht)].
      * split; [|split; [|split]]; [|left| |done].
        -- eapply elem_of_sublist; [done|].
           etrans; [apply sublist_take|apply sublist_drop].
        -- apply list_elem_of_fmap. exists (k, f). split; [done|].
           by apply list_elem_of_filter.
        -- intros Hk'. apply Hk. by apply Hmono.
      * split; [done|]. split; [by right|done].
    + intros (Hin & [Hk|Hk] & Hk' & Ht); [|right; by repeat split].
      left. split; [|done].
      apply list_elem_of_fmap in Hk
        as ([k0 f0] & -> & [Hk0 Hin0]%list_elem_of_filter).
      assert (f0 = f) as ->; [|done].
      assert ((k0, f0) ∈ pairs) as Hin0'.
      { eapply elem_of_sublist; [done|].
        etrans; [apply sublist_take|apply sublist_drop]. }
      simpl in *. by eapply NoDup_fst_functional.
Qed.

Lemma glosbe_foldl_record_results get_translation get_similar_phrases l b res :
  NoDup l.*1 →
  (∀ k, k ∈ l.*1 → res !! k = None) →
  ∀ k t f ph,
    (foldl (Glosbe.record get_translation get_similar_phrases) (b, res) l).2 !! k = Some (t, f, ph)
    ↔ ((k, f) ∈ l ∧ glosbe_translation get_translation get_similar_phrases k = Some (t, ph))
      ∨ res !! k = Some (t, f, ph).
Proof.
  revert b res. induction l as [|[w0 f0] l IH]; intros b res Hnd Hfresh k t f ph.
  - simpl. split; [by right|]. by intros [[?%elem_of_nil _]|?].
  - cbn [foldl]. rewrite glosbe_record_eq.
    apply NoDup_cons in Hnd as [Hw0 Hnd].
    assert (res !! w0 = None) as Hres0 by apply Hfresh, list_elem_of_here.
    assert (∀ f', (w0, f') ∉ l) as Hw0'.
    { intros f' Hin. apply Hw0, list_elem_of_fmap. by exists (w0, f'). }
    assert (∀ k', k' ∈ l.*1 → res !! k' = None) as Hfresh'.
    { intros k' Hk'. by apply Hfresh, list_elem_of_further. }
    destruct (glosbe_translation get_translation get_similar_phrases w0)
      as [[t0 ph0]|] eqn:Hvt.
    + assert (∀ k', k' ∈ l.*1 → <[w0:=(t0, f0, ph0)]> res !! k' = None) as Hfresh''.
      { intros k' Hk'. rewrite lookup_insert_ne; [by apply Hfresh'|].
        intros <-. by apply Hw0. }
      rewrite (IH _ _ Hnd Hfresh'') elem_of_cons.
      destruct (decide (k = w0)) as [->|Hne].
      * rewrite lookup_insert_eq Hres0. split.
        -- intros [[Hin _]|[= <- <- <-]]; [by destruct (Hw0' f)|].
           left. split; [by left|done].
        -- intros [[[[= <-]|Hin] Ht]|?]; [|by destruct (Hw0' f)|done].
           right. congruence.
      * rewrite lookup_insert_ne; [|done]. split.
        -- intros [[Hin Ht]|?]; [left; split; [by right|done]|by right].
        -- intros [[[[= ? ?]|Hin] Ht]|?]; [done|left; by split|by right].
    + rewrite (IH _ _ Hnd Hfresh') elem_of_cons. split.
      * intros [[Hin Ht]|?]; [left; split; [by right|done]|by right].
      * intros [[[[= -> ->]|Hin] Ht]|?]; [congruence|left; by split|by right].
Qed.

Lemma glosbe_process_batch_results get_translation get_similar_phrases finish pairs bs w res i :
  NoDup pairs.*1 →
  (∀ k, is_Some (res !! k) → k ∈ Glosbe.processed_words (Glosbe.self w)) →
  ∀ k t f ph,
    (Glosbe.process_batch get_translation get_similar_phrases finish pairs bs (w, res) i).2 !! k
      = Some (t, f, ph)
    ↔ ((k, f) ∈ filter (λ p, p.1 ∉ Glosbe.processed_words (Glosbe.self w))
                       (take bs (drop i pairs))
       ∧ glosbe_translation get_translation get_similar_phrases k = Some (t, ph))
      ∨ res !! k = Some (t, f, ph).
Proof.
  intros Hnd Hres k t f ph. rewrite /Glosbe.process_batch. cbv zeta.
  set (todo := filter (λ p, p.1 ∉ Glosbe.processed_words (Glosbe.self w))
                      (take bs (drop i pairs))).
  assert (as_completed finish todo ≡ₚ todo) as Hperm
    by apply merge_sort_Permutation.
  destruct (decide (todo ≠ [])) as [Hne|Heq].
  - destruct (foldl _ _ _) as [b' res'] eqn:Hfold. simpl.
    rewrite -(f_equal snd Hfold : _ = res') glosbe_foldl_record_results.
    + by rewrite Hperm.
    + rewrite Hperm. by apply batch_todo_NoDup.
    + intros k'. rewrite Hperm.
      intros ([k0 f0] & -> & [Hk0 _]%list_elem_of_filter)%list_elem_of_fmap.
      destruct (res !! k0) eqn:Hr; [|done]. exfalso. apply Hk0, Hres. by eexists.
  - apply dec_stable in Heq. rewrite Heq /=. split; [by right|].
    by intros [[?%elem_of_nil _]|?].
Qed.

Lemma glosbe_foldl_batches_results get_translation get_similar_phrases finish pairs bs starts w :
  NoDup pairs.*1 →
  let r := foldl (Glosbe.process_batch get_translation get_similar_phrases finish pairs bs)
                 (w, ∅) starts in
  Glosbe.processed_words (Glosbe.self w)
    ⊆ Glosbe.processed_words (Glosbe.self r.1) ∧
  ∀ k t f ph,
    r.2 !! k = Some (t, f, ph)
    ↔ (k, f) ∈ pairs ∧
      k ∈ Glosbe.processed_words (Glosbe.self r.1) ∧
      (k ∉ Glosbe.processed_words (Glosbe.self w)) ∧
      glosbe_translation get_translation get_similar_phrases k = Some (t, ph).
Proof.
  intros Hnd. induction starts as [|i starts IH] using rev_ind.
  - simpl. split; [done|]. intros k t f ph. rewrite lookup_empty. split; [done|].
    by intros (_ & ? & ? & _).
  - rewrite foldl_snoc. cbv zeta in IH |- *.
    destruct (foldl _ _ starts) as [w1 res1]. simpl in IH.
    destruct IH as [Hmono Hres].
    pose proof (glosbe_process_batch_results get_translation get_similar_phrases finish pairs bs
                  w1 res1 i Hnd) as Hbatch.
    destruct (glosbe_process_batch_spec get_translation get_similar_phrases finish pairs bs w1 res1 i)
      as (b' & res' & Heq & [Hproc _]).
    rewrite Heq in Hbatch |- *. simpl in Hbatch |- *.
    split; [rewrite Hproc; set_solver|].
    assert (∀ k', is_Some (res1 !! k') →
                  k' ∈ Glosbe.processed_words (Glosbe.self w1)) as Hsome.
    { intros k' [[[t' f'] ph'] Hk']. by apply Hres in Hk' as (_ & ? & _). }
    specialize (Hbatch Hsome).
    intros k t f ph. etrans; [apply Hbatch|].
    rewrite Hres Hproc list_elem_of_filter elem_of_union elem_of_list_to_set.
    split.
    + intros [[[Hk Hin] Ht]|(Hin & Hk & Hk' & Ht)].
      * split; [|split; [|split]]; [|left| |done].
        -- eapply elem_of_sublist; [done|].
           etrans; [apply sublist_take|apply sublist_drop].
        -- apply list_elem_of_fmap. exists (k, f). split; [done|].
           by apply list_elem_of_filter.
        -- intros Hk'. apply Hk. by apply Hmono.
      * split; [done|]. split; [by right|done].
    + intros (Hin & [Hk|Hk] & Hk' & Ht); [|right; by repeat split].
      left. split; [|done].
      apply list_elem_of_fmap in Hk
        as ([k0 f0] & -> & [Hk0 Hin0]%list_elem_of_filter).
      assert (f0 = f) as ->; [|done].
      assert ((k0, f0) ∈ pairs) as Hin0'.
      { eapply elem_of_sublist; [done|].
        etrans; [apply sublist_take|apply sublist_drop]. }
      simpl in *. by eapply NoDup_fst_functional.
Qed.

(** The dictionary [process_words] returns holds exactly the successes
    of this call: a word of the work list that was not processed
    before and has a valid translation, with that translation and its
    flags (and, for Glosbe, its example phrases); every such entry is
    also in [translations]. The words of the work list are distinct.
    Both builders. *)
Theorem process_words_results (pairs : list (string * string)) (batch_size : nat) :
  NoDup pairs.*1 →
  batch_size ≠ 0 →
  (∀ get_translation finish w,
     ∃ w' res',
       Google.process_words get_translation finish pairs batch_size w
         = Returned (w', res') ∧
       (∀ k t f,
          res' !! k = Some (t, f)
          ↔ (k, f) ∈ pairs ∧
            (k ∉ Google.processed_words (Google.self w)) ∧
            valid_translation get_translation k = Some t) ∧
       (∀ k t f,
          res' !! k = Some (t, f) →
          Google.translations (Google.self w') !! k = Some t)) ∧
  (∀ get_translation get_similar_phrases finish w,
     ∃ w' res',
       Glosbe.process_words get_translation get_similar_phrases finish
                            pairs batch_size w = Returned (w', res') ∧
       (∀ k t f ph,
          res' !! k = Some (t, f, ph)
          ↔ (k, f) ∈ pairs ∧
            (k ∉ Glosbe.processed_words (Glosbe.self w)) ∧
            glosbe_translation get_translation get_similar_phrases k
            = Some (t, ph)) ∧
       (∀ k t f ph,
          res' !! k = Some (t, f, ph) →
          Glosbe.translations (Glosbe.self w') !! k = Some t ∧
          Glosbe.examples (Glosbe.self w') !! k = Some ph)).
Proof.
  intros Hnd Hbs. split.
  - intros get_translation finish w.
    destruct (google_process_words_spec get_translation finish pairs batch_size w Hbs)
      as (w' & res' & new & Hpw & _ & [Hproc Hrec] & _).
    exists w', res'. split; [done|].
    pose proof (google_foldl_batches_results get_translation finish pairs batch_size
                  (batch_starts (length pairs) batch_size) w Hnd) as Hres.
    revert Hpw Hres. rewrite /Google.process_words decide_False //.
    intros [= ->]. cbn [fst snd]. intros [_ Hres].
    assert (∀ k t f,
              res' !! k = Some (t, f)
              ↔ (k, f) ∈ pairs ∧
                (k ∉ Google.processed_words (Google.self w)) ∧
                valid_translation get_translation k = Some t) as Hres'.
    { intros k t f. rewrite Hres. split; [naive_solver|].
      intros (Hin & Hk & Ht). split; [done|]. split; [|done].
      rewrite Hproc. apply elem_of_union_l, elem_of_difference. split; [|done].
      apply elem_of_list_to_set, list_elem_of_fmap. by exists (k, f). }
    split; [done|]. intros k t f (Hin & Hk & Ht)%Hres'.
    destruct (Hrec k) as [Hattempted _]. rewrite Ht in Hattempted.
    apply Hattempted, elem_of_difference. split; [|done].
    apply elem_of_list_to_set, list_elem_of_fmap. by exists (k, f).
  - intros get_translation get_similar_phrases finish w.
    destruct (glosbe_process_words_spec get_translation get_similar_phrases
                finish pairs batch_size w Hbs)
      as (w' & res' & new & Hpw & _ & [Hproc Hrec] & _).
    exists w', res'. split; [done|].
    pose proof (glosbe_foldl_batches_results get_translation get_similar_phrases
                  finish pairs batch_size
                  (batch_starts (length pairs) batch_size) w Hnd) as Hres.
    revert Hpw Hres. rewrite /Glosbe.process_words decide_False //.
    intros [= ->]. cbn [fst snd]. intros [_ Hres].
    assert (∀ k t f ph,
              res' !! k = Some (t, f, ph)
              ↔ (k, f) ∈ pairs ∧
                (k ∉ Glosbe.processed_words (Glosbe.self w)) ∧
                glosbe_translation get_translation get_similar_phrases k
                = Some (t, ph)) as Hres'.
    { intros k t f ph. rewrite Hres. split; [naive_solver|].
      intros (Hin & Hk & Ht). split; [done|]. split; [|done].
      rewrite Hproc. apply elem_of_union_l, elem_of_difference. split; [|done].
      apply elem_of_list_to_set, list_elem_of_fmap. by exists (k, f). }
    split; [done|]. intros k t f ph (Hin & Hk & Ht)%Hres'.
    destruct (Hrec k) as [Hattempted _]. rewrite Ht in Hattempted.
    assert (k ∈ list_to_set pairs.*1 ∖ Glosbe.processed_words (Glosbe.self w))
      as Hk'.
    { apply elem_of_difference. split; [|done].
      apply elem_of_list_to_set, list_elem_of_fmap. by exists (k, f). }
    destruct (Hattempted Hk') as (? & ? & _). done.
Qed.

Lemma process_words_results_witness :
  ∃ w' res',
    Google.process_words scenario_connector scenario_finish
      [("casa", "n"); ("xyz123", ""); ("agua", "n")] 2
      (Google.World checkpoint_one None []) = Returned (w', res') ∧
    res' !! "agua" = Some ("mul", "n") ∧
    res' !! "casa" = None ∧ res' !! "xyz123" = None.
Proof.
  destruct (process_words_results [("casa", "n"); ("xyz123", ""); ("agua", "n")] 2)
    as [Hgoogle _]; [by_computation|lia|].
  destruct (Hgoogle scenario_connector scenario_finish
              (Google.World checkpoint_one None []))
    as (w' & res' & Hpw & Hres & _).
  exists w', res'. split; [done|]. split; [|split].
  - apply Hres. split; [by_computation|]. split; [by_computation|done].
  - destruct (res' !! "casa") as [[t f]|] eqn:Hr; [|done].
    apply Hres in Hr as (_ & Hk & _). destruct Hk. by_computation.
  - destruct (res' !! "xyz123") as [[t f]|] eqn:Hr; [|done].
    by apply Hres in Hr as (_ & _ & ?).
Defined.

(** ** One progress file for both builders *)

(** Both builders keep their state in [progress.json]. The Google
    builder loads a file the Glosbe builder saved and finds the same
    translations, processed and problematic words (the examples are
    ignored); the Glosbe builder loads a file the Google builder saved
    and finds them too, with no examples. *)
Theorem progress_file_is_shared :
  (∀ res w,
     Google.load_progress
       (Google.World Google.init (Glosbe.progress_json (Glosbe.save_progress res w)) [])
     = Returned
         (Google.World
            (Google.Builder (Glosbe.translations (Glosbe.self w))
                            (Glosbe.processed_words (Glosbe.self w))
                            (Glosbe.problematic_words (Glosbe.self w)))
            (Glosbe.progress_json (Glosbe.save_progress res w)) [])) ∧
  (∀ res w,
     Glosbe.load_progress
       (Glosbe.World Glosbe.init (Google.progress_json (Google.save_progress res w)) [])
     = Returned
         (Glosbe.World
            (Glosbe.Builder (Google.translations (Google.self w)) ∅
                            (Google.processed_words (Google.self w))
                            (Google.problematic_words (Google.self w)))
            (Google.progress_json (Google.save_progress res w)) [])).
Proof.
  split; intros res w.
  - cbn [Glosbe.save_progress Glosbe.progress_json].
    rewrite run_ops_write_json /Google.load_progress.
    cbn [Google.progress_json Google.trace]. rewrite loads_dumps.
    rewrite /Glosbe.progress_data. dict_lookups.
    by rewrite !list_to_set_elements_L.
  - cbn [Google.save_progress Google.progress_json].
    rewrite run_ops_write_json /Glosbe.load_progress.
    cbn [Glosbe.progress_json Glosbe.trace]. rewrite loads_dumps.
    rewrite /Google.progress_data. dict_lookups.
    by rewrite !list_to_set_elements_L.
Qed.

(** ** The final writers *)

Lemma google_written_app tr1 tr2 :
  google_written (tr1 ++ tr2) = google_written tr1 ++ google_written tr2.
Proof. apply omap_app. Qed.

Lemma google_written_submit n (l : list (string * string)) :
  google_written ((λ p, Google.Submit n p.1 p.2) <$> l) = [].
Proof. by induction l. Qed.

Lemma google_written_sleep tail :
  Forall (λ e, e = Google.Sleep) tail → google_written tail = [].
Proof. induction 1 as [|e tail -> _ IH]; [done|]. exact IH. Qed.

Lemma google_checkpointed_written pairs bs before starts new :
  google_checkpointed pairs bs before starts new → google_written new = [].
Proof.
  induction 1 as [|before i starts snapshot count tail rest _ Htail _ IH];
    [done|].
  rewrite google_written_app google_written_submit /=.
  change (google_written (tail ++ rest) = []).
  by rewrite google_written_app IH google_written_sleep.
Qed.

Lemma glosbe_written_app tr1 tr2 :
  glosbe_written (tr1 ++ tr2) = glosbe_written tr1 ++ glosbe_written tr2.
Proof. apply omap_app. Qed.

Lemma glosbe_written_submit n (l : list (string * string)) :
  glosbe_written ((λ p, Glosbe.Submit n p.1 p.2) <$> l) = [].
Proof. by induction l. Qed.

Lemma glosbe_written_sleep tail :
  Forall (λ e, e = Glosbe.Sleep) tail → glosbe_written tail = [].
Proof. induction 1 as [|e tail -> _ IH]; [done|]. exact IH. Qed.

Lemma glosbe_checkpointed_written pairs bs before starts new :
  glosbe_checkpointed pairs bs before starts new → glosbe_written new = [].
Proof.
  induction 1 as [|before i starts snapshot count tail rest _ Htail _ IH];
    [done|].
  rewrite glosbe_written_app glosbe_written_submit /=.
  change (glosbe_written (tail ++ rest) = []).
  by rewrite glosbe_written_app IH glosbe_written_sleep.
Qed.

Lemma google_process_words_written get_translation finish pairs bs w w' res' :
  Google.process_words get_translation finish pairs bs w = Returned (w', res') →
  ∃ new, Google.trace w' = Google.trace w ++ new ∧ google_written new = [].
Proof.
  rewrite /Google.process_words. case_decide; [done|]. intros [= Hfold].
  destruct (google_foldl_checkpointed get_translation finish pairs bs
              (batch_starts (length pairs) bs) w ∅) as (new & Htr & Hcp).
  rewrite Hfold /= in Htr. exists new. split; [done|].
  by eapply google_checkpointed_written.
Qed.

Lemma glosbe_process_words_written get_translation get_similar_phrases finish
    pairs bs w w' res' :
  Glosbe.process_words get_translation get_similar_phrases finish pairs bs w
    = Returned (w', res') →
  ∃ new, Glosbe.trace w' = Glosbe.trace w ++ new ∧ glosbe_written new = [].
Proof.
  rewrite /Glosbe.process_words. case_decide; [done|]. intros [= Hfold].
  destruct (glosbe_foldl_checkpointed get_translation get_similar_phrases finish
              pairs bs (batch_starts (length pairs) bs) w ∅) as (new & Htr & Hcp).
  rewrite Hfold /= in Htr. exists new. split; [done|].
  by eapply glosbe_checkpointed_written.
Qed.

(** Every returning run ends with the writers, after all submissions
    and checkpoints: the Google [main] writes the problematic words of
    the final state and then the artifact, once each; the Glosbe [main]
    does the same twice in a row, with the same arguments. Nothing is
    written to the artifact before. *)
Theorem main_ends_with_the_writers :
  (∀ get_translation finish d word_list w',
     Google.main get_translation finish d word_list = Returned w' →
     ∃ before res,
       Google.trace w'
       = before ++ [Google.SaveProblematicWords
                      (Google.problematic_words (Google.self w'));
                    Google.SaveYomichan res] ∧
       google_written before = []) ∧
  (∀ get_translation get_similar_phrases finish d word_list w',
     Glosbe.main get_translation get_similar_phrases finish d word_list
       = Returned w' →
     ∃ before res,
       Glosbe.trace w'
       = before ++ [Glosbe.SaveProblematicWords
                      (Glosbe.problematic_words (Glosbe.self w'));
                    Glosbe.SaveYomichan res;
                    Glosbe.SaveProblematicWords
                      (Glosbe.problematic_words (Glosbe.self w'));
                    Glosbe.SaveYomichan res] ∧
       glosbe_written before = []).
Proof.
  split.
  - intros get_translation finish d word_list w'
           (w0 & lines & Hload & -> & Hrun)%google_main_inv.
    destruct (google_load_progress_inv _ _ _ _ Hload) as [_ Htr0].
    simpl in Hrun. destruct Hrun as [(_ & w1 & res & Hpw & ->)|(_ & res & ->)].
    + apply google_process_words_written in Hpw as (new & Htr & Hnew).
      exists new, res. rewrite /= Htr Htr0 /= -app_assoc. by split.
    + exists [], res. by rewrite /= Htr0.
  - intros get_translation get_similar_phrases finish d word_list w'
           (w0 & lines & Hload & -> & Hrun)%glosbe_main_inv.
    destruct (glosbe_load_progress_inv _ _ _ _ Hload) as [_ Htr0].
    simpl in Hrun. destruct Hrun as [(_ & w1 & res & Hpw & ->)|(_ & ->)].
    + apply glosbe_process_words_written in Hpw as (new & Htr & Hnew).
      exists new, res. rewrite /= Htr Htr0 /= -!app_assoc. by split.
    + exists [], ∅. by rewrite /= Htr0.
Qed.

Lemma glosbe_main_returns get_translation get_similar_phrases finish d lines w0 :
  Glosbe.load_progress (Glosbe.World Glosbe.init d []) = Returned w0 →
  ∃ w', Glosbe.main get_translation get_similar_phrases finish d (Some lines)
        = Returned w'.
Proof.
  intros Hload. rewrite /Glosbe.main Hload /=. case_decide; [by eexists|].
  destruct (glosbe_process_words_spec get_translation get_similar_phrases finish
              (Glosbe.words_to_process (Glosbe.self w0)
                 (unique_pairs ∅ (word_flag_pairs lines))) 25 w0)
    as (w1 & res & new & -> & _); [done|]. by eexists.
Qed.

Lemma google_main_returns get_translation finish d lines w0 :
  Google.load_progress (Google.World Google.init d []) = Returned w0 →
  ∃ w', Google.main get_translation finish d (Some lines) = Returned w'.
Proof.
  intros Hload. rewrite /Google.main Hload /=. case_decide; [|by eexists].
  destruct (google_process_words_spec get_translation finish
              (Google.words_to_process (Google.self w0)
                 (unique_pairs ∅ (word_flag_pairs lines))) 100 w0)
    as (w1 & res & new & -> & _); [done|]. by eexists.
Qed.

Lemma main_ends_with_the_writers_witness :
  ∃ w' before res,
    Glosbe.main scenario_connector scenario_phrases scenario_finish None
                (Some scenario_words) = Returned w' ∧
    Glosbe.trace w'
    = before ++ [Glosbe.SaveProblematicWords
                   (Glosbe.problematic_words (Glosbe.self w'));
                 Glosbe.SaveYomichan res;
                 Glosbe.SaveProblematicWords
                   (Glosbe.problematic_words (Glosbe.self w'));
                 Glosbe.SaveYomichan res] ∧
    glosbe_written before = [].
Proof.
  destruct main_ends_with_the_writers as [_ Hglosbe].
  destruct (glosbe_main_returns scenario_connector scenario_phrases scenario_finish
              None scenario_words (Glosbe.World Glosbe.init None []) eq_refl)
    as [w' Hmain].
  destruct (Hglosbe _ _ _ _ _ _ Hmain) as (before & res & Htr & Hbefore).
  exists w', before, res. repeat split; assumption.
Defined.

(** ** A run that finds its words processed *)

Lemma load_word_list_inv word_list pairs :
  load_word_list word_list = Returned pairs →
  ∃ lines, word_list = Some lines ∧
           pairs = unique_pairs ∅ (word_flag_pairs lines) ∧ NoDup pairs.*1.
Proof.
  destruct word_list as [lines|]; [|done]. intros [= <-].
  exists lines. split; [done|]. split; [done|]. apply unique_pairs_NoDup.
Qed.

Lemma google_words_to_process_keys b pairs k :
  k ∈ (Google.words_to_process b pairs).*1 → k ∈ pairs.*1.
Proof.
  rewrite /Google.words_to_process fmap_app elem_of_app.
  intros [Hretry|Hregular].
  - apply list_elem_of_fmap in Hretry as ([k' f] & -> & Hin).
    apply list_elem_of_omap in Hin as (word & _ & Hword). simpl.
    destruct (py_dict pairs !! word) as [f'|] eqn:Hlookup; [|done].
    simpl in Hword. injection Hword as -> ->.
    apply py_dict_is_Some. by rewrite Hlookup.
  - apply list_elem_of_fmap in Hregular as (p & -> & Hin).
    apply list_elem_of_filter in Hin as [_ Hin].
    apply list_elem_of_fmap. by exists p.
Qed.

Lemma google_words_to_process_nil b pairs :
  (∀ k, k ∈ pairs.*1 →
        k ∈ Google.processed_words b ∧ k ∉ Google.problematic_words b) →
  Google.words_to_process b pairs = [].
Proof.
  intros Hdone. rewrite /Google.words_to_process.
  assert (omap (λ word, pair word <$> py_dict pairs !! word)
               (elements (Google.problematic_words b)) = []) as ->.
  { apply elem_of_nil_inv. intros [k f] Hin.
    apply list_elem_of_omap in Hin as (word & Hword%elem_of_elements & Hlookup).
    destruct (py_dict pairs !! word) as [f'|] eqn:Hf; [|done].
    assert (word ∈ pairs.*1) as Hkey by (apply py_dict_is_Some; by rewrite Hf).
    by destruct (Hdone _ Hkey). }
  simpl. apply elem_of_nil_inv. intros p [[Hp _] Hin]%list_elem_of_filter.
  destruct (Hdone p.1) as [? _]; [|done]. apply list_elem_of_fmap. by exists p.
Qed.

Lemma google_recorded_nothing get_translation b0 b :
  google_recorded get_translation b0 b ∅ → b = b0.
Proof.
  intros [Hproc Hrec]. destruct b as [tr pr pb], b0 as [tr0 pr0 pb0].
  simpl in *. f_equal.
  - apply map_eq. intros k. by destruct (Hrec k) as [_ [-> _]].
  - set_solver.
  - apply set_eq. intros k. by destruct (Hrec k) as [_ [_ ->]].
Qed.

Lemma glosbe_recorded_nothing get_translation get_similar_phrases b0 b :
  glosbe_recorded get_translation get_similar_phrases b0 b ∅ → b = b0.
Proof.
  rewrite /glosbe_recorded.
  intros [Hproc Hrec]. destruct b as [tr ex pr pb], b0 as [tr0 ex0 pr0 pb0].
  simpl in *. f_equal.
  - apply map_eq. intros k. by destruct (Hrec k) as [_ (-> & _)].
  - apply map_eq. intros k. by destruct (Hrec k) as [_ (_ & -> & _)].
  - set_solver.
  - apply set_eq. intros k. by destruct (Hrec k) as [_ (_ & _ & ->)].
Qed.

Lemma rerun_done :
  (∀ get_translation finish d word_list w0 pairs,
     Google.load_progress (Google.World Google.init d []) = Returned w0 →
     load_word_list word_list = Returned pairs →
     (∀ k, k ∈ pairs.*1 →
           k ∈ Google.processed_words (Google.self w0) ∧
           k ∉ Google.problematic_words (Google.self w0)) →
     ∃ res,
       Google.main get_translation finish d word_list
       = Returned
           (Google.World (Google.self w0) d
              [Google.SaveProblematicWords
                 (Google.problematic_words (Google.self w0));
               Google.SaveYomichan res]) ∧
       ∀ k t f,
         res !! k = Some (t, f)
         ↔ Google.translations (Google.self w0) !! k = Some t ∧ (k, f) ∈ pairs) ∧
  (∀ get_translation get_similar_phrases finish d word_list w0 pairs,
     Glosbe.load_progress (Glosbe.World Glosbe.init d []) = Returned w0 →
     load_word_list word_list = Returned pairs →
     (∀ k, k ∈ pairs.*1 → k ∈ Glosbe.processed_words (Glosbe.self w0)) →
     Glosbe.main get_translation get_similar_phrases finish d word_list
     = Returned
         (Glosbe.World (Glosbe.self w0) d
            [Glosbe.SaveProblematicWords
               (Glosbe.problematic_words (Glosbe.self w0));
             Glosbe.SaveYomichan ∅;
             Glosbe.SaveProblematicWords
               (Glosbe.problematic_words (Glosbe.self w0));
             Glosbe.SaveYomichan ∅])).
Proof.
  split.
  - intros get_translation finish d word_list w0 pairs Hload
           (lines & -> & -> & Hnd)%load_word_list_inv Hdone.
    destruct (google_load_progress_inv _ _ _ _ Hload) as [Hd Htr].
    rewrite /Google.main Hload /=. rewrite (google_words_to_process_nil _ _ Hdone).
    case_decide as Hnil; [done|]. clear Hnil.
    eexists. split.
    { rewrite /Google.save_yomichan /Google.save_problematic_words /=.
      by rewrite Hd Htr. }
    intros k t f. rewrite map_lookup_imap.
    destruct (Google.translations (Google.self w0) !! k) as [t'|] eqn:Ht;
      simpl; [|naive_solver].
    case_decide as Hflags.
    + destruct Hflags as [f' Hf']. rewrite Hf' /=.
      apply py_dict_lookup_NoDup in Hf'; [|done]. split.
      * by intros [= -> ->].
      * intros [[= ->] Hin]. by rewrite (NoDup_fst_functional _ _ _ _ Hnd Hin Hf').
    + split; [done|]. intros [_ Hin]. destruct Hflags.
      exists f. by apply py_dict_lookup_NoDup.
  - intros get_translation get_similar_phrases finish d word_list w0 pairs Hload
           (lines & -> & -> & Hnd)%load_word_list_inv Hdone.
    destruct (glosbe_load_progress_inv _ _ _ _ Hload) as [Hd Htr].
    rewrite /Glosbe.main Hload /=.
    assert (Glosbe.words_to_process (Glosbe.self w0)
              (unique_pairs ∅ (word_flag_pairs lines)) = []) as ->.
    { apply elem_of_nil_inv. intros p [Hp Hin]%list_elem_of_filter.
      destruct Hp. apply Hdone, list_elem_of_fmap. by exists p. }
    case_decide as Hnil; [|done]. clear Hnil.
    rewrite /Glosbe.save_yomichan /Glosbe.save_problematic_words /=.
    by rewrite Hd Htr.
Qed.



Lemma google_rerun_retry :
  ∀ get_translation finish d word_list w0 pairs,
    Google.load_progress (Google.World Google.init d []) = Returned w0 →
    load_word_list word_list = Returned pairs →
    (∀ k, k ∈ pairs.*1 → k ∈ Google.processed_words (Google.self w0)) →
    (∃ k, k ∈ pairs.*1 ∧ k ∈ Google.problematic_words (Google.self w0)) →
    ∃ w',
      Google.main get_translation finish d word_list = Returned w' ∧
      Google.self w' = Google.self w0 ∧
      google_submitted (Google.trace w') = [] ∧
      google_written (Google.trace w') = [∅].
Proof.
  intros get_translation finish d word_list w0 pairs Hload
         (lines & -> & -> & Hnd)%load_word_list_inv Hdone (k0 & Hk0 & Hpb).
  destruct (google_load_progress_inv _ _ _ _ Hload) as [Hd Htr].
  rewrite /Google.main Hload /=.
  set (pairs := unique_pairs ∅ (word_flag_pairs lines)) in *.
  set (todo := Google.words_to_process (Google.self w0) pairs).
  assert (∀ k, k ∈ todo.*1 → k ∈ Google.processed_words (Google.self w0))
    as Htodo by (intros k Hk; by eapply Hdone, google_words_to_process_keys).
  assert (todo ≠ []) as Hne.
  { apply py_dict_is_Some in Hk0 as [f Hf].
    intros Hnil. assert ((k0, f) ∈ todo) as Hin; [|by rewrite Hnil in Hin; inversion Hin].
    rewrite /todo /Google.words_to_process. apply elem_of_app. left.
    apply list_elem_of_omap. exists k0. split; [by apply elem_of_elements|].
    by rewrite Hf. }
  rewrite decide_True //.
  destruct (google_process_words_spec get_translation finish todo 100 w0)
    as (w1 & res & new & Hpw & Htr1 & Hrec & Hsub & _); [done|].
  assert (list_to_set todo.*1 ∖ Google.processed_words (Google.self w0)
          = (∅ : gset string)) as Hnone.
  { apply set_eq. intros k. rewrite elem_of_difference elem_of_list_to_set.
    split; [|set_solver]. intros [Hk Hnot]. by destruct Hnot; apply Htodo. }
  rewrite Hnone in Hrec, Hsub.
  assert (res = ∅) as ->.
  { pose proof (google_foldl_batches_results get_translation finish todo 100
                  (batch_starts (length todo) 100) w0
                  (google_words_to_process_NoDup _ _ Hnd)) as Hres.
    revert Hpw Hres. rewrite /Google.process_words. case_decide; [done|].
    intros [= ->]. cbn [fst snd]. intros [_ Hres].
    apply map_eq. intros k. rewrite lookup_empty.
    destruct (res !! k) as [[t f]|] eqn:Hk; [|done].
    apply Hres in Hk as (Hin & _ & Hnot & _). destruct Hnot.
    apply Htodo, list_elem_of_fmap. by exists (k, f). }
  rewrite Hpw. eexists. split; [done|].
  split; [by apply (google_recorded_nothing get_translation)|].
  rewrite /Google.save_yomichan /Google.save_problematic_words /= Htr1 Htr /=.
  destruct (google_process_words_written _ _ _ _ _ _ _ Hpw) as (new' & Htr' & Hwritten).
  rewrite Htr1 in Htr'. apply app_inv_head in Htr' as <-.
  rewrite !google_submitted_app !google_written_app Hwritten /=.
  split; [|done]. rewrite app_nil_r.
  destruct (google_submitted new) as [|k l]; [done|]. set_solver.
Qed.

(** The Google [main] puts the problematic words of the list on the
    work list, but [process_words] skips a processed word: when every
    word of the list is processed and one of them is problematic, the
    run submits nothing, leaves the builder as loaded and writes an
    empty mapping to the artifact. *)
Theorem google_retry_of_processed_words :
  ∀ get_translation finish d word_list w0 pairs,
    Google.load_progress (Google.World Google.init d []) = Returned w0 →
    load_word_list word_list = Returned pairs →
    (∀ k, k ∈ pairs.*1 → k ∈ Google.processed_words (Google.self w0)) →
    (∃ k, k ∈ pairs.*1 ∧ k ∈ Google.problematic_words (Google.self w0)) →
    ∃ w',
      Google.main get_translation finish d word_list = Returned w' ∧
      Google.self w' = Google.self w0 ∧
      google_submitted (Google.trace w') = [] ∧
      google_written (Google.trace w') = [∅].
Proof. exact google_rerun_retry. Qed.

Lemma google_retry_of_processed_words_witness :
  ∃ w',
    Google.main scenario_connector scenario_finish
                (Some (dumps (Google.progress_data scenario_done ∅)))
                (Some scenario_words) = Returned w' ∧
    Google.self w' = scenario_done ∧
    google_submitted (Google.trace w') = [] ∧
    google_written (Google.trace w') = [∅].
Proof.
  apply (google_retry_of_processed_words scenario_connector scenario_finish
           (Some (dumps (Google.progress_data scenario_done ∅)))
           (Some scenario_words)
           (Google.World scenario_done
              (Some (dumps (Google.progress_data scenario_done ∅))) [])
           [("casa", "n"); ("xyz123", ""); ("agua", "n")]).
  - rewrite -(run_ops_write_json _ None). apply google_load_after_write.
  - vm_compute. reflexivity.
  - intros k Hk. apply (bool_decide_unpack _).
    repeat (apply elem_of_cons in Hk as [->|Hk]; [vm_compute; exact I|]).
    by apply elem_of_nil in Hk.
  - exists "xyz123". split; by_computation.
Defined.

(** ** A second run over the same list *)

Lemma google_main_final get_translation finish d lines w1 :
  Google.main get_translation finish d (Some lines) = Returned w1 →
  Google.load_progress (Google.World Google.init (Google.progress_json w1) [])
  = Returned (Google.World (Google.self w1) (Google.progress_json w1) []) ∧
  ∀ k, k ∈ (unique_pairs ∅ (word_flag_pairs lines)).*1 →
       k ∈ Google.processed_words (Google.self w1).
Proof.
  intros (w0 & lines' & Hload & [= <-] & Hrun)%google_main_inv.
  destruct (google_load_progress_inv _ _ _ _ Hload) as [Hd Htr].
  cbv zeta in Hrun.
  set (pairs := unique_pairs ∅ (word_flag_pairs lines)) in *.
  set (todo := Google.words_to_process (Google.self w0) pairs) in *.
  assert (∀ k, k ∈ pairs.*1 → k ∉ Google.processed_words (Google.self w0) →
               k ∈ todo.*1) as Hcover.
  { intros k Hk Hnot. rewrite /todo /Google.words_to_process fmap_app elem_of_app.
    destruct (decide (k ∈ Google.problematic_words (Google.self w0))) as [Hpb|Hpb].
    - left. apply py_dict_is_Some in Hk as [f Hf].
      apply list_elem_of_fmap. exists (k, f). split; [done|].
      apply list_elem_of_omap. exists k. split; [by apply elem_of_elements|].
      by rewrite Hf.
    - right. apply list_elem_of_fmap in Hk as (p & -> & Hp).
      apply list_elem_of_fmap. exists p. split; [done|].
      by apply list_elem_of_filter. }
  destruct Hrun as [(Hne & w & res & Hpw & ->)|(Hnil & res & ->)].
  - destruct (google_process_words_spec get_translation finish todo 100 w0)
      as (w' & res' & new & Hpw' & _ & [Hproc _] & _ & _ & _ & Hsaved); [done|].
    rewrite Hpw in Hpw'. injection Hpw' as <- <-.
    destruct (Hsaved Hne) as [Hjson _].
    cbn [Google.save_yomichan Google.save_problematic_words
         Google.self Google.progress_json].
    split.
    + rewrite Hjson -{1}(run_ops_write_json _ None). apply google_load_after_write.
    + intros k Hk. rewrite Hproc.
      destruct (decide (k ∈ Google.processed_words (Google.self w0)));
        [set_solver|].
      apply elem_of_union_l, elem_of_difference. split; [|done].
      apply elem_of_list_to_set. by apply Hcover.
  - cbn [Google.save_yomichan Google.save_problematic_words
         Google.self Google.progress_json].
    split.
    + rewrite Hd. rewrite Hload. by destruct w0; simplify_eq/=.
    + intros k Hk.
      destruct (decide (k ∈ Google.processed_words (Google.self w0))); [done|].
      assert (k ∈ todo.*1) as Hin by by apply Hcover.
      rewrite Hnil in Hin. by apply elem_of_nil in Hin.
Qed.

Lemma glosbe_main_final get_translation get_similar_phrases finish d lines w1 :
  Glosbe.main get_translation get_similar_phrases finish d (Some lines)
    = Returned w1 →
  Glosbe.load_progress (Glosbe.World Glosbe.init (Glosbe.progress_json w1) [])
  = Returned (Glosbe.World (Glosbe.self w1) (Glosbe.progress_json w1) []) ∧
  ∀ k, k ∈ (unique_pairs ∅ (word_flag_pairs lines)).*1 →
       k ∈ Glosbe.processed_words (Glosbe.self w1).
Proof.
  intros (w0 & lines' & Hload & [= <-] & Hrun)%glosbe_main_inv.
  destruct (glosbe_load_progress_inv _ _ _ _ Hload) as [Hd Htr].
  cbv zeta in Hrun.
  set (pairs := unique_pairs ∅ (word_flag_pairs lines)) in *.
  set (todo := Glosbe.words_to_process (Glosbe.self w0) pairs) in *.
  assert (∀ k, k ∈ pairs.*1 → k ∉ Glosbe.processed_words (Glosbe.self w0) →
               k ∈ todo.*1) as Hcover.
  { intros k Hk Hnot. apply list_elem_of_fmap in Hk as (p & -> & Hp).
    apply list_elem_of_fmap. exists p. split; [done|].
    by apply list_elem_of_filter. }
  destruct Hrun as [(Hne & w & res & Hpw & ->)|(Hnil & ->)].
  - destruct (glosbe_process_words_spec get_translation get_similar_phrases
                finish todo 25 w0)
      as (w' & res' & new & Hpw' & _ & [Hproc _] & _ & _ & _ & Hsaved); [done|].
    rewrite Hpw in Hpw'. injection Hpw' as <- <-.
    destruct (Hsaved Hne) as [Hjson _].
    cbn [Glosbe.save_yomichan Glosbe.save_problematic_words
         Glosbe.self Glosbe.progress_json].
    split.
    + rewrite Hjson -{1}(run_ops_write_json _ None). apply glosbe_load_after_write.
    + intros k Hk. rewrite Hproc.
      destruct (decide (k ∈ Glosbe.processed_words (Glosbe.self w0)));
        [set_solver|].
      apply elem_of_union_l, elem_of_difference. split; [|done].
      apply elem_of_list_to_set. by apply Hcover.
  - cbn [Glosbe.save_yomichan Glosbe.save_problematic_words
         Glosbe.self Glosbe.progress_json].
    split.
    + rewrite Hd. rewrite Hload. by destruct w0; simplify_eq/=.
    + intros k Hk.
      destruct (decide (k ∈ Glosbe.processed_words (Glosbe.self w0))); [done|].
      assert (k ∈ todo.*1) as Hin by by apply Hcover.
      rewrite Hnil in Hin. by apply elem_of_nil in Hin.
Qed.

(** A second run over the same word list, started from the progress
    file the first run left, whatever the connector answers now:
    nothing is submitted and the builder state stays that of the first
    run. The Google [main] writes the stored translations of the
    listed words when none of them is problematic, and an empty term
    bank when one of them is; the Glosbe [main] leaves the progress
    file as it is and writes an empty term bank, twice. *)
Theorem second_run_over_the_same_list :
  (∀ get_translation finish get_translation' finish' d lines w1,
     Google.main get_translation finish d (Some lines) = Returned w1 →
     ∃ w2 res,
       Google.main get_translation' finish' (Google.progress_json w1) (Some lines)
         = Returned w2 ∧
       Google.self w2 = Google.self w1 ∧
       google_submitted (Google.trace w2) = [] ∧
       google_written (Google.trace w2) = [res] ∧
       ((∀ k, k ∈ (unique_pairs ∅ (word_flag_pairs lines)).*1 →
              k ∉ Google.problematic_words (Google.self w1)) →
          ∀ k t f,
            res !! k = Some (t, f)
            ↔ Google.translations (Google.self w1) !! k = Some t ∧
              (k, f) ∈ unique_pairs ∅ (word_flag_pairs lines)) ∧
       (∀ k, k ∈ (unique_pairs ∅ (word_flag_pairs lines)).*1 →
             k ∈ Google.problematic_words (Google.self w1) → res = ∅)) ∧
  (∀ get_translation get_similar_phrases finish
     get_translation' get_similar_phrases' finish' d lines w1,
     Glosbe.main get_translation get_similar_phrases finish d (Some lines)
       = Returned w1 →
     Glosbe.main get_translation' get_similar_phrases' finish'
                 (Glosbe.progress_json w1) (Some lines)
     = Returned
         (Glosbe.World (Glosbe.self w1) (Glosbe.progress_json w1)
            [Glosbe.SaveProblematicWords
               (Glosbe.problematic_words (Glosbe.self w1));
             Glosbe.SaveYomichan ∅;
             Glosbe.SaveProblematicWords
               (Glosbe.problematic_words (Glosbe.self w1));
             Glosbe.SaveYomichan ∅])).
Proof.
  split.
  - intros get_translation finish get_translation' finish' d lines w1
           [Hload Hdone]%google_main_final.
    set (pairs := unique_pairs ∅ (word_flag_pairs lines)) in *.
    destruct (decide (Exists (λ k, k ∈ Google.problematic_words (Google.self w1))
                             pairs.*1)) as [Hsome|Hnone].
    + apply Exists_exists in Hsome as (k0 & Hk0 & Hpb).
      destruct (google_rerun_retry get_translation' finish'
                  (Google.progress_json w1) (Some lines) _ pairs Hload eq_refl)
        as (w2 & Hmain & Hself & Hsub & Hwritten); [done|by exists k0|].
      exists w2, ∅. do 4 (split; [done|]). split; [|done].
      intros Hclean. by destruct (Hclean k0).
    + destruct rerun_done as [Hgoogle _].
      destruct (Hgoogle get_translation' finish'
                  (Google.progress_json w1) (Some lines) _ pairs Hload eq_refl)
        as (res & Hmain & Hres).
      { intros k Hk. split; [by apply Hdone|]. intros Hpb. apply Hnone.
        apply Exists_exists. by exists k. }
      eexists _, res. split; [exact Hmain|]. do 3 (split; [done|]).
      split; [done|]. intros k Hk Hpb. destruct Hnone.
      apply Exists_exists. by exists k.
  - intros get_translation get_similar_phrases finish
           get_translation' get_similar_phrases' finish' d lines w1
           [Hload Hdone]%glosbe_main_final.
    destruct rerun_done as [_ Hglosbe].
    by apply (Hglosbe get_translation' get_similar_phrases' finish'
                (Glosbe.progress_json w1) (Some lines) _ _ Hload eq_refl).
Qed.

Lemma second_run_over_the_same_list_witness :
  (∃ w1 w2 res,
     Google.main scenario_connector scenario_finish None (Some scenario_words)
       = Returned w1 ∧
     Google.main scenario_connector scenario_finish (Google.progress_json w1)
                 (Some scenario_words) = Returned w2 ∧
     Google.self w2 = Google.self w1 ∧
     google_submitted (Google.trace w2) = [] ∧
     google_written (Google.trace w2) = [res]) ∧
  (∃ w1,
     Glosbe.main scenario_connector scenario_phrases scenario_finish None
                 (Some scenario_words) = Returned w1 ∧
     Glosbe.main scenario_connector scenario_phrases scenario_finish
                 (Glosbe.progress_json w1) (Some scenario_words)
     = Returned
         (Glosbe.World (Glosbe.self w1) (Glosbe.progress_json w1)
            [Glosbe.SaveProblematicWords
               (Glosbe.problematic_words (Glosbe.self w1));
             Glosbe.SaveYomichan ∅;
             Glosbe.SaveProblematicWords
               (Glosbe.problematic_words (Glosbe.self w1));
             Glosbe.SaveYomichan ∅])).
Proof.
  destruct second_run_over_the_same_list as [Hgoogle Hglosbe].
  split.
  - destruct (google_main_returns scenario_connector scenario_finish
                None scenario_words (Google.World Google.init None []) eq_refl)
      as [w1 Hmain].
    destruct (Hgoogle scenario_connector scenario_finish
                scenario_connector scenario_finish _ _ _ Hmain)
      as (w2 & res & Hmain' & Hself & Hsub & Hwritten & _).
    exists w1, w2, res. repeat split; assumption.
  - destruct (glosbe_main_returns scenario_connector scenario_phrases scenario_finish
                None scenario_words (Glosbe.World Glosbe.init None []) eq_refl)
      as [w1 Hmain].
    exists w1. split; [done|]. by eapply Hglosbe.
Defined.

(** ** Batches, checkpoints and pauses *)

Lemma filter_all {A} (P : A → Prop) `{!∀ x, Decision (P x)} (l : list A) :
  Forall P l → filter P l = l.
Proof.
  induction 1 as [|x l Hx _ IH]; [done|]. by rewrite filter_cons_True // IH.
Qed.

Lemma filter_none {A} (P : A → Prop) `{!∀ x, Decision (P x)} (l : list A) :
  Forall (λ x, ¬ P x) l → filter P l = [].
Proof.
  induction 1 as [|x l Hx _ IH]; [done|]. by rewrite filter_cons_False.
Qed.

Lemma batches_followed n bs :
  bs ≠ 0 →
  length (filter (λ i, i + bs < n) (batch_starts n bs))
  = (n + bs - 1) `div` bs - 1.
Proof.
  intros Hbs. rewrite /batch_starts.
  pose proof (Nat.div_mod_eq (n + bs - 1) bs) as Hdm.
  pose proof (Nat.mod_upper_bound (n + bs - 1) bs Hbs) as Hmod.
  set (N := (n + bs - 1) `div` bs) in *.
  destruct N as [|N'] eqn:HN; [done|].
  rewrite seq_S fmap_app filter_app length_app /=.
  rewrite filter_all; last first.
  { apply Forall_fmap, Forall_forall. intros k Hk%elem_of_seq. simpl. nia. }
  rewrite filter_none; last first.
  { repeat constructor. nia. }
  rewrite length_fmap length_seq /=. lia.
Qed.

Lemma google_pauses_app tr1 tr2 :
  google_pauses (tr1 ++ tr2) = google_pauses tr1 + google_pauses tr2.
Proof. by rewrite /google_pauses omap_app length_app. Qed.

Lemma glosbe_pauses_app tr1 tr2 :
  glosbe_pauses (tr1 ++ tr2) = glosbe_pauses tr1 + glosbe_pauses tr2.
Proof. by rewrite /glosbe_pauses omap_app length_app. Qed.

Lemma google_pauses_submit n (l : list (string * string)) :
  google_pauses ((λ p, Google.Submit n p.1 p.2) <$> l) = 0.
Proof. by induction l. Qed.

Lemma glosbe_pauses_submit n (l : list (string * string)) :
  glosbe_pauses ((λ p, Glosbe.Submit n p.1 p.2) <$> l) = 0.
Proof. by induction l. Qed.

Lemma google_checkpoints_submit n (l : list (string * string)) :
  google_checkpoints ((λ p, Google.Submit n p.1 p.2) <$> l) = [].
Proof. by induction l. Qed.

Lemma glosbe_checkpoints_submit n (l : list (string * string)) :
  glosbe_checkpoints ((λ p, Glosbe.Submit n p.1 p.2) <$> l) = [].
Proof. by induction l. Qed.

Lemma google_foldl_pauses get_translation finish pairs bs starts w res :
  ∃ new,
    Google.trace (foldl (Google.process_batch get_translation finish pairs bs)
                        (w, res) starts).1 = Google.trace w ++ new ∧
    length (google_checkpoints new) = length starts ∧
    google_pauses new = length (filter (λ i, i + bs < length pairs) starts).
Proof.
  revert w res. induction starts as [|i starts IH]; intros w res.
  - exists []. by rewrite app_nil_r.
  - cbn [foldl].
    destruct (google_process_batch_spec get_translation finish pairs bs w res i)
      as (b' & res' & -> & _).
    destruct (IH (Google.World b' (Some (dumps (Google.progress_data b' res')))
                    (Google.trace w
                     ++ ((λ p, Google.Submit (i `div` bs + 1) p.1 p.2)
                           <$> filter (λ p, p.1 ∉ Google.processed_words (Google.self w))
                                      (take bs (drop i pairs)))
                     ++ Google.SaveProgress b' (size res')
                        :: (if decide (i + bs < length pairs)
                            then [Google.Sleep] else [])))
                 res') as (new & Htr & Hcp & Hpause).
    eexists. split; [by rewrite Htr /= -app_assoc|].
    rewrite !google_checkpoints_app !google_pauses_app !length_app
            google_checkpoints_submit google_pauses_submit Hcp Hpause.
    rewrite filter_cons. by case_decide.
Qed.

Lemma glosbe_foldl_pauses get_translation get_similar_phrases finish pairs bs
    starts w res :
  ∃ new,
    Glosbe.trace (foldl (Glosbe.process_batch get_translation get_similar_phrases
                           finish pairs bs) (w, res) starts).1
    = Glosbe.trace w ++ new ∧
    length (glosbe_checkpoints new) = length starts ∧
    glosbe_pauses new = length (filter (λ i, i + bs < length pairs) starts).
Proof.
  revert w res. induction starts as [|i starts IH]; intros w res.
  - exists []. by rewrite app_nil_r.
  - cbn [foldl].
    destruct (glosbe_process_batch_spec get_translation get_similar_phrases finish
                pairs bs w res i) as (b' & res' & -> & _).
    destruct (IH (Glosbe.World b' (Some (dumps (Glosbe.progress_data b' res')))
                    (Glosbe.trace w
                     ++ ((λ p, Glosbe.Submit (i `div` bs + 1) p.1 p.2)
                           <$> filter (λ p, p.1 ∉ Glosbe.processed_words (Glosbe.self w))
                                      (take bs (drop i pairs)))
                     ++ Glosbe.SaveProgress b' (size res')
                        :: (if decide (i + bs < length pairs)
                            then [Glosbe.Sleep] else [])))
                 res') as (new & Htr & Hcp & Hpause).
    eexists. split; [by rewrite Htr /= -app_assoc|].
    rewrite !glosbe_checkpoints_app !glosbe_pauses_app !length_app
            glosbe_checkpoints_submit glosbe_pauses_submit Hcp Hpause.
    rewrite filter_cons. by case_decide.
Qed.

(** [process_words] with a batch size of zero raises [ValueError]
    before anything is done. With a positive batch size it returns; a
    list of [n] pairs is handled in [(n + batch_size - 1) // batch_size]
    batches, with one checkpoint per batch and one pause between two
    batches, none after the last; an empty list changes nothing and
    gives no results. Both builders. *)
Theorem process_words_batches (pairs : list (string * string)) (batch_size : nat) :
  (∀ get_translation finish w,
     (batch_size = 0 →
        Google.process_words get_translation finish pairs batch_size w
        = Raises ValueError) ∧
     (batch_size ≠ 0 →
        ∃ w' res' new,
          Google.process_words get_translation finish pairs batch_size w
            = Returned (w', res') ∧
          Google.trace w' = Google.trace w ++ new ∧
          length (google_checkpoints new)
            = (length pairs + batch_size - 1) `div` batch_size ∧
          google_pauses new
            = (length pairs + batch_size - 1) `div` batch_size - 1 ∧
          (pairs = [] → w' = w ∧ res' = ∅))) ∧
  (∀ get_translation get_similar_phrases finish w,
     (batch_size = 0 →
        Glosbe.process_words get_translation get_similar_phrases finish
                             pairs batch_size w
        = Raises ValueError) ∧
     (batch_size ≠ 0 →
        ∃ w' res' new,
          Glosbe.process_words get_translation get_similar_phrases finish
                               pairs batch_size w
            = Returned (w', res') ∧
          Glosbe.trace w' = Glosbe.trace w ++ new ∧
          length (glosbe_checkpoints new)
            = (length pairs + batch_size - 1) `div` batch_size ∧
          glosbe_pauses new
            = (length pairs + batch_size - 1) `div` batch_size - 1 ∧
          (pairs = [] → w' = w ∧ res' = ∅))).
Proof.
  split.
  - intros get_translation finish w. split.
    + intros ->. rewrite /Google.process_words. by case_decide.
    + intros Hbs. rewrite /Google.process_words decide_False //.
      destruct (google_foldl_pauses get_translation finish pairs batch_size
                  (batch_starts (length pairs) batch_size) w ∅)
        as (new & Htr & Hcp & Hpause).
      destruct (foldl _ _ _) as [w' res'] eqn:Hfold. simpl in Htr.
      exists w', res', new. split; [done|]. split; [done|].
      split; [by rewrite Hcp /batch_starts length_fmap length_seq|].
      split; [by rewrite Hpause batches_followed|].
      intros ->. revert Hfold. rewrite /batch_starts.
      replace ((length (@nil (string * string)) + batch_size - 1) `div` batch_size)
        with 0; [by intros [= <- <-]|].
      symmetry. apply Nat.div_small. simpl. lia.
  - intros get_translation get_similar_phrases finish w. split.
    + intros ->. rewrite /Glosbe.process_words. by case_decide.
    + intros Hbs. rewrite /Glosbe.process_words decide_False //.
      destruct (glosbe_foldl_pauses get_translation get_similar_phrases finish
                  pairs batch_size
                  (batch_starts (length pairs) batch_size) w ∅)
        as (new & Htr & Hcp & Hpause).
      destruct (foldl _ _ _) as [w' res'] eqn:Hfold. simpl in Htr.
      exists w', res', new. split; [done|]. split; [done|].
      split; [by rewrite Hcp /batch_starts length_fmap length_seq|].
      split; [by rewrite Hpause batches_followed|].
      intros ->. revert Hfold. rewrite /batch_starts.
      replace ((length (@nil (string * string)) + batch_size - 1) `div` batch_size)
        with 0; [by intros [= <- <-]|].
      symmetry. apply Nat.div_small. simpl. lia.
Qed.

Lemma process_words_batches_witness :
  Google.process_words scenario_connector scenario_finish
                       [("casa", "n"); ("xyz123", ""); ("agua", "n")] 0
                       (Google.World Google.init None [])
  = Raises ValueError ∧
  ∃ w' res' new,
    Google.process_words scenario_connector scenario_finish
                         [("casa", "n"); ("xyz123", ""); ("agua", "n")] 2
                         (Google.World Google.init None [])
      = Returned (w', res') ∧
    Google.trace w' = [] ++ new ∧
    length (google_checkpoints new) = 2 ∧
    google_pauses new = 1 ∧
    ([("casa", "n"); ("xyz123", ""); ("agua", "n")] = [] → 
     w' = Google.World Google.init None [] ∧ res' = ∅).
Proof.
  split.
  - destruct (process_words_batches
                [("casa", "n"); ("xyz123", ""); ("agua", "n")] 0) as [Hgoogle _].
    by apply Hgoogle.
  - destruct (process_words_batches
                [("casa", "n"); ("xyz123", ""); ("agua", "n")] 2) as [Hgoogle _].
    apply (Hgoogle scenario_connector scenario_finish
             (Google.World Google.init None [])). lia.
Defined.

(** ** The term bank *)

Lemma dumps_inj j j' : dumps j = dumps j' → j = j'.
Proof.
  intros Heq. apply (f_equal loads) in Heq. rewrite !loads_dumps in Heq.
  by injection Heq.
Qed.

Lemma google_entry_inj k t f k' t' f' :
  GoogleTermBank.create_yomichan_entry k t f
  = GoogleTermBank.create_yomichan_entry k' t' f' →
  k = k' ∧ t = t' ∧ f = f'.
Proof.
  rewrite /GoogleTermBank.create_yomichan_entry.
  destruct (decide (f ≠ "")) as [Hf|Hf%dec_stable],
           (decide (f' ≠ "")) as [Hf'|Hf'%dec_stable];
    intros [=]; by subst.
Qed.

Lemma google_entries_inj items items' :
  GoogleTermBank.entries items = GoogleTermBank.entries items' → items = items'.
Proof.
  revert items'. induction items as [|[k [t f]] items IH];
    intros [|[k' [t' f']] items']; try done.
  rewrite /GoogleTermBank.entries !fmap_cons. cbn [fst snd].
  intros [Hentry Hrest]%(inj2 cons).
  apply google_entry_inj in Hentry as (-> & -> & ->). f_equal. by apply IH.
Qed.


Lemma example_items_inj (l l' : list string) :
  (λ example, JObj [("tag", JStr "li"); ("content", JStr example)]) <$> l
  = (λ example, JObj [("tag", JStr "li"); ("content", JStr example)]) <$> l' →
  l = l'.
Proof.
  revert l'. induction l as [|x l IH]; intros [|x' l']; try done.
  rewrite !fmap_cons. intros [Hx Hl]%(inj2 cons). injection Hx as ->.
  f_equal. by apply IH.
Qed.

Lemma glosbe_entry_inj k t f ex k' t' f' ex' :
  GlosbeTermBank.create_yomichan_entry k t f ex
  = GlosbeTermBank.create_yomichan_entry k' t' f' ex' →
  k = k' ∧ t = t' ∧ f = f' ∧ take 3 ex = take 3 ex'.
Proof.
  rewrite /GlosbeTermBank.create_yomichan_entry.
  destruct (decide (f ≠ "")) as [Hf|Hf%dec_stable],
           (decide (f' ≠ "")) as [Hf'|Hf'%dec_stable];
    destruct ex as [|e ex], ex' as [|e' ex'];
    rewrite ?decide_False ?decide_True //; try (by intros ?%dec_stable);
    rewrite ?firstn_cons ?fmap_cons ?decide_True //;
    intros [=]; subst; try done.
  all: repeat split; try done; f_equal; by apply example_items_inj.
Qed.

Lemma glosbe_entry_first_examples k t f ex :
  GlosbeTermBank.create_yomichan_entry k t f (take 3 ex)
  = GlosbeTermBank.create_yomichan_entry k t f ex.
Proof.
  rewrite /GlosbeTermBank.create_yomichan_entry take_take.
  change (3 `min` 3) with 3.
  by destruct ex as [|e ex].
Qed.

Lemma glosbe_entries_first_examples items :
  GlosbeTermBank.entries (first_examples <$> items) = GlosbeTermBank.entries items.
Proof.
  rewrite /GlosbeTermBank.entries -list_fmap_compose.
  apply list_fmap_ext. intros _ [k [[t f] ex]] _. simpl.
  apply glosbe_entry_first_examples.
Qed.

Lemma glosbe_entries_inj items items' :
  GlosbeTermBank.entries items = GlosbeTermBank.entries items' →
  first_examples <$> items = first_examples <$> items'.
Proof.
  revert items'. induction items as [|[k [[t f] ex]] items IH];
    intros [|[k' [[t' f'] ex']] items']; try done.
  rewrite /GlosbeTermBank.entries !fmap_cons. cbn [fst snd].
  intros [Hentry Hrest]%(inj2 cons).
  apply glosbe_entry_inj in Hentry as (-> & -> & -> & Hex).
  rewrite /first_examples /= Hex. f_equal. by apply IH.
Qed.

(** The file [save_yomichan] writes is a JSON document: an array with
    one entry per result, in the order of the results, each filed
    under its word. A Google entry has eight fields, a Glosbe entry
    six. *)
Theorem term_bank_parses_back :
  (∀ items d,
     ∃ file,
       GoogleTermBank.save_yomichan items d = Some file ∧
       loads file = Some (JArr (GoogleTermBank.entries items)) ∧
       omap entry_term (GoogleTermBank.entries items) = items.*1 ∧
       Forall (λ entry, ∃ fields, entry = JArr fields ∧ length fields = 8)
              (GoogleTermBank.entries items)) ∧
  (∀ items d,
     ∃ file,
       GlosbeTermBank.save_yomichan items d = Some file ∧
       loads file = Some (JArr (GlosbeTermBank.entries items)) ∧
       omap entry_term (GlosbeTermBank.entries items) = items.*1 ∧
       Forall (λ entry, ∃ fields, entry = JArr fields ∧ length fields = 6)
              (GlosbeTermBank.entries items)).
Proof.
  split; intros items d.
  - exists (dumps (JArr (GoogleTermBank.entries items))).
    rewrite /GoogleTermBank.save_yomichan run_ops_write_json loads_dumps.
    do 2 (split; [done|]). split.
    + induction items as [|[k [t f]] items IH]; [done|].
      by rewrite /GoogleTermBank.entries !fmap_cons /= -IH.
    + apply Forall_fmap, Forall_forall. intros [k [t f]] _. by eexists.
  - exists (dumps (JArr (GlosbeTermBank.entries items))).
    rewrite /GlosbeTermBank.save_yomichan run_ops_write_json loads_dumps.
    do 2 (split; [done|]). split.
    + induction items as [|[k [[t f] ex]] items IH]; [done|].
      by rewrite /GlosbeTermBank.entries !fmap_cons /= -IH.
    + apply Forall_fmap, Forall_forall. intros [k [[t f] ex]] _. by eexists.
Qed.

(** The term bank keeps the results: two runs of the Google
    [save_yomichan] that write the same file were given the same
    words, translations and flags, in the same order. The Glosbe
    [save_yomichan] keeps the first three examples of a word and drops
    the others: files are equal exactly when the results agree up to
    the examples after the third. *)
Theorem term_bank_keeps_results :
  (∀ items items' d d',
     GoogleTermBank.save_yomichan items d = GoogleTermBank.save_yomichan items' d' →
     items = items') ∧
  (∀ items items' d d',
     GlosbeTermBank.save_yomichan items d = GlosbeTermBank.save_yomichan items' d' →
     first_examples <$> items = first_examples <$> items') ∧
  (∀ items items' d d',
     first_examples <$> items = first_examples <$> items' →
     GlosbeTermBank.save_yomichan items d = GlosbeTermBank.save_yomichan items' d').
Proof.
  split; [|split].
  - intros items items' d d'.
    rewrite /GoogleTermBank.save_yomichan !run_ops_write_json.
    intros Heq%(inj Some)%dumps_inj. apply google_entries_inj. by injection Heq.
  - intros items items' d d'.
    rewrite /GlosbeTermBank.save_yomichan !run_ops_write_json.
    intros Heq%(inj Some)%dumps_inj. apply glosbe_entries_inj. by injection Heq.
  - intros items items' d d' Heq.
    rewrite /GlosbeTermBank.save_yomichan !run_ops_write_json.
    by rewrite -(glosbe_entries_first_examples items) Heq
               glosbe_entries_first_examples.
Qed.

Lemma term_bank_keeps_results_witness :
  [("casa", ("jib", "n"))] = [("casa", ("jib", "n"))] ∧
  first_examples <$> [("casa", ("jib", "n", ["a"; "b"; "c"; "d"]))]
  = first_examples <$> [("casa", ("jib", "n", ["a"; "b"; "c"]))] ∧
  GlosbeTermBank.save_yomichan
    [("casa", ("jib", "n", ["a"; "b"; "c"; "d"]))] None
  = GlosbeTermBank.save_yomichan
      [("casa", ("jib", "n", ["a"; "b"; "c"]))] (Some []).
Proof.
  destruct term_bank_keeps_results as (Hgoogle & Hglosbe & Hsame).
  split; [|split].
  - by apply (Hgoogle _ _ None (Some [])).
  - apply (Hglosbe _ _ None (Some [])). by apply Hsame.
  - by apply Hsame.
Defined.

(** ** The retries of the Google client *)

Lemma client_sleeps_request a tr :
  client_sleeps (GoogleClient.Request a :: tr) = client_sleeps tr.
Proof. done. Qed.

Lemma client_sleeps_sleep s tr :
  client_sleeps (GoogleClient.Sleep s :: tr) = s :: client_sleeps tr.
Proof. done. Qed.

Lemma attempts_spec server m a k :
  a + k = m →
  let r := GoogleClient.attempts server m (seq a k) in
  (∃ n, n ≤ k ∧ client_requests r.2 = seq a n) ∧
  (∀ t, r.1 = Some t
        ↔ ∃ n, n < k ∧ server (a + n) = GoogleClient.Answer t ∧
               ∀ i, i < n → retried (server (a + i))) ∧
  sum_list (client_sleeps r.2) + 2 ^ (a + 1) ≤ 2 ^ (m + 1).
Proof.
  revert a. induction k as [|k IH]; intros a Hm; cbv zeta.
  - simpl. split; [by exists 0|]. split.
    + intros t. split; [done|]. intros (n & ? & _). lia.
    + replace a with m by lia. lia.
  - destruct (IH (S a) ltac:(lia)) as ((n & Hn & Hreq) & Hres & Hsleep).
    cbv zeta in Hres, Hsleep.
    remember (GoogleClient.attempts server m (seq (S a) k)) as rest eqn:Hrest.
    assert (2 ^ (a + 1) ≤ 2 ^ (m + 1)) as Hpow
      by (apply Nat.pow_le_mono_r; lia).
    assert (2 ^ (S a + 1) = 2 * 2 ^ (a + 1)) as Hdouble
      by (rewrite -Nat.pow_succ_r'; f_equal; lia).
    assert (1 ≤ 2 ^ (a + 1)) as Hone.
    { pose proof (Nat.pow_nonzero 2 (a + 1)). lia. }
    rewrite Hdouble in Hsleep. clear Hdouble.
    assert (2 ^ a * 2 = 2 ^ (a + 1)) as Hwait
      by (rewrite Nat.add_1_r Nat.pow_succ_r'; lia).
    generalize dependent (2 ^ (a + 1)). intros p Hsleep Hpow Hone Hwait.
    assert (∀ t, (∃ n, n < S k ∧ server (a + n) = GoogleClient.Answer t ∧
                       ∀ i, i < n → retried (server (a + i)))
                 ↔ server a = GoogleClient.Answer t ∨
                   retried (server a) ∧
                   ∃ n, n < k ∧ server (S a + n) = GoogleClient.Answer t ∧
                        ∀ i, i < n → retried (server (S a + i))) as Hshift.
    { intros t. split.
      - intros ([|n'] & Hlt & Hans & Hretried).
        + left. by rewrite Nat.add_0_r in Hans.
        + right. split.
          * specialize (Hretried 0 ltac:(lia)). by rewrite Nat.add_0_r in Hretried.
          * exists n'. split; [lia|]. split.
            { by replace (S a + n') with (a + S n') by lia. }
            intros i Hi. replace (S a + i) with (a + S i) by lia.
            apply Hretried. lia.
      - intros [Hans|[Hfirst (n' & Hlt & Hans & Hretried)]].
        + exists 0. rewrite Nat.add_0_r. split; [lia|]. split; [done|]. lia.
        + exists (S n'). split; [lia|]. split.
          { by replace (a + S n') with (S a + n') by lia. }
          intros [|i] Hi; [by rewrite Nat.add_0_r|].
          replace (a + S i) with (S a + i) by lia. apply Hretried. lia. }
    cbn [seq GoogleClient.attempts]. rewrite -Hrest.
    destruct (server a) eqn:Hserver.
    + cbn [fst snd]. split; [|split].
      * exists (S n). split; [lia|]. by rewrite /client_requests /= -Hreq.
      * intros t. rewrite Hshift Hres /retried. naive_solver.
      * rewrite client_sleeps_request client_sleeps_sleep.
        cbn [sum_list_with]. rewrite Hwait. change (id p) with p. lia.
    + case_decide as Hlast; cbn [fst snd]; (split; [|split]).
      * exists (S n). split; [lia|]. by rewrite /client_requests /= -Hreq.
      * intros t. rewrite Hshift Hres /retried. naive_solver.
      * rewrite client_sleeps_request client_sleeps_sleep.
        cbn [sum_list_with]. change (id 1) with 1. lia.
      * exists 1. split; [lia|done].
      * intros t. rewrite Hshift. split; [done|].
        intros [?|[_ (n' & Hn' & _)]]; [done|]. lia.
      * simpl. lia.
    + cbn [fst snd]. split; [|split].
      * exists 1. split; [lia|done].
      * intros t. rewrite Hshift /retried. naive_solver.
      * simpl. lia.
    + cbn [fst snd]. split; [|split].
      * exists 1. split; [lia|done].
      * intros t. rewrite Hshift /retried. naive_solver.
      * simpl. lia.
    + cbn [fst snd]. split; [|split].
      * exists 1. split; [lia|done].
      * intros t. rewrite Hshift /retried. naive_solver.
      * simpl. lia.
Qed.

Lemma first_answer_unique (server : nat → GoogleClient.response) n n' t t' :
  server n = GoogleClient.Answer t → (∀ i, i < n → retried (server i)) →
  server n' = GoogleClient.Answer t' → (∀ i, i < n' → retried (server i)) →
  n = n' ∧ t = t'.
Proof.
  intros Hn Hbefore Hn' Hbefore'.
  assert (n = n') as <-.
  { destruct (Nat.lt_trichotomy n n') as [Hlt|[->|Hlt]]; [|done|].
    - destruct (Hbefore' n Hlt) as [H|H]; rewrite H in Hn; done.
    - destruct (Hbefore n' Hlt) as [H|H]; rewrite H in Hn'; done. }
  split; [done|]. rewrite Hn in Hn'. by injection Hn'.
Qed.

Lemma get_translation_retries_spec (server : nat → GoogleClient.response)
    (max_retries : nat) :
  let r := GoogleClient.get_translation server max_retries in
  (∃ n, n ≤ max_retries ∧ client_requests r.2 = seq 0 n) ∧
  (∀ t, r.1 = Some t
        ↔ ∃ n, n < max_retries ∧ server n = GoogleClient.Answer t ∧
               ∀ i, i < n → retried (server i)) ∧
  sum_list (client_sleeps r.2) ≤ 2 ^ (max_retries + 1) - 2.
Proof.
  destruct (attempts_spec server max_retries 0 max_retries eq_refl)
    as (Hreq & Hres & Hsleep).
  cbv zeta in *. split; [done|]. split; [done|].
  change (2 ^ (0 + 1)) with 2 in Hsleep.
  rewrite /GoogleClient.get_translation. lia.
Qed.

(** [get_translation] sends the attempts [0, 1, ...] in order and at
    most [max_retries] of them; it returns a translation exactly when
    one of the first [max_retries] responses is an answer and every
    response before it was a 429 or a failed request; the back-off
    sleeps at most [2 ^ (max_retries + 1) - 2] seconds in all. *)
Theorem get_translation_retries (server : nat → GoogleClient.response)
    (max_retries : nat) :
  let r := GoogleClient.get_translation server max_retries in
  (∃ n, n ≤ max_retries ∧ client_requests r.2 = seq 0 n) ∧
  (∀ t, r.1 = Some t
        ↔ ∃ n, n < max_retries ∧ server n = GoogleClient.Answer t ∧
               ∀ i, i < n → retried (server i)) ∧
  sum_list (client_sleeps r.2) ≤ 2 ^ (max_retries + 1) - 2.
Proof. apply get_translation_retries_spec. Qed.

(** With the client as its connector, the task of a word yields a
    translation exactly when one of the three responses is an answer
    that is not blank and every response before it was a 429 or a
    failed request; the translation is the answer, stripped. The task
    never raises. *)
Theorem process_word_with_client (servers : string → nat → GoogleClient.response)
    (word flags : string) :
  (∃ r, Google.process_word (client_connector servers) word flags = Reply r) ∧
  ∀ t',
    Google.process_word (client_connector servers) word flags = Reply (Some t')
    ↔ ∃ n t, n < 3 ∧ servers word n = GoogleClient.Answer t ∧
             (∀ i, i < n → retried (servers word i)) ∧
             strip t ≠ "" ∧ t' = strip t.
Proof.
  destruct (get_translation_retries_spec (servers word) 3) as (_ & Hres & _).
  rewrite /Google.process_word /client_connector.
  destruct (GoogleClient.get_translation (servers word) 3).1 as [t|] eqn:Hr.
  - destruct (proj1 (Hres t) eq_refl) as (n & Hn & Hans & Hretried).
    case_decide as Hblank.
    + split; [by eexists|]. intros t'. split; [done|].
      intros (n' & t0 & Hn' & Hans' & Hretried' & Hne & _).
      destruct (first_answer_unique (servers word) n n' t t0) as [_ ->]; done.
    + split; [by eexists|]. intros t'. split.
      * intros [= <-]. by exists n, t.
      * intros (n' & t0 & Hn' & Hans' & Hretried' & Hne & ->).
        by destruct (first_answer_unique (servers word) n n' t t0) as [_ ->].
  - split; [by eexists|]. intros t'. split; [done|].
    intros (n & t & Hn & Hans & Hretried & _).
    assert (None = Some t) as Hsome by (apply Hres; by exists n).
    done.
Qed.

(** The client on a server that answers at the third attempt. *)
Example get_translation_third_time_lucky :
  GoogleClient.get_translation third_time_lucky 3
  = (Some "jib",
     [GoogleClient.Request 0; GoogleClient.Sleep 2;
      GoogleClient.Request 1; GoogleClient.Sleep 1;
      GoogleClient.Request 2]).
Proof. reflexivity. Qed.

(** ** A kill while the term bank is written *)

(** [save_yomichan] rewrites the term bank in place: killed before it
    opens the file it leaves the file as it was; killed after the
    [open] and before the last chunk is written it leaves a file that
    is not a JSON document, whatever the file held before. Both
    builders. *)
Theorem term_bank_rewritten_in_place :
  (∀ items d, google_save_yomichan_killed 0 items d = d) ∧
  (∀ items d k,
     0 < k → k ≤ length (dumps (JArr (GoogleTermBank.entries items))) →
     ∃ file, google_save_yomichan_killed k items d = Some file ∧
             loads file = None) ∧
  (∀ items d, glosbe_save_yomichan_killed 0 items d = d) ∧
  (∀ items d k,
     0 < k → k ≤ length (dumps (JArr (GlosbeTermBank.entries items))) →
     ∃ file, glosbe_save_yomichan_killed k items d = Some file ∧
             loads file = None).
Proof.
  split; [done|]. split; [|split; [done|]].
  - intros items d k Hk Hlen. destruct k as [|k]; [lia|].
    rewrite /google_save_yomichan_killed crash_after_open; [|lia].
    eexists. split; [done|]. apply loads_proper_prefix. lia.
  - intros items d k Hk Hlen. destruct k as [|k]; [lia|].
    rewrite /glosbe_save_yomichan_killed crash_after_open; [|lia].
    eexists. split; [done|]. apply loads_proper_prefix. lia.
Qed.

Lemma term_bank_rewritten_in_place_witness :
  (∃ file, google_save_yomichan_killed 3 [("casa", ("jib", "n"))]
             (GoogleTermBank.save_yomichan [("agua", ("mul", "n"))] None)
           = Some file ∧ loads file = None) ∧
  (∃ file, glosbe_save_yomichan_killed 1 [("casa", ("jib", "n", ["a"]))] None
           = Some file ∧ loads file = None).
Proof.
  destruct term_bank_rewritten_in_place as (_ & Hgoogle & _ & Hglosbe).
  split.
  - apply Hgoogle; [lia|]. vm_compute. lia.
  - apply Hglosbe; [lia|]. vm_compute. lia.
Defined.
